(** * fixed-width: layout validation, line parser and record codec

    A shallow embedding of the fixed-width column codec:
    - [src/options.mjs] (module [OptionsMjs]) and the copy of it in the
      CommonJS bundle (module [Bundle]): [parseOptions], with the functions
      both copies share word for word in module [Layout]: [parseFields],
      [parseField], [parseTrimOption], [getWidth], [getNextField];
    - the bundled [Parser] ([write], [end], [parseIterable]), [parseFields],
      [parseField], [guessEndOfLine], [trimStart], [trimEnd], [trim],
      [trimString];
    - the bundled [stringifyFields], [replaceWith], [stringifyField],
      [stringifyValue], [stringifyPrimitiveValue].
    The tests of [src/options.mjs] are replayed in [OptionsFacts].

    Modelling conventions.
    - A JavaScript string is the list of its code units ([jsstr]); code units
      are drawn from [ascii], and no operation of the program looks inside one.
    - A JavaScript number is classified the way the program inspects it
      ([Number]): integral values carry a [Z], non-integral finite values
      carry the text [toString(10)] gives for them.  Doubles hold every
      integer up to 2^53 in magnitude and add them exactly; a sum the code
      forms beyond that is rounded by the machine, and the model stops there
      ([Number_add] gives [Unfinished]) instead of going on with a value the
      code does not have.
    - Values are own-data-property trees ([JsValue]): no getters, proxies,
      inherited members or RegExp objects.  A function is known by an
      identity, and is run through the [call] parameter of the codec on its
      arguments (the functions of the model do not read [this]); a [Buffer]
      is a list of bytes decoded by the [Buffer_toString] parameter.
    - The parser is fed strings; the [StringDecoder] in front of it for
      byte chunks is not part of the model.
    - A [throw] is the [Throw] constructor of [result]; a generator is the
      list of what it yields together with how it stops. *)

From Stdlib Require Import ZArith List Bool Ascii String Lia Permutation.
From Stdlib Require Import DecimalString.
From Stdlib Require DecimalFacts DecimalPos DecimalZ.
Import ListNotations.

Local Open Scope string_scope.
Local Open Scope list_scope.
Local Open Scope Z_scope.

(** ** Strings *)

Definition jsstr := list ascii.

Definition str (s : string) : jsstr := list_ascii_of_string s.

Fixpoint str_eqb (a b : jsstr) : bool :=
  match a, b with
  | [], [] => true
  | x :: a', y :: b' => Ascii.eqb x y && str_eqb a' b'
  | _, _ => false
  end.

Definition len (s : jsstr) : Z := Z.of_nat (List.length s).

(** [s.substring(start, end)]: both ends are clamped to [0, s.length] and
    swapped when out of order. *)
Definition clamp (s : jsstr) (i : Z) : Z := Z.min (Z.max i 0) (len s).

Definition substring (s : jsstr) (start end_ : Z) : jsstr :=
  let a := clamp s start in
  let b := clamp s end_ in
  let from := Z.min a b in
  let to := Z.max a b in
  firstn (Z.to_nat (to - from)) (skipn (Z.to_nat from) s).

(** [s.substring(start)] *)
Definition substring_from (s : jsstr) (start : Z) : jsstr :=
  substring s start (len s).

(** [s[i]]: [None] stands for [undefined]. *)
Definition char_at (s : jsstr) (i : Z) : option ascii :=
  if i <? 0 then None else nth_error s (Z.to_nat i).

(** [s[i] === pad] *)
Definition char_at_is (s : jsstr) (i : Z) (pad : jsstr) : bool :=
  match char_at s i with
  | Some c => str_eqb [c] pad
  | None => false
  end.

(** [''.padEnd(n, pad)], [s.padEnd(n, pad)] and [s.padStart(n, pad)]: the
    filler is [pad] repeated and cut to the missing length; an empty [pad]
    or a target not above the length leaves the string as it is. *)
Fixpoint filler (n : nat) (pad cur : jsstr) : jsstr :=
  match n with
  | O => []
  | S n' =>
      match cur with
      | c :: cur' => c :: filler n' pad cur'
      | [] =>
          match pad with
          | c :: pad' => c :: filler n' pad pad'
          | [] => []
          end
      end
  end.

Definition padEnd (s : jsstr) (n : Z) (pad : jsstr) : jsstr :=
  s ++ filler (Z.to_nat (n - len s)) pad pad.

Definition padStart (s : jsstr) (n : Z) (pad : jsstr) : jsstr :=
  filler (Z.to_nat (n - len s)) pad pad ++ s.

(** Base-10 text of an integer. *)
Definition Z_toString (z : Z) : jsstr :=
  str (NilEmpty.string_of_int (Z.to_int z)).

(** ** Values *)

Inductive Number : Type :=
| NInt (z : Z)
| NFrac (text : jsstr)
| NNaN
| NPosInf
| NNegInf.

Inductive PropertyKey : Type :=
| KStr (s : jsstr)
| KSym (id : nat).

Definition key_eqb (a b : PropertyKey) : bool :=
  match a, b with
  | KStr x, KStr y => str_eqb x y
  | KSym x, KSym y => Nat.eqb x y
  | _, _ => false
  end.

#[local] Set Warnings "-register-all".

Inductive JsValue : Type :=
| JUndefined
| JNull
| JBoolean (b : bool)
| JNumber (n : Number)
| JBigInt (z : Z)
| JString (s : jsstr)
| JSymbol (id : nat)
| JFunction (id : nat)
| JBuffer (bytes : list Z)
| JArray (items : list JsValue)
| JObject (props : list (PropertyKey * JsValue))
| JBoxed (prim : JsValue).

Definition num (z : Z) : JsValue := JNumber (NInt z).

Inductive TypeTag : Type :=
| t_undefined | t_object | t_boolean | t_number | t_bigint | t_string
| t_symbol | t_function.

Definition typeof (v : JsValue) : TypeTag :=
  match v with
  | JUndefined => t_undefined
  | JNull => t_object
  | JBoolean _ => t_boolean
  | JNumber _ => t_number
  | JBigInt _ => t_bigint
  | JString _ => t_string
  | JSymbol _ => t_symbol
  | JFunction _ => t_function
  | JBuffer _ | JArray _ | JObject _ | JBoxed _ => t_object
  end.

Definition truthy (v : JsValue) : bool :=
  match v with
  | JUndefined | JNull => false
  | JBoolean b => b
  | JNumber (NInt z) => negb (z =? 0)
  | JNumber NNaN => false
  | JNumber _ => true
  | JBigInt z => negb (z =? 0)
  | JString [] => false
  | _ => true
  end.

(** [a || b] *)
Definition or_else (a b : JsValue) : JsValue := if truthy a then a else b.

(** [Number.isInteger(v)] *)
Definition isInteger (v : JsValue) : bool :=
  match v with
  | JNumber (NInt _) => true
  | _ => false
  end.

Fixpoint assoc (k : PropertyKey) (props : list (PropertyKey * JsValue)) : JsValue :=
  match props with
  | [] => JUndefined
  | (k', v) :: rest => if key_eqb k k' then v else assoc k rest
  end.

(** The value of the property [k] among [props], when there is one. *)
Fixpoint own (k : PropertyKey) (props : list (PropertyKey * JsValue)) : option JsValue :=
  match props with
  | [] => None
  | (k', v) :: rest => if key_eqb k k' then Some v else own k rest
  end.

(** The array index a property name denotes, when it is the base-10 text of
    a natural number. *)
Fixpoint digits_value (acc : Z) (s : jsstr) : Z :=
  match s with
  | [] => acc
  | c :: s' => digits_value (10 * acc + (Z.of_nat (nat_of_ascii c) - 48)) s'
  end.

Definition index_of_key (s : jsstr) : option nat :=
  let n := digits_value 0 s in
  if (0 <=? n) && str_eqb (Z_toString n) s then Some (Z.to_nat n) else None.

(** [o[k]] on a string [t], primitive or wrapped: its characters and its
    length. *)
Definition get_char (t : jsstr) (k : PropertyKey) : JsValue :=
  match k with
  | KStr s =>
      match index_of_key s with
      | Some i =>
          match nth_error t i with
          | Some c => JString [c]
          | None => JUndefined
          end
      | None =>
          if str_eqb s (str "length") then num (len t) else JUndefined
      end
  | KSym _ => JUndefined
  end.

(** [o[k]] for a property name or a symbol: the properties the value has
    of its own.  What a value inherits from its prototype (the methods of
    [Object.prototype], of [Array.prototype], ...) is not part of the model;
    the statements below that read a record say so. *)
Definition get (o : JsValue) (k : PropertyKey) : JsValue :=
  match o with
  | JObject props => assoc k props
  | JArray items =>
      match k with
      | KStr s =>
          match index_of_key s with
          | Some i => nth i items JUndefined
          | None =>
              if str_eqb s (str "length") then num (Z.of_nat (List.length items))
              else JUndefined
          end
      | KSym _ => JUndefined
      end
  | JString t | JBoxed (JString t) => get_char t k
  | _ => JUndefined
  end.

Definition prop (o : JsValue) (name : string) : JsValue := get o (KStr (str name)).

(** ** Errors and results *)

(** A template literal, with the values it interpolates. *)
Inductive MsgPart : Type :=
| Lit (s : string)
| Val (v : JsValue).

Inductive JsError : Type :=
| TypeError (message : list MsgPart)
| Error (message : list MsgPart)
| FixedWidthError (code : string) (message : list MsgPart)
                  (context : list (string * JsValue)).

(** What a call does: it returns, it throws, or ([Unfinished]) the model
    gives no answer: a loop was cut short by its round budget, or a sum left
    the range in which doubles are exact. *)
Inductive result (A : Type) : Type :=
| Ok (a : A)
| Throw (e : JsError)
| Unfinished.

Arguments Ok {A} a.
Arguments Throw {A} e.
Arguments Unfinished {A}.

Definition bind {A B : Type} (m : result A) (k : A -> result B) : result B :=
  match m with
  | Ok a => k a
  | Throw e => Throw e
  | Unfinished => Unfinished
  end.

Notation "'do' x <- m ; k" := (bind m (fun x => k))
  (at level 10, x name, m at level 100, k at level 200).

Notation "'throw_if' c 'then' e ; k" := (if c then Throw e else k)
  (at level 10, c at level 100, e at level 100, k at level 200).

Definition typeof_is (v : JsValue) (t : TypeTag) : bool :=
  match typeof v, t with
  | t_undefined, t_undefined | t_object, t_object | t_boolean, t_boolean
  | t_number, t_number | t_bigint, t_bigint | t_string, t_string
  | t_symbol, t_symbol | t_function, t_function => true
  | _, _ => false
  end.

Definition is_null (v : JsValue) : bool :=
  match v with JNull => true | _ => false end.

(** Reading a value whose type has been tested. *)
Definition int_of (v : JsValue) : Z :=
  match v with JNumber (NInt z) => z | _ => 0 end.

Definition str_of (v : JsValue) : jsstr :=
  match v with JString s => s | _ => [] end.

(** [v === 'text'] *)
Definition is_str (v : JsValue) (text : string) : bool :=
  match v with JString s => str_eqb s (str text) | _ => false end.

(** [v === b] *)
Definition is_bool (v : JsValue) (b : bool) : bool :=
  match v with JBoolean b' => Bool.eqb b' b | _ => false end.

(** [a + b] on integral doubles: exact while the sum stays within 2^53 in
    magnitude. *)
Definition Number_add (a b : Z) : result Z :=
  if Z.abs (a + b) <=? 2 ^ 53 then Ok (a + b) else Unfinished.

(** ** Normalised options *)

Inductive Align : Type := AlignLeft | AlignRight.

(** The values a trim option may hold: [true], [false], ['auto'], ['left'],
    ['right']. *)
Inductive Trim : Type := TrimTrue | TrimFalse | TrimAuto | TrimLeft | TrimRight.

(** [field.property]: a string, a symbol, or the field's index. *)
Inductive Property : Type :=
| PKey (k : PropertyKey)
| PIndex (i : nat).

(** [to]: an integer or [Number.POSITIVE_INFINITY]. *)
Inductive LineBound : Type :=
| Finite (z : Z)
| Infinity.

Inductive Output : Type := OutArray | OutObject.

Module Field.
Record t : Type := make {
  align : Align;
  cast : option nat;
  column : Z;
  pad : jsstr;
  property : Property;
  stringify : option nat;
  trim : Trim;
  width : Z
}.
End Field.

Module Options.
Record t : Type := make {
  allowLongerLines : bool;
  allowShorterLines : bool;
  encoding : jsstr;
  eof : bool;
  eol : jsstr;
  fields : list Field.t;
  from : Z;
  to : LineBound;
  output : Output;
  pad : jsstr;
  skipEmptyLines : bool;
  trim : Trim;
  width : Z
}.

Definition with_eol (o : t) (e : jsstr) : t :=
  make (allowLongerLines o) (allowShorterLines o) (encoding o) (eof o) e
       (fields o) (from o) (to o) (output o) (pad o) (skipEmptyLines o)
       (trim o) (width o).
End Options.

(** ** Layout validation

    [parseFields], [parseTrimOption], [parseField], [getWidth],
    [getNextField], [isPositiveInteger] and [isPropertyKey] have the same
    text in [src/options.mjs] and in the bundle (where the first and third
    are renamed [parseFields$1] and [parseField$1]). *)

Module Layout.

Definition isPositiveInteger (value : JsValue) : bool :=
  isInteger value && (int_of value >? 0).

Definition isPropertyKey (value : JsValue) : bool :=
  typeof_is value t_string || typeof_is value t_symbol.

Definition trim_of (value : JsValue) : Trim :=
  if is_bool value true then TrimTrue
  else if is_bool value false then TrimFalse
  else if is_str value "auto" then TrimAuto
  else if is_str value "left" then TrimLeft
  else TrimRight.

Definition parseTrimOption (value : JsValue) (defaultValue : Trim) : result Trim :=
  if typeof_is value t_undefined then Ok defaultValue
  else if is_bool value true || is_bool value false || is_str value "auto"
          || is_str value "left" || is_str value "right"
  then Ok (trim_of value)
  else Throw (TypeError [Lit "Invalid trim option: "; Val value]).

Definition property_of (value : JsValue) : PropertyKey :=
  match value with
  | JSymbol id => KSym id
  | _ => KStr (str_of value)
  end.

Definition function_of (value : JsValue) : option nat :=
  match value with
  | JFunction id => Some id
  | _ => None
  end.

Definition parseField (field : JsValue) (index : nat) (defaultColumn : Z)
    (defaultPad : jsstr) (defaultTrim : Trim) : result Field.t :=
  throw_if negb (typeof_is field t_object) || is_null field
  then TypeError [Lit "Field definition must be an object"];
  throw_if negb (isPositiveInteger (prop field "width"))
  then TypeError [Lit "Field width must be a positive integer"];
  let column := or_else (prop field "column") (num defaultColumn) in
  throw_if negb (isPositiveInteger column)
  then TypeError [Lit "Field column must be a positive integer"];
  let pad := or_else (prop field "pad") (JString defaultPad) in
  throw_if negb (typeof_is pad t_string)
  then TypeError [Lit "Padding value (pad) must be a string"];
  throw_if negb (len (str_of pad) =? 1)
  then Error [Lit "Padding value (pad) must be a single char"];
  do trim <- parseTrimOption (prop field "trim") defaultTrim;
  Ok {| Field.align := if is_str (prop field "align") "right" then AlignRight else AlignLeft;
        Field.cast := function_of (prop field "cast");
        Field.column := int_of column;
        Field.pad := str_of pad;
        Field.property :=
          if isPropertyKey (prop field "property")
          then PKey (property_of (prop field "property"))
          else PIndex index;
        Field.stringify := function_of (prop field "stringify");
        Field.trim := trim;
        Field.width := int_of (prop field "width") |}.

(** The [for] loop of [parseFields], from index [i] with the running
    default [column]. *)
Fixpoint parseFields_from (items : list JsValue) (i : nat) (column : Z)
    (pad : jsstr) (trim : Trim) : result (list Field.t) :=
  match items with
  | [] => Ok []
  | item :: rest =>
      do field <- parseField item i column pad trim;
      do column <- Number_add column (Field.width field);
      do fields <- parseFields_from rest (S i) column pad trim;
      Ok (field :: fields)
  end.

Definition parseFields (items : JsValue) (pad : jsstr) (trim : Trim)
    : result (list Field.t) :=
  match items with
  | JArray l => parseFields_from l 0 1 pad trim
  | _ => Throw (TypeError [Lit "Fields option must be an array"])
  end.

(** [(a, b) => a.column > b.column ? b : a] *)
Definition pick (a b : Field.t) : Field.t :=
  if Field.column a >? Field.column b then b else a.

Definition getNextField (fields : list Field.t) (column : Z) : option Field.t :=
  match filter (fun item => Field.column item >=? column) fields with
  | [] => None
  | a :: usable => Some (fold_left pick usable a)
  end.

(** The [while (analyzing)] loop of [getWidth], for at most [n] rounds. *)
Fixpoint getWidth_loop (n : nat) (fields : list Field.t) (column count : Z)
    : result (Z * Z) :=
  match n with
  | O => Unfinished
  | S n' =>
      match getNextField fields column with
      | Some field =>
          do column <- Number_add (Field.column field) (Field.width field);
          getWidth_loop n' fields column (count + 1)
      | None => Ok (column, count)
      end
  end.

(** Every round but the last moves past one more field when widths are
    positive and the sums exact, so [fields.length + 1] rounds reach the
    exit (lemma [getWidth_loop_walk]). *)
Definition getWidth (fields : list Field.t) : result Z :=
  do r <- getWidth_loop (S (List.length fields)) fields 1 0;
  let '(column, count) := r in
  throw_if count <=? 0
  then Error [Lit "At least one field is required"];
  throw_if count <? Z.of_nat (List.length fields)
  then Error [Lit "Some fields are overlapping"];
  Ok (column - 1).

(** [fields.reduce((acc, field) => acc + (typeof field.property === 'number' ? 0 : 1), 0)] *)
Definition count_properties (fields : list Field.t) : Z :=
  fold_left
    (fun acc field =>
       acc + match Field.property field with PIndex _ => 0 | PKey _ => 1 end)
    fields 0.

(** The top of [parseOptions]: an array stands for its [fields]. *)
Definition as_options (options : JsValue) : JsValue :=
  match options with
  | JArray _ => JObject [(KStr (str "fields"), options)]
  | _ => options
  end.

Definition global_trim (options : JsValue) : Trim :=
  if is_str (prop options "trim") "auto" then TrimAuto
  else if is_str (prop options "trim") "left" then TrimLeft
  else if is_str (prop options "trim") "right" then TrimRight
  else if negb (is_bool (prop options "trim") false) then TrimTrue
  else TrimFalse.

Definition is_positive_infinity (v : JsValue) : bool :=
  match v with JNumber NPosInf => true | _ => false end.

Definition bound_of (v : JsValue) : LineBound :=
  match v with JNumber (NInt z) => Finite z | _ => Infinity end.

(** [to < from] on an integer or infinite [to] and an integer [from]. *)
Definition bound_ltb (to : LineBound) (from : Z) : bool :=
  match to with
  | Finite z => z <? from
  | Infinity => false
  end.

(** The object [parseOptions] returns. *)
Definition build (options encoding eol from to pad : JsValue)
    (fields : list Field.t) (properties : Z) (trim : Trim) (width : Z)
    : Options.t :=
  {| Options.allowLongerLines :=
       if typeof_is (prop options "relax") t_boolean
       then is_bool (prop options "relax") true
       else negb (is_bool (prop options "allowLongerLines") false);
     Options.allowShorterLines :=
       if typeof_is (prop options "relax") t_boolean
       then is_bool (prop options "relax") true
       else is_bool (prop options "allowShorterLines") true;
     Options.encoding := str_of encoding;
     Options.eof := negb (is_bool (prop options "eof") false);
     Options.eol := str_of eol;
     Options.fields := fields;
     Options.from := int_of from;
     Options.output := if properties >? 0 then OutObject else OutArray;
     Options.pad := str_of pad;
     Options.skipEmptyLines := negb (is_bool (prop options "skipEmptyLines") false);
     Options.to := bound_of to;
     Options.trim := trim;
     Options.width := width |}.

End Layout.

(** [parseOptions] of [src/options.mjs]. *)
Module OptionsMjs.
Import Layout.

Definition parseOptions (options : JsValue) : result Options.t :=
  let options := as_options options in
  let encoding := or_else (prop options "encoding") (JString (str "utf8")) in
  throw_if negb (typeof_is encoding t_string)
  then TypeError [Lit "Encoding must be a string"];
  let pad := or_else (prop options "pad") (JString (str " ")) in
  throw_if negb (typeof_is pad t_string)
  then TypeError [Lit "Padding value (pad) must be a string"];
  throw_if negb (len (str_of pad) =? 1)
  then Error [Lit "Padding value (pad) must be a single char"];
  let eol := or_else (prop options "eol") (JString []) in
  (* [eol instanceof RegExp] is false of every value of the model *)
  throw_if negb (typeof_is eol t_string)
  then TypeError [Lit "End of line (eol) value must be a string"];
  let from := or_else (prop options "from") (num 1) in
  throw_if negb (isInteger from)
  then TypeError [Lit "Starting line (from) must be an integer"];
  let to := or_else (prop options "to") (JNumber NPosInf) in
  throw_if negb (isInteger to) && negb (is_positive_infinity to)
  then TypeError [Lit "Ending line (to) must be an integer or infinity"];
  throw_if bound_ltb (bound_of to) (int_of from)
  then Error [Lit "Ending line (to) must be greater or equal to the starting line (from)"];
  let trim := global_trim options in
  do fields <- parseFields (prop options "fields") (str_of pad) trim;
  do width <- getWidth fields;
  let properties := count_properties fields in
  throw_if (properties >? 0) && (properties <? Z.of_nat (List.length fields))
  then Error [Lit "Target property must be specifier by all fields"];
  Ok (build options encoding eol from to pad fields properties trim width).

End OptionsMjs.

(** The bundled build: [parseOptions], then the parser and the stringifier. *)
Module Bundle.
Import Layout.

Definition parseOptions (options : JsValue) : result Options.t :=
  let options := as_options options in
  let encoding := or_else (prop options "encoding") (JString (str "utf8")) in
  throw_if negb (typeof_is encoding t_string)
  then TypeError [Lit "Encoding must be a string"];
  let pad := or_else (prop options "pad") (JString (str " ")) in
  throw_if negb (typeof_is pad t_string)
  then TypeError [Lit "Padding value (pad) must be a string"];
  throw_if negb (len (str_of pad) =? 1)
  then Error [Lit "Padding value (pad) must be a single char"];
  let eol := or_else (prop options "eol") (JString []) in
  (* [eol instanceof RegExp] is false of every value of the model *)
  throw_if negb (typeof_is eol t_string)
  then TypeError [Lit "End of line (eol) value must be a string"];
  let from := or_else (prop options "from") (num 1) in
  throw_if negb (isInteger from)
  then TypeError [Lit "Starting line (from) must be an integer"];
  let to := or_else (prop options "to") (JNumber NPosInf) in
  throw_if negb (isInteger to) && negb (is_positive_infinity to)
  then TypeError [Lit "Ending line (to) must be an integer or infinity"];
  let trim := global_trim options in
  do fields <- parseFields (prop options "fields") (str_of pad) trim;
  do width <- getWidth fields;
  let properties := count_properties fields in
  throw_if (properties >? 0) && (properties <? Z.of_nat (List.length fields))
  then Error [Lit "Target property must be specifier by all fields"];
  Ok (build options encoding eol from to pad fields properties trim width).

(** *** Parser *)

Definition CR : ascii := ascii_of_nat 13.
Definition LF : ascii := ascii_of_nat 10.
Definition CRLF : jsstr := [CR; LF].

Fixpoint starts_with (sep s : jsstr) : bool :=
  match sep, s with
  | [], _ => true
  | x :: sep', y :: s' => Ascii.eqb x y && starts_with sep' s'
  | _ :: _, [] => false
  end.

(** [/\r\n/.test(text)] *)
Fixpoint has_crlf (text : jsstr) : bool :=
  match text with
  | [] => false
  | _ :: rest => starts_with CRLF text || has_crlf rest
  end.

Definition is_break (c : ascii) : bool := Ascii.eqb c CR || Ascii.eqb c LF.

(** [text.match(/[\r\n]{1,2}/)]: the index of the first line break. *)
Fixpoint match_break (text : jsstr) (index : Z) : option Z :=
  match text with
  | [] => None
  | c :: rest => if is_break c then Some index else match_break rest (index + 1)
  end.

Definition guessEndOfLine (text : jsstr) : option jsstr :=
  if has_crlf text then Some CRLF
  else
    match match_break text 0 with
    | Some index =>
        if char_at_is text index [LF] then Some [LF]
        else if len text >? index + 1 then Some [CR]
        else None
    | None => None
    end.

(** The [while (value[index] === pad)] loops of [trimStart] and [trimEnd]:
    [rest] holds the characters from [index] on, in the direction of
    [step]; the loop leaves at the first one that is not [pad], or at
    [undefined] past the end. *)
Fixpoint scan_pad (rest pad : jsstr) (index step : Z) : Z :=
  match rest with
  | c :: rest' =>
      if str_eqb [c] pad then scan_pad rest' pad (index + step) step else index
  | [] => index
  end.

Definition trimStart (value pad : jsstr) : jsstr :=
  let index := scan_pad value pad 0 1 in
  substring_from value index.

Definition trimEnd (value pad : jsstr) : jsstr :=
  let index := scan_pad (rev value) pad (len value - 1) (-1) in
  substring value 0 (index + 1).

Definition trim (value pad : jsstr) : jsstr :=
  trimEnd (trimStart value pad) pad.

Definition trimString (value pad : jsstr) (mode : Trim) (align : Align) : jsstr :=
  match mode with
  | TrimFalse => value
  | TrimLeft => trimStart value pad
  | TrimRight => trimEnd value pad
  | TrimAuto =>
      match align with
      | AlignRight => trimStart value pad
      | AlignLeft => trimEnd value pad
      end
  | TrimTrue => trim value pad
  end.

(** [obj[key] = value] on an object that has [props] of its own: the
    property is replaced where it stands, or added last. *)
Fixpoint put (props : list (PropertyKey * JsValue)) (key : PropertyKey)
    (value : JsValue) : list (PropertyKey * JsValue) :=
  match props with
  | [] => [(key, value)]
  | (k, v) :: rest =>
      if key_eqb key k then (k, value) :: rest
      else (k, v) :: put rest key value
  end.

(** [obj[key] = value] on the object [parseFields] builds from [{}]: the
    name [__proto__] goes to the setter the object inherits, which stores
    no property. *)
Definition set_prop (props : list (PropertyKey * JsValue)) (key : PropertyKey)
    (value : JsValue) : list (PropertyKey * JsValue) :=
  if key_eqb key (KStr (str "__proto__")) then props else put props key value.

Definition key_of (p : Property) : PropertyKey :=
  match p with
  | PKey k => k
  | PIndex i => KStr (Z_toString (Z.of_nat i))
  end.

(** [obj[i]] for a number [i]. *)
Definition get_index (o : JsValue) (i : nat) : JsValue :=
  match o with
  | JArray items => nth i items JUndefined
  | _ => get o (KStr (Z_toString (Z.of_nat i)))
  end.

(** [obj[field.property]] *)
Definition get_property (o : JsValue) (p : Property) : JsValue :=
  match p with
  | PKey k => get o k
  | PIndex i => get_index o i
  end.

Definition bound_positive (b : LineBound) : bool :=
  match b with Finite z => z >? 0 | Infinity => true end.

Definition bound_negative (b : LineBound) : bool :=
  match b with Finite z => z <? 0 | Infinity => false end.

(** [line > to] and [line > totalLines + 1 + to] *)
Definition above (line : Z) (to : LineBound) (shift : Z) : bool :=
  match to with Finite z => line >? shift + z | Infinity => false end.

(** The four range tests of [write] and [end]. *)
Definition outOfRange (o : Options.t) (line totalLines : Z) : bool :=
  let t1 := (Options.from o >? 0) && (line <? Options.from o) in
  let t2 := (Options.from o <? 0) && (line <? totalLines + 1 + Options.from o) in
  let t3 := bound_positive (Options.to o) && above line (Options.to o) 0 in
  let t4 := bound_negative (Options.to o) && above line (Options.to o) (totalLines + 1) in
  t1 || t2 || t3 || t4.

Definition add_head (c : ascii) (parts : list jsstr) : list jsstr :=
  match parts with
  | [] => [[c]]
  | x :: rest => (c :: x) :: rest
  end.

(** [s.split(sep)] for a non-empty string [sep] (the parser splits only
    when [options.eol] is truthy): matches are taken from the left, and
    [skip] counts the characters of the current match still to pass. *)
Fixpoint split_skip (sep : jsstr) (skip : nat) (s : jsstr) : list jsstr :=
  match s with
  | [] => [[]]
  | c :: s' =>
      match skip with
      | S k => split_skip sep k s'
      | O =>
          if starts_with sep s
          then [] :: split_skip sep (Nat.pred (List.length sep)) s'
          else add_head c (split_skip sep 0 s')
      end
  end.

Definition split (s sep : jsstr) : list jsstr := split_skip sep 0 s.

Module Parser.
Record t : Type := make {
  options : Options.t;
  line : Z;
  text : jsstr;
  totalLines : Z
}.
End Parser.

(** What a generator did: the values it yielded, and how it stopped. *)
Definition gen (A : Type) : Type := (list JsValue * result A)%type.

Definition then_gen {A B : Type} (g : gen A) (k : A -> gen B) : gen B :=
  match snd g with
  | Ok a => (fst g ++ fst (k a), snd (k a))
  | Throw e => (fst g, Throw e)
  | Unfinished => (fst g, Unfinished)
  end.

(** The double nearest to the integer [y > 0], ties going to the even
    significand: a double keeps 53 bits. *)
Definition round_double (y : Z) : Z :=
  let e := Z.log2 y in
  if e <? 53 then y
  else
    let unit := 2 ^ (e - 52) in
    let q := y / unit in
    let r := y mod unit in
    let half := unit / 2 in
    (if (half <? r) || ((r =? half) && Z.odd q) then q + 1 else q) * unit.

(** Number::toString picks [n], [k] and [s] with [k >= 1],
    [10^(k-1) <= s < 10^k], [s * 10^(n-k)] reading as the double [x], [k]
    as small as possible and, among several [s], the one for which
    [s * 10^(n-k)] is closest to [x].  [digits_of_length] is the choice of
    [s] for one [k], [x] having [d] digits: one of the two [k]-digit
    neighbours of [x]. *)
Definition digits_of_length (x d k : Z) : option (Z * Z * Z) :=
  let p := 10 ^ (d - k) in
  let lo := x / p in
  let hi := lo + 1 in
  let ok_lo := round_double (lo * p) =? x in
  let ok_hi := round_double (hi * p) =? x in
  let closer_hi :=
    (hi * p - x <? x - lo * p) || ((hi * p - x =? x - lo * p) && Z.even hi) in
  if ok_hi && (negb ok_lo || closer_hi)
  then Some (if hi =? 10 ^ k then (1, 1, d + 1) else (hi, k, d))
  else if ok_lo then Some (lo, k, d)
  else None.

(** The lengths from [k] on, shortest first; 17 digits tell any double
    from its neighbours. *)
Fixpoint shortest_digits (rounds : nat) (x d k : Z) : option (Z * Z * Z) :=
  match rounds with
  | O => None
  | S rounds' =>
      if d <? k then None
      else
        match digits_of_length x d k with
        | Some r => Some r
        | None => shortest_digits rounds' x d (k + 1)
        end
  end.

(** [x.toString(10)] for an integral [x > 0].  Up to 2^53 every integer is
    a double and prints as it is; beyond, the shortest digits that read
    back as [x] are printed, followed by zeros below 1e21 and by an
    exponent from there on. *)
Definition Number_digits (x : Z) : jsstr :=
  if x <=? 2 ^ 53 then Z_toString x
  else
    match shortest_digits 17 x (len (Z_toString x)) 1 with
    | Some (s, k, n) =>
        if n <=? 21 then Z_toString s ++ repeat "0"%char (Z.to_nat (n - k))
        else
          match Z_toString s with
          | [] => []
          | [c] => c :: str "e+" ++ Z_toString (n - 1)
          | c :: rest => c :: "."%char :: rest ++ str "e+" ++ Z_toString (n - 1)
          end
    | None => Z_toString x
    end.

(** [n.toString(10)]; a non-integral value carries its text. *)
Definition Number_toString (n : Number) : jsstr :=
  match n with
  | NInt z => if z <? 0 then "-"%char :: Number_digits (- z) else Number_digits z
  | NFrac text => text
  | NNaN => str "NaN"
  | NPosInf => str "Infinity"
  | NNegInf => str "-Infinity"
  end.

Section Codec.

(** [call f args]: what the function known as [f] does on [args]. *)
Variable call : nat -> list JsValue -> result JsValue.

(** [buffer.toString(encoding)], which throws on an encoding it does not
    know. *)
Variable Buffer_toString : list Z -> jsstr -> result jsstr.

Definition parseField (text : jsstr) (field : Field.t) (options : Options.t)
    (line : Z) : result JsValue :=
  let index := Field.column field - 1 in
  let value :=
    trimString (substring text index (index + Field.width field))
      (Field.pad field) (Field.trim field) (Field.align field) in
  match Field.cast field with
  | None => Ok (JString value)
  | Some f =>
      call f [JString value;
              JObject [(KStr (str "column"), num (Field.column field));
                       (KStr (str "line"), num line);
                       (KStr (str "width"), num (Field.width field))]]
  end.

(** [fields.reduce((acc, field) => set(acc, field.property, parseField(..)), {})] *)
Fixpoint parse_object (text : jsstr) (fields : list Field.t) (options : Options.t)
    (line : Z) (acc : list (PropertyKey * JsValue))
    : result (list (PropertyKey * JsValue)) :=
  match fields with
  | [] => Ok acc
  | field :: rest =>
      do value <- parseField text field options line;
      parse_object text rest options line
        (set_prop acc (key_of (Field.property field)) value)
  end.

(** [fields.map(field => parseField(..))] *)
Fixpoint parse_array (text : jsstr) (fields : list Field.t) (options : Options.t)
    (line : Z) : result (list JsValue) :=
  match fields with
  | [] => Ok []
  | field :: rest =>
      do value <- parseField text field options line;
      do values <- parse_array text rest options line;
      Ok (value :: values)
  end.

Definition line_error (kind : string) (line : Z) (text : jsstr) : JsError :=
  FixedWidthError "UNEXPECTED_LINE_LENGTH"
    [Lit "Line "; Val (num line); Lit kind]
    [("line", num line); ("value", JString text)].

Definition parseFields (text : jsstr) (options : Options.t) (line : Z)
    : result JsValue :=
  throw_if (len text >? Options.width options) && negb (Options.allowLongerLines options)
  then line_error " is longer than expected (see allowLongerLines options)" line text;
  throw_if (len text <? Options.width options) && negb (Options.allowShorterLines options)
  then line_error " is shorted than expected (see allowShorterLines options)" line text;
  match Options.output options with
  | OutObject =>
      do props <- parse_object text (Options.fields options) options line [];
      Ok (JObject props)
  | OutArray =>
      do values <- parse_array text (Options.fields options) options line;
      Ok (JArray values)
  end.

(** One round of the [for (const chunk of chunks)] loop of [write], at
    line counter [line]: what it yields, and the counter after it. *)
Definition write_chunk (o : Options.t) (totalLines : Z) (chunk : jsstr) (line : Z)
    : gen Z :=
  if outOfRange o line totalLines then ([], Ok (line + 1))
  else if (len chunk >? 0) || negb (Options.skipEmptyLines o) then
    match parseFields chunk o line with
    | Ok record => ([record], Ok (line + 1))
    | Throw e => ([], Throw e)
    | Unfinished => ([], Unfinished)
    end
  else ([], Ok line).

Fixpoint write_chunks (o : Options.t) (totalLines : Z) (chunks : list jsstr)
    (line : Z) : gen Z :=
  match chunks with
  | [] => ([], Ok line)
  | chunk :: rest =>
      then_gen (write_chunk o totalLines chunk line)
               (write_chunks o totalLines rest)
  end.

(** [Parser.write], for a string [input]. *)
Definition write (p : Parser.t) (input : jsstr) : gen Parser.t :=
  let text := Parser.text p ++ input in
  let options :=
    match Options.eol (Parser.options p) with
    | [] =>
        match guessEndOfLine text with
        | Some eol => Options.with_eol (Parser.options p) eol
        | None => Parser.options p
        end
    | _ :: _ => Parser.options p
    end in
  match Options.eol options with
  | [] => ([], Ok (Parser.make options (Parser.line p) text (Parser.totalLines p)))
  | _ :: _ =>
      let parts := split text (Options.eol options) in
      let chunks := removelast parts in
      let text := last parts [] in
      let totalLines :=
        Z.of_nat (List.length chunks) + (if len text >? 0 then 1 else 0) in
      then_gen (write_chunks options totalLines chunks (Parser.line p))
               (fun line => ([], Ok (Parser.make options line text totalLines)))
  end.

(** [Parser.end] *)
Definition end_ (p : Parser.t) : gen Parser.t :=
  let o := Parser.options p in
  let flush : gen unit :=
    if len (Parser.text p) >? 0 then
      if outOfRange o (Parser.line p) (Parser.totalLines p) then ([], Ok tt)
      else
        match parseFields (Parser.text p) o (Parser.line p) with
        | Ok record => ([record], Ok tt)
        | Throw e => ([], Throw e)
        | Unfinished => ([], Unfinished)
        end
    else ([], Ok tt) in
  then_gen flush (fun _ => ([], Ok (Parser.make o 1 [] 0))).

(** The state of a [new Parser(options)], once [parseOptions] returned
    [o].  The constructor also builds a [StringDecoder] for
    [o.encoding], which throws on an encoding Node does not know: the
    statements about [parse] below take a known encoding. *)
Definition new_Parser (o : Options.t) : Parser.t := Parser.make o 1 [] 0.

(** [parseIterable]: every chunk through [write], then [end]. *)
Fixpoint parseIterable (p : Parser.t) (chunks : list jsstr) : gen Parser.t :=
  match chunks with
  | [] => end_ p
  | data :: rest => then_gen (write p data) (fun p' => parseIterable p' rest)
  end.

(** *** Stringifier *)

Definition stringifyPrimitiveValue (value : JsValue) : JsValue :=
  match value with
  | JUndefined | JNull => JString []
  | JBoolean b => if b then JString (str "1") else JString (str "0")
  | JNumber n => JString (Number_toString n)
  | JBigInt z => JString (Z_toString z)
  | _ => value
  end.

(** [value.valueOf()] on an object that is not a buffer: a wrapper gives
    what it wraps; an object with a [valueOf] property of its own runs it
    when it is a function, and the call fails when it is not; any other
    object inherits [Object.prototype.valueOf], which returns the
    object. *)
Definition valueOf (value : JsValue) : result JsValue :=
  match value with
  | JBoxed prim => Ok prim
  | JObject props =>
      match own (KStr (str "valueOf")) props with
      | Some (JFunction f) => call f []
      | Some _ => Throw (TypeError [Lit "value.valueOf is not a function"])
      | None => Ok value
      end
  | _ => Ok value
  end.

Definition stringifyValue (value : JsValue) (encoding : jsstr) : result JsValue :=
  match value with
  | JBuffer bytes =>
      do text <- Buffer_toString bytes encoding;
      Ok (JString text)
  | _ =>
      do value <- (if typeof_is value t_object && negb (is_null value)
                   then valueOf value
                   else Ok value);
      Ok (stringifyPrimitiveValue value)
  end.

Definition field_error (code : string) (message : list MsgPart) (line : Z)
    (field : Field.t) (value : JsValue) : JsError :=
  FixedWidthError code message
    [("line", num line); ("column", num (Field.column field));
     ("width", num (Field.width field)); ("value", value)].

Definition stringifyField (obj : JsValue) (field : Field.t) (options : Options.t)
    (line : Z) : result jsstr :=
  let value := get_property obj (Field.property field) in
  do value <- match Field.stringify field with
              | Some f => call f [value]
              | None => Ok value
              end;
  do value <- stringifyValue value (Options.encoding options);
  throw_if negb (typeof_is value t_string)
  then field_error "EXPECTED_STRING_VALUE"
         [Lit "Cannot cast to string value on position "; Val (num line);
          Lit ":"; Val (num (Field.column field))]
         line field value;
  throw_if len (str_of value) >? Field.width field
  then field_error "FIELD_VALUE_OVERFLOW"
         [Lit "Value on position "; Val (num line); Lit ":";
          Val (num (Field.column field)); Lit " overflow its width"]
         line field value;
  match Field.align field with
  | AlignRight => Ok (padStart (str_of value) (Field.width field) (Field.pad field))
  | AlignLeft => Ok (padEnd (str_of value) (Field.width field) (Field.pad field))
  end.

Definition replaceWith (text value : jsstr) (index : Z) : jsstr :=
  let before := substring text 0 index in
  let after := substring_from text (index + len value) in
  before ++ value ++ after.

(** The [for (const field of options.fields)] loop of [stringifyFields]. *)
Fixpoint stringify_loop (obj : JsValue) (fields : list Field.t) (options : Options.t)
    (line : Z) (text : jsstr) : result jsstr :=
  match fields with
  | [] => Ok text
  | field :: rest =>
      do value <- stringifyField obj field options line;
      stringify_loop obj rest options line
        (replaceWith text value (Field.column field - 1))
  end.

(** [stringifyFields]; [Object(obj)] changes no property read. *)
Definition stringifyFields (obj : JsValue) (options : Options.t) (line : Z)
    : result jsstr :=
  let text := padEnd [] (Options.width options) (Options.pad options) in
  stringify_loop obj (Options.fields options) options line text.

End Codec.

End Bundle.


(** ** Statements of the specification *)

Module Spec.
Import Layout.

(** Sorting by [column], keeping the declaration order of equal columns. *)
Fixpoint insert_by_column (f : Field.t) (l : list Field.t) : list Field.t :=
  match l with
  | [] => [f]
  | g :: l' =>
      if Field.column f <=? Field.column g then f :: l
      else g :: insert_by_column f l'
  end.

Fixpoint sort_by_column (l : list Field.t) : list Field.t :=
  match l with
  | [] => []
  | f :: l' => insert_by_column f (sort_by_column l')
  end.

(** "each field's column must equal the previous field's column+width",
    from [column] on. *)
Fixpoint contiguous_from (column : Z) (l : list Field.t) : bool :=
  match l with
  | [] => true
  | f :: l' =>
      (Field.column f =? column)
      && contiguous_from (Field.column f + Field.width f) l'
  end.

(** The column-sorted fields form a contiguous, non-overlapping cover
    starting at column 1. *)
Definition contiguous_cover (fields : list Field.t) : bool :=
  contiguous_from 1 (sort_by_column fields).

(** No field starts before the previous one ends, from [column] on. *)
Fixpoint separate_from (column : Z) (l : list Field.t) : bool :=
  match l with
  | [] => true
  | f :: l' =>
      (column <=? Field.column f)
      && separate_from (Field.column f + Field.width f) l'
  end.

(** The column-sorted fields do not overlap (gaps are allowed). *)
Definition non_overlapping (fields : list Field.t) : bool :=
  separate_from 1 (sort_by_column fields).

(** The last column-sorted field's [column + width - 1]. *)
Definition last_end (fields : list Field.t) : Z :=
  last (map (fun f => Field.column f + Field.width f - 1) (sort_by_column fields)) 0.

End Spec.

Definition obj (l : list (string * JsValue)) : JsValue :=
  JObject (map (fun '(k, v) => (KStr (str k), v)) l).

(** ** Inputs used below *)

Definition default_field (column width : Z) (index : nat) : Field.t :=
  {| Field.align := AlignLeft; Field.cast := None; Field.column := column;
     Field.pad := str " "; Field.property := PIndex index;
     Field.stringify := None; Field.trim := TrimTrue; Field.width := width |}.

(** [[{ width: 2 }, { width: 2, column: 5 }]] *)
Definition gap_items : JsValue :=
  JArray [obj [("width", num 2)]; obj [("width", num 2); ("column", num 5)]].

Definition gap_fields : list Field.t :=
  [default_field 1 2 0; default_field 5 2 1].

(** [[{ column: 1, width: 1 }, { column: 1, width: 1 }]] *)
Definition overlap_items : JsValue :=
  JArray [obj [("column", num 1); ("width", num 1)];
          obj [("column", num 1); ("width", num 1)]].

Definition overlap_fields : list Field.t :=
  [default_field 1 1 0; default_field 1 1 1].

(** [{ from: 10, to: 2, fields: [{ width: 1 }] }] *)
Definition reversed_range : JsValue :=
  obj [("from", num 10); ("to", num 2); ("fields", JArray [obj [("width", num 1)]])].

(** [to < from], on the values [parseOptions] gives [to] and [from]. *)
Definition range_reversed (options : JsValue) : bool :=
  Layout.bound_ltb
    (Layout.bound_of (or_else (prop (Layout.as_options options) "to") (JNumber NPosInf)))
    (int_of (or_else (prop (Layout.as_options options) "from") (num 1))).

Definition range_error : JsError :=
  Error [Lit "Ending line (to) must be greater or equal to the starting line (from)"].

(** [[{ width: 2 }, { width: 2 }]], alone and with [allowShorterLines]. *)
Definition two_by_two : JsValue :=
  JArray [obj [("width", num 2)]; obj [("width", num 2)]].

Definition two_by_two_short : JsValue :=
  obj [("allowShorterLines", JBoolean true); ("fields", two_by_two)].

(** The options name none of [relax], [allowLongerLines],
    [allowShorterLines]. *)
Definition no_length_flag (options : JsValue) : Prop :=
  prop (Layout.as_options options) "relax" = JUndefined
  /\ prop (Layout.as_options options) "allowLongerLines" = JUndefined
  /\ prop (Layout.as_options options) "allowShorterLines" = JUndefined.

(** Hooks and buffers for the examples: no function is ever called in
    them, and a buffer reads as latin1. *)
Definition no_call (f : nat) (args : list JsValue) : result JsValue := Ok JUndefined.

Definition latin1 (bytes : list Z) (encoding : jsstr) : result jsstr :=
  Ok (map (fun b => ascii_of_nat (Z.to_nat b)) bytes).

(** Options around a list of normalised fields, everything else at its
    default. *)
Definition layout_of (fields : list Field.t) (width : Z) : Options.t :=
  {| Options.allowLongerLines := true; Options.allowShorterLines := false;
     Options.encoding := str "utf8"; Options.eof := true; Options.eol := [];
     Options.fields := fields; Options.from := 1; Options.to := Infinity;
     Options.output := OutArray; Options.pad := str " ";
     Options.skipEmptyLines := true; Options.trim := TrimTrue;
     Options.width := width |}.

(** The value [stringifyField] coerces: [obj[field.property]], through the
    field's [stringify] function when it has one. *)
Definition field_value (call : nat -> list JsValue -> result JsValue)
    (obj : JsValue) (field : Field.t) : result JsValue :=
  match Field.stringify field with
  | Some f => call f [Bundle.get_property obj (Field.property field)]
  | None => Ok (Bundle.get_property obj (Field.property field))
  end.

(** The integer a base-10 numeral denotes: digits without a leading zero
    ("0" itself apart), after a minus sign for a negative integer. *)
Definition digit (c : ascii) : option Z :=
  let n := Z.of_nat (nat_of_ascii c) in
  if (48 <=? n) && (n <=? 57) then Some (n - 48) else None.

Fixpoint natural (acc : Z) (s : jsstr) : option Z :=
  match s with
  | [] => Some acc
  | c :: s' =>
      match digit c with
      | Some d => natural (10 * acc + d) s'
      | None => None
      end
  end.

Definition numeral (s : jsstr) : option Z :=
  match s with
  | [] => None
  | c :: rest =>
      if Ascii.eqb c "-" then
        match rest with
        | [] => None
        | d :: _ => if Ascii.eqb d "0" then None else option_map Z.opp (natural 0 rest)
        end
      else if Ascii.eqb c "0" then
        match rest with
        | [] => Some 0
        | _ :: _ => None
        end
      else natural 0 s
  end.

(** What the trim modes promise of a slice [value] and its trimmed [out],
    for the pad character [p]. *)
Definition strips_leading (p : ascii) (value out : jsstr) : Prop :=
  exists n, value = repeat p n ++ out /\ hd_error out <> Some p.

Definition strips_trailing (p : ascii) (value out : jsstr) : Prop :=
  exists n, value = out ++ repeat p n /\ hd_error (rev out) <> Some p.

Definition strips_both (p : ascii) (value out : jsstr) : Prop :=
  exists mid, strips_leading p value mid /\ strips_trailing p mid out.

(** Detection "with priority \r\n, then \n, then a \r that is followed by
    more content". *)
Fixpoint cr_then_more (text : jsstr) : bool :=
  match text with
  | [] => false
  | c :: rest =>
      (Ascii.eqb c Bundle.CR && negb (len rest =? 0)) || cr_then_more rest
  end.

Definition guess_by_priority (text : jsstr) : option jsstr :=
  if Bundle.has_crlf text then Some Bundle.CRLF
  else if existsb (Ascii.eqb Bundle.LF) text then Some [Bundle.LF]
  else if cr_then_more text then Some [Bundle.CR]
  else None.

Definition no_break (s : jsstr) : Prop := Forall (fun c => Bundle.is_break c = false) s.

Definition no_crlf (s : jsstr) : Prop := forall a b, s <> a ++ Bundle.CRLF ++ b.

(** [{ to: 2, fields: [{ width: 2 }, { width: 2 }] }] *)
Definition two_lines_only : JsValue := obj [("to", num 2); ("fields", two_by_two)].

(** "a" "\r" "b" "\n" "c" *)
Definition mixed_breaks : jsstr :=
  str "a" ++ [Bundle.CR] ++ str "b" ++ [Bundle.LF] ++ str "c".



(** [[{ width: 1 }]], alone and from the last line on with "\n" lines. *)
Definition one_char : JsValue := JArray [obj [("width", num 1)]].

Definition from_last : JsValue :=
  obj [("from", num (-1)); ("eol", JString [Bundle.LF]); ("fields", one_char)].

(** Two fields of width 2 and "\r\n" lines. *)
Definition crlf_layout : Options.t :=
  Options.with_eol (layout_of [default_field 1 2 0; default_field 3 2 1] 4) Bundle.CRLF.

(** The inputs of the tests of [src/options.mjs]: 'defaults', and those
    'validation' expects to throw. *)
Definition test_defaults : JsValue :=
  obj [("eol", JString [Bundle.LF]); ("fields", two_by_two)].

Definition test_validation : list JsValue :=
  [JNull;
   obj [];
   obj [("encoding", obj [])];
   obj [("pad", obj [])];
   obj [("pad", JString (str "  "))];
   obj [("eol", obj [])];
   JArray [];
   obj [("from", num 10); ("to", num 2)];
   JArray [obj [("property", JString (str "a")); ("width", num 1)]; obj [("width", num 1)]];
   obj [("fields", JNull)];
   obj [("fields", JArray [JNull])];
   JArray [obj [("width", num 0)]];
   JArray [obj [("width", num 1); ("column", num (-1))]];
   overlap_items;
   JArray [obj [("pad", JArray []); ("width", num 1)]];
   JArray [obj [("pad", JString (str "00")); ("width", num 1)]];
   JArray [obj [("trim", JString (str "unknown")); ("width", num 1)]]].

Definition throws {A : Type} (r : result A) : bool :=
  match r with Throw _ => true | _ => false end.

(** ** Definitions used in the proofs *)

(** What [parseField] ensures of a field. *)
Definition normal (f : Field.t) : Prop :=
  0 < Field.width f /\ 0 < Field.column f.

(** The field ends within the integers that doubles hold and add exactly. *)
Definition safe (f : Field.t) : Prop := Field.column f + Field.width f <= 2 ^ 53.

(** The field is at or after [column]. *)
Definition reaches (column : Z) (f : Field.t) : bool := column <=? Field.column f.

(** The walk of [getWidth] along the column-sorted fields. *)
Fixpoint walk (l : list Field.t) (column count : Z) : Z * Z :=
  match l with
  | [] => (column, count)
  | f :: l' =>
      if reaches column f
      then walk l' (Field.column f + Field.width f) (count + 1)
      else walk l' column count
  end.

(** Where the walk ends when no field is passed over. *)
Fixpoint cover_end (column : Z) (l : list Field.t) : Z :=
  match l with
  | [] => column
  | f :: l' => cover_end (Field.column f + Field.width f) l'
  end.

(** The number of leading [p] of a string. *)
Fixpoint count_pad (p : ascii) (s : jsstr) : nat :=
  match s with
  | c :: s' => if Ascii.eqb c p then S (count_pad p s') else O
  | [] => O
  end.


(** Two fields occupy separate column ranges. *)
Definition disjoint (f g : Field.t) : Prop :=
  Field.column f + Field.width f <= Field.column g
  \/ Field.column g + Field.width g <= Field.column f.

Fixpoint all_disjoint (l : list Field.t) : Prop :=
  match l with
  | [] => True
  | f :: l' => Forall (disjoint f) l' /\ all_disjoint l'
  end.

(** The field lies within a line of [width] columns. *)
Definition in_line (width : Z) (f : Field.t) : Prop :=
  1 <= Field.column f /\ Field.column f + Field.width f - 1 <= width.

(** The fields carry their positions, from [i] on, as properties. *)
Fixpoint indexed (i : nat) (l : list Field.t) : Prop :=
  match l with
  | [] => True
  | f :: l' => Field.property f = PIndex i /\ indexed (S i) l'
  end.

(** [n] characters of [s] from position [a]. *)
Definition window (a n : nat) (s : jsstr) : jsstr := firstn n (skipn a s).

(** What [stringifyField] makes of a string that fits. *)
Definition padded (f : Field.t) (v : jsstr) : jsstr :=
  match Field.align f with
  | AlignRight => padStart v (Field.width f) (Field.pad f)
  | AlignLeft => padEnd v (Field.width f) (Field.pad f)
  end.

(** The sides a field's trim mode strips, and whether they include the
    side its alignment pads. *)
Definition trims_leading (f : Field.t) : bool :=
  match Field.trim f, Field.align f with
  | TrimTrue, _ | TrimLeft, _ | TrimAuto, AlignRight => true
  | _, _ => false
  end.

Definition trims_trailing (f : Field.t) : bool :=
  match Field.trim f, Field.align f with
  | TrimTrue, _ | TrimRight, _ | TrimAuto, AlignLeft => true
  | _, _ => false
  end.

Definition pads_are_trimmed (f : Field.t) : bool :=
  match Field.align f with
  | AlignLeft => trims_trailing f
  | AlignRight => trims_leading f
  end.

Definition pad_char (f : Field.t) : ascii := hd " "%char (Field.pad f).

(** A record entry that survives a round trip through its field: it fits
    the width, it has no pad character on a side that trimming strips, and
    when it is shorter than the width the padding it receives is on a side
    that trimming strips (as it is under the default mode, [true]). *)
Definition fits (f : Field.t) (v : jsstr) : Prop :=
  len v <= Field.width f
  /\ (trims_leading f = true -> hd_error v <> Some (pad_char f))
  /\ (trims_trailing f = true -> hd_error (rev v) <> Some (pad_char f))
  /\ (len v < Field.width f -> pads_are_trimmed f = true).

(** The fields run no function of the caller's. *)
Definition no_hooks (f : Field.t) : Prop :=
  Field.cast f = None /\ Field.stringify f = None.

(** The splices of [stringifyFields], for values that encode. *)
Fixpoint splice (l : list (Field.t * jsstr)) (text : jsstr) : jsstr :=
  match l with
  | [] => text
  | (f, v) :: l' =>
      splice l' (Bundle.replaceWith text (padded f v) (Field.column f - 1))
  end.

(** An entry of the layout with its value: in the line, and encoded to
    the field's width. *)
Definition placed (width : Z) (f : Field.t) (v : jsstr) : Prop :=
  normal f /\ in_line width f /\ len (padded f v) = Field.width f.

(** What [parseField] makes of [field.property], from position [i] on. *)
Fixpoint keyed_or_indexed (i : nat) (l : list Field.t) : Prop :=
  match l with
  | [] => True
  | f :: l' =>
      (Field.property f = PIndex i \/ exists k, Field.property f = PKey k)
      /\ keyed_or_indexed (S i) l'
  end.

(** Two fields side by side, the second right-aligned and padded with
    zeros, and a record for them. *)
Definition name_and_amount : JsValue :=
  JArray [obj [("width", num 4)];
          obj [("width", num 3); ("align", JString (str "right"));
               ("pad", JString (str "0"))]].

Definition name_and_amount_layout : Options.t :=
  layout_of
    [default_field 1 4 0;
     {| Field.align := AlignRight; Field.cast := None; Field.column := 5;
        Field.pad := str "0"; Field.property := PIndex 1;
        Field.stringify := None; Field.trim := TrimTrue; Field.width := 3 |}]
    7.


(** ** The stringifier and the whole-input entry points of the bundle *)

Module Stringifier.

Record t : Type := make {
  options : Options.t;
  line : Z
}.

Section Codec.

Variable call : nat -> list JsValue -> result JsValue.
Variable Buffer_toString : list Z -> jsstr -> result jsstr.

(** [os.EOL] *)
Variable EOL : jsstr.

(** [new Stringifier(options)], once [parseOptions] returned [o]. *)
Definition new (o : Options.t) : t :=
  match Options.eol o with
  | [] => make (Options.with_eol o EOL) 1
  | _ :: _ => make o 1
  end.

(** [Stringifier.end]: the tail it returns, and the stringifier after. *)
Definition end_ (s : t) : jsstr * t := ([], make (options s) 1).

(** [Stringifier.write]: what it returns or throws, and the stringifier
    after ([this.line++] is evaluated before [stringifyFields] runs). *)
Definition write (s : t) (obj : JsValue) : result jsstr * t :=
  let text :=
    if negb (Options.eof (options s)) && (line s >? 1)
    then Options.eol (options s) else [] in
  (do fields <- Bundle.stringifyFields call Buffer_toString obj (options s) (line s);
   let text := text ++ fields in
   if Options.eof (options s) then Ok (text ++ Options.eol (options s)) else Ok text,
   make (options s) (line s + 1)).

(** [stringifyIterable] on the items of an array: the strings it
    yields, and how it stops ([end] returns the empty string, which is
    not yielded). *)
Fixpoint stringifyIterable (iterable : list JsValue) (stringifier : t)
    : list jsstr * result t :=
  match iterable with
  | [] => ([], Ok (snd (end_ stringifier)))
  | data :: rest =>
      match write stringifier data with
      | (Ok text, s') =>
          (text :: fst (stringifyIterable rest s'), snd (stringifyIterable rest s'))
      | (Throw e, _) => ([], Throw e)
      | (Unfinished, _) => ([], Unfinished)
      end
  end.

(** [stringify(input, options)] for an array [input]:
    [Array.from(stringifyIterable(input, stringifier)).join('')]. *)
Definition stringify (input : list JsValue) (options : JsValue) : result jsstr :=
  do o <- Bundle.parseOptions options;
  match snd (stringifyIterable input (new o)) with
  | Ok _ => Ok (List.concat (fst (stringifyIterable input (new o))))
  | Throw e => Throw e
  | Unfinished => Unfinished
  end.

End Codec.

End Stringifier.

Module Entry.

Section Codec.

Variable call : nat -> list JsValue -> result JsValue.

(** [Array.from(generator)] *)
Definition Array_from {A : Type} (g : Bundle.gen A) : result (list JsValue * A) :=
  match snd g with
  | Ok a => Ok (fst g, a)
  | Throw e => Throw e
  | Unfinished => Unfinished
  end.

(** [parse(input, options)] for a string [input]:
    [Array.from(parser.write(input)).concat(Array.from(parser.end()))]. *)
Definition parse (input : jsstr) (options : JsValue) : result (list JsValue) :=
  do o <- Bundle.parseOptions options;
  do written <- Array_from (Bundle.write call (Bundle.new_Parser o) input);
  do ended <- Array_from (Bundle.end_ call (snd written));
  Ok (fst written ++ fst ended).

End Codec.

End Entry.

(** ** Definitions used in the further properties *)

(** The sum of the widths of the fields. *)
Definition widths_sum (l : list Field.t) : Z :=
  fold_right Z.add 0 (map Field.width l).

(** The last column of a field. *)
Definition last_column (f : Field.t) : Z := Field.column f + Field.width f - 1.

(** The field declares a key of its own. *)
Definition keyed (f : Field.t) : Prop := exists k, Field.property f = PKey k.

(** [[{ width: 3 }, { width: 2 }, { width: 4 }]] *)
Definition three_fields : JsValue :=
  JArray [obj [("width", num 3)]; obj [("width", num 2)]; obj [("width", num 4)]].

(** Each field starts where the previous one ends, from [column] on. *)
Fixpoint packed (column : Z) (l : list Field.t) : Prop :=
  match l with
  | [] => True
  | f :: l' => Field.column f = column /\ packed (column + Field.width f) l'
  end.

(** [{ from: 0, to: 0, fields: [{ width: 1 }] }] *)
Definition zero_range : JsValue :=
  obj [("from", num 0); ("to", num 0); ("fields", one_char)].

(** Two fields that both decode into the key "id", and a third into "name". *)
Definition key_field (column width : Z) (key : string) : Field.t :=
  {| Field.align := AlignLeft; Field.cast := None; Field.column := column;
     Field.pad := str " "; Field.property := PKey (KStr (str key));
     Field.stringify := None; Field.trim := TrimTrue; Field.width := width |}.

Definition duplicate_keys : Options.t :=
  {| Options.allowLongerLines := true; Options.allowShorterLines := false;
     Options.encoding := str "utf8"; Options.eof := true; Options.eol := [];
     Options.fields := [key_field 1 2 "id"; key_field 3 2 "name"; key_field 5 2 "id"];
     Options.from := 1; Options.to := Infinity;
     Options.output := OutObject; Options.pad := str " ";
     Options.skipEmptyLines := true; Options.trim := TrimTrue;
     Options.width := 6 |}.

(** What every field of an accepted layout of [width] columns satisfies. *)
Definition slot_in (width : Z) (f : Field.t) : Prop :=
  0 < Field.width f /\ 0 < Field.column f /\ len (Field.pad f) = 1
  /\ last_column f <= width.

(** The characters [a] to [a + n] lie outside the slot of [f]. *)
Definition outside (a n : nat) (f : Field.t) : Prop :=
  (a + n <= Z.to_nat (Field.column f - 1))%nat
  \/ (Z.to_nat (Field.column f - 1) + Z.to_nat (Field.width f) <= a)%nat.

(** The records that may still be yielded at line counter [line], for a
    range that ends at line [to]. *)
Definition room (to from line : Z) : Z := Z.max 0 (to + 1 - Z.max line from).

(** [{ to: 2, eol: "\n", fields: [{ width: 1 }] }] *)
Definition first_two : Options.t :=
  {| Options.allowLongerLines := true; Options.allowShorterLines := false;
     Options.encoding := str "utf8"; Options.eof := true; Options.eol := [Bundle.LF];
     Options.fields := [default_field 1 1 0]; Options.from := 1; Options.to := Finite 2;
     Options.output := OutArray; Options.pad := str " ";
     Options.skipEmptyLines := true; Options.trim := TrimTrue;
     Options.width := 1 |}.


(** The lines of a document: every record through [stringifyFields], at
    the line numbers from [line] on. *)
Fixpoint encode_lines (call : nat -> list JsValue -> result JsValue)
    (buf : list Z -> jsstr -> result jsstr) (o : Options.t) (records : list JsValue)
    (line : Z) : result (list jsstr) :=
  match records with
  | [] => Ok []
  | record :: rest =>
      do text <- Bundle.stringifyFields call buf record o line;
      do texts <- encode_lines call buf o rest (line + 1);
      Ok (text :: texts)
  end.

(** The records of a document: every line through [parseFields], at the
    line numbers from [line] on. *)
Fixpoint decode_lines (call : nat -> list JsValue -> result JsValue)
    (o : Options.t) (lines : list jsstr) (line : Z) : result (list JsValue) :=
  match lines with
  | [] => Ok []
  | text :: rest =>
      do record <- Bundle.parseFields call text o line;
      do records <- decode_lines call o rest (line + 1);
      Ok (record :: records)
  end.

(** Every line followed by [eol]. *)
Definition terminated (eol : jsstr) (lines : list jsstr) : jsstr :=
  List.concat (map (fun l => l ++ eol) lines).

(** Every line but the first preceded by [eol]. *)
Definition separated (eol : jsstr) (lines : list jsstr) : jsstr :=
  match lines with
  | [] => []
  | l :: rest => l ++ List.concat (map (fun l => eol ++ l) rest)
  end.

Definition document (o : Options.t) (lines : list jsstr) : jsstr :=
  if Options.eof o then terminated (Options.eol o) lines
  else separated (Options.eol o) lines.

(** [{ eol: '\n', eof: false, fields: [{ width: 2 }, { width: 2 }] }] *)
Definition no_eof : JsValue :=
  obj [("eol", JString [Bundle.LF]); ("eof", JBoolean false); ("fields", two_by_two)].

Definition ab_cd : list JsValue :=
  [JArray [JString (str "AB"); JString (str "01")];
   JArray [JString (str "CD"); JString (str "02")]].

(** [{ from: n, eol: '\n', fields: [{ width: 1 }] }] *)
Definition from_line (n : Z) : JsValue :=
  obj [("from", num n); ("eol", JString [Bundle.LF]); ("fields", one_char)].

(** "a", an empty line, "b": three lines ending in "\n". *)
Definition a_empty_b : jsstr :=
  str "a" ++ [Bundle.LF] ++ [Bundle.LF] ++ str "b" ++ [Bundle.LF].

(** [{ from: 2, to: 5, fields: [{ width: 1 }] }] *)
Definition two_to_five : JsValue :=
  obj [("from", num 2); ("to", num 5); ("fields", one_char)].

(** The line ending a parse settles on when none is configured: what
    [guessEndOfLine] gives on the first buffer in which it finds one, the
    chunks being added to [buffer] one by one. *)
Fixpoint first_detected (buffer : jsstr) (chunks : list jsstr) : jsstr :=
  match chunks with
  | [] => []
  | chunk :: rest =>
      match Bundle.guessEndOfLine (buffer ++ chunk) with
      | Some eol => eol
      | None => first_detected (buffer ++ chunk) rest
      end
  end.

(** The line ending a parse that starts from options [o] and a retained
    [buffer] ends with. *)
Definition settled_eol (o : Options.t) (buffer : jsstr) (chunks : list jsstr) : jsstr :=
  match Options.eol o with
  | [] => first_detected buffer chunks
  | _ :: _ => Options.eol o
  end.

(** Names under which every version of Node knows an encoding (it also
    takes them in upper case). *)
Definition known_encoding (encoding : jsstr) : bool :=
  existsb (fun name => str_eqb encoding (str name))
    ["utf8"; "utf-8"; "ucs2"; "ucs-2"; "utf16le"; "utf-16le"; "latin1"; "binary";
     "base64"; "ascii"; "hex"].

(** [[{ width: 4, trim: false }]] and [[{ width: 2, cast: f }]], with a
    function [f] that returns 0 whatever it is given. *)
Definition untrimmed : JsValue :=
  JArray [obj [("width", num 4); ("trim", JBoolean false)]].

Definition with_cast : JsValue :=
  JArray [obj [("width", num 2); ("cast", JFunction 0)]].

Definition call_zero (f : nat) (args : list JsValue) : result JsValue := Ok (num 0).

(** The digits of a number written with an exponent: a decimal point after
    the first digit when others follow. *)
Definition mantissa (digits : jsstr) : jsstr :=
  match digits with
  | c :: (_ :: _) as rest => c :: "."%char :: rest
  | _ => digits
  end.

(** [{ valueOf: f }] and [{ valueOf: 1 }]. *)
Definition with_valueOf : JsValue := obj [("valueOf", JFunction 0)].

Definition with_broken_valueOf : JsValue := obj [("valueOf", num 1)].

(** [s], of [k] digits (17 at most), followed by [n - k] zeros reads as the
    double [x]. *)
Definition denotes (x : Z) (r : Z * Z * Z) : Prop :=
  let '(s, k, n) := r in
  1 <= k <= 17 /\ 10 ^ (k - 1) <= s < 10 ^ k /\ k <= n
  /\ Bundle.round_double (s * 10 ^ (n - k)) = x.

(** * Properties *)

(** ** Layout validation *)

Module LayoutFacts.
Import Layout Spec.

Lemma parseField_normal field index column pad trim f :
  parseField field index column pad trim = Ok f -> normal f.
Proof.
  unfold parseField, isPositiveInteger.
  repeat match goal with
         | |- (if ?c then _ else _) = _ -> _ => destruct c eqn:?; [discriminate|]
         end.
  destruct (parseTrimOption _ _); simpl; try discriminate.
  intros H; injection H as <-. unfold normal; simpl.
  rewrite negb_false_iff, andb_true_iff in *. lia.
Qed.

Lemma Number_add_exact a b :
  Z.abs (a + b) <= 2 ^ 53 -> Number_add a b = Ok (a + b).
Proof.
  intros H. unfold Number_add.
  destruct (Z.leb_spec (Z.abs (a + b)) (2 ^ 53)); [reflexivity | lia].
Qed.

Lemma Number_add_inv a b c :
  Number_add a b = Ok c -> c = a + b /\ Z.abs (a + b) <= 2 ^ 53.
Proof.
  unfold Number_add.
  destruct (Z.leb_spec (Z.abs (a + b)) (2 ^ 53)) as [Hle|]; [|discriminate].
  intros Hc; injection Hc as <-. auto.
Qed.

Lemma parseFields_from_normal items : forall i column pad trim fields,
  parseFields_from items i column pad trim = Ok fields -> Forall normal fields.
Proof.
  induction items as [|item rest IH]; simpl; intros i column pad trim fields H.
  - injection H as <-. constructor.
  - destruct (parseField item i column pad trim) as [f| |] eqn:Hf; simpl in H; try discriminate.
    destruct (Number_add column (Field.width f)) as [next| |]; simpl in H;
      try discriminate.
    destruct (parseFields_from rest _ _ _ _) as [fs| |] eqn:Hfs; simpl in H; try discriminate.
    injection H as <-. constructor; eauto using parseField_normal.
Qed.

Lemma parseFields_normal items pad trim fields :
  parseFields items pad trim = Ok fields -> Forall normal fields.
Proof.
  destruct items; simpl; try discriminate. apply parseFields_from_normal.
Qed.

(** [pick] is a left-biased minimum, hence associative. *)
Lemma pick_assoc a b c : pick (pick a b) c = pick a (pick b c).
Proof.
  unfold pick.
  destruct (Z.gtb_spec (Field.column a) (Field.column b));
    destruct (Z.gtb_spec (Field.column b) (Field.column c));
    destruct (Z.gtb_spec (Field.column a) (Field.column c));
    repeat match goal with
           | |- context [?x >? ?y] => destruct (Z.gtb_spec x y)
           end; try reflexivity; lia.
Qed.

Lemma fold_pick l : forall f a,
  fold_left pick l (pick f a) = pick f (fold_left pick l a).
Proof.
  induction l as [|b l IH]; simpl; intros f a; [reflexivity|].
  now rewrite pick_assoc, IH.
Qed.

Lemma getNextField_cons f l column :
  getNextField (f :: l) column =
  if reaches column f then
    match getNextField l column with
    | Some g => Some (pick f g)
    | None => Some f
    end
  else getNextField l column.
Proof.
  unfold getNextField, reaches; simpl.
  rewrite Z.geb_leb.
  destruct (column <=? Field.column f); [|reflexivity].
  destruct (filter _ l) as [|a usable]; simpl; [reflexivity|].
  now rewrite fold_pick.
Qed.

Lemma find_insert column f : forall l,
  find (reaches column) (insert_by_column f l) =
  if reaches column f then
    match find (reaches column) l with
    | Some g => Some (pick f g)
    | None => Some f
    end
  else find (reaches column) l.
Proof.
  unfold reaches, pick.
  induction l as [|g l IH]; simpl.
  - destruct (column <=? Field.column f); reflexivity.
  - destruct (Z.leb_spec (Field.column f) (Field.column g)); simpl.
    + destruct (Z.leb_spec column (Field.column f)).
      * destruct (Z.leb_spec column (Field.column g)); [|lia].
        destruct (Z.gtb_spec (Field.column f) (Field.column g)); [lia|reflexivity].
      * reflexivity.
    + destruct (Z.leb_spec column (Field.column g)).
      * destruct (Z.leb_spec column (Field.column f)); [|reflexivity].
        destruct (Z.gtb_spec (Field.column f) (Field.column g)); [reflexivity|lia].
      * exact IH.
Qed.

(** [getNextField] returns the first column-sorted field at or after
    [column]. *)
Lemma getNextField_sorted fields column :
  getNextField fields column = find (reaches column) (sort_by_column fields).
Proof.
  induction fields as [|f l IH]; [reflexivity|].
  rewrite getNextField_cons; simpl. now rewrite find_insert, IH.
Qed.

Lemma insert_length f l :
  List.length (insert_by_column f l) = S (List.length l).
Proof.
  induction l as [|g l IH]; simpl; [reflexivity|].
  destruct (_ <=? _); simpl; congruence.
Qed.

Lemma sort_length l : List.length (sort_by_column l) = List.length l.
Proof.
  induction l as [|f l IH]; simpl; [reflexivity|].
  now rewrite insert_length, IH.
Qed.

Lemma insert_In f l x : In x (insert_by_column f l) <-> x = f \/ In x l.
Proof.
  induction l as [|g l IH]; simpl.
  - intuition congruence.
  - destruct (_ <=? _); simpl; rewrite ?IH; intuition congruence.
Qed.

Lemma sort_In l x : In x (sort_by_column l) <-> In x l.
Proof.
  induction l as [|f l IH]; simpl; [tauto|].
  rewrite insert_In, IH. intuition congruence.
Qed.

Lemma sort_normal l : Forall normal l -> Forall normal (sort_by_column l).
Proof.
  rewrite !Forall_forall. intros H x Hx. apply H, sort_In, Hx.
Qed.

Lemma find_passed column pre suf :
  Forall (fun f => Field.column f < column) pre ->
  find (reaches column) (pre ++ suf) = find (reaches column) suf.
Proof.
  induction 1 as [|f pre Hf _ IH]; simpl; [reflexivity|].
  unfold reaches at 1. destruct (Z.leb_spec column (Field.column f)); [lia|exact IH].
Qed.

Lemma getWidth_loop_walk fields : forall suf pre column count n,
  sort_by_column fields = pre ++ suf ->
  Forall (fun f => Field.column f < column) pre ->
  Forall normal suf ->
  Forall safe suf ->
  (List.length suf < n)%nat ->
  getWidth_loop n fields column count = Ok (walk suf column count).
Proof.
  induction suf as [|f suf IH]; intros pre column count n Hs Hpre Hn Hsafe Hlen;
    (destruct n as [|n]; [simpl in Hlen; lia|]).
  - simpl. rewrite getNextField_sorted, Hs, find_passed by assumption. reflexivity.
  - inversion Hn as [|? ? [Hw Hc] Hn']; subst.
    inversion Hsafe as [|? ? Hf Hsafe']; subst. unfold safe in Hf.
    cbn [walk]. unfold reaches at 1.
    destruct (Z.leb_spec column (Field.column f)) as [Hle|Hlt].
    + cbn [getWidth_loop].
      rewrite getNextField_sorted, Hs, find_passed by assumption.
      cbn [find]. unfold reaches at 1.
      destruct (Z.leb_spec column (Field.column f)); [|lia].
      rewrite Number_add_exact by lia. cbn [bind].
      apply (IH (pre ++ [f])).
      * now rewrite <- app_assoc.
      * apply Forall_app; split.
        -- eapply Forall_impl; [|exact Hpre]. simpl; intros; lia.
        -- constructor; [lia|constructor].
      * assumption.
      * assumption.
      * simpl in Hlen; lia.
    + apply (IH (pre ++ [f])).
      * now rewrite <- app_assoc.
      * apply Forall_app; split; [assumption|]. constructor; [lia|constructor].
      * assumption.
      * assumption.
      * simpl in Hlen; lia.
Qed.

(** A walk that returns counted at most the fields before it, and when it
    counted them all every sum it formed was exact. *)
Lemma getWidth_loop_safe fields : forall suf pre column count n column' count',
  sort_by_column fields = pre ++ suf ->
  Forall (fun f => Field.column f < column) pre ->
  Forall normal suf ->
  (List.length suf < n)%nat ->
  getWidth_loop n fields column count = Ok (column', count') ->
  count' <= count + Z.of_nat (List.length suf)
  /\ (count' = count + Z.of_nat (List.length suf) -> Forall safe suf).
Proof.
  induction suf as [|f suf IH];
    intros pre column count n column' count' Hs Hpre Hn Hlen;
    (destruct n as [|n]; [simpl in Hlen; lia|]).
  - simpl. rewrite getNextField_sorted, Hs, find_passed by assumption.
    cbn [find]. intros Hr; injection Hr as <- <-. split; [lia | constructor].
  - inversion Hn as [|? ? [Hw Hc] Hn']; subst.
    destruct (Z.leb_spec column (Field.column f)) as [Hle|Hlt].
    + cbn [getWidth_loop].
      rewrite getNextField_sorted, Hs, find_passed by assumption.
      cbn [find]. unfold reaches at 1.
      destruct (Z.leb_spec column (Field.column f)); [|lia].
      destruct (Number_add (Field.column f) (Field.width f)) as [next| |] eqn:Ha;
        cbn [bind]; try discriminate.
      apply Number_add_inv in Ha. destruct Ha as [-> Ha].
      intros Hr. apply (IH (pre ++ [f])) in Hr; try assumption.
      * cbn [List.length]. destruct Hr as [H1 H2]. split; [lia|].
        intros E. constructor; [unfold safe; lia | apply H2; lia].
      * now rewrite <- app_assoc.
      * apply Forall_app; split.
        -- eapply Forall_impl; [|exact Hpre]. simpl; intros; lia.
        -- constructor; [lia|constructor].
      * simpl in Hlen; lia.
    + intros Hr. apply (IH (pre ++ [f])) in Hr; try assumption.
      * cbn [List.length]. destruct Hr as [H1 _]. split; lia.
      * now rewrite <- app_assoc.
      * apply Forall_app; split; [assumption|]. constructor; [lia|constructor].
      * simpl in Hlen; lia.
Qed.

Lemma walk_count_le l : forall column count,
  count <= snd (walk l column count) <= count + Z.of_nat (List.length l).
Proof.
  induction l as [|f l IH]; intros column count; cbn [walk List.length].
  - simpl. lia.
  - destruct (reaches column f).
    + specialize (IH (Field.column f + Field.width f) (count + 1)). lia.
    + specialize (IH column count). lia.
Qed.

Lemma walk_separate l : forall column count,
  separate_from column l = true ->
  walk l column count = (cover_end column l, count + Z.of_nat (List.length l)).
Proof.
  induction l as [|f l IH]; intros column count; cbn [walk separate_from cover_end List.length].
  - intros _. f_equal. lia.
  - rewrite andb_true_iff. intros [H1 H2]. unfold reaches. rewrite H1, IH by assumption.
    f_equal. lia.
Qed.

Lemma walk_overlap l : forall column count,
  separate_from column l = false ->
  snd (walk l column count) < count + Z.of_nat (List.length l).
Proof.
  induction l as [|f l IH]; intros column count; cbn [walk separate_from List.length].
  - discriminate.
  - unfold reaches. destruct (column <=? Field.column f); simpl.
    + intros H. specialize (IH _ (count + 1) H). lia.
    + intros _. pose proof (walk_count_le l column count). lia.
Qed.

Lemma cover_end_last l : forall column, l <> [] ->
  cover_end column l - 1 =
  last (map (fun f => Field.column f + Field.width f - 1) l) 0.
Proof.
  induction l as [|f l IH]; intros column Hne; [congruence|].
  destruct l as [|g l]; [reflexivity|].
  cbn [cover_end]. cbn [cover_end] in IH. rewrite (IH 0) by discriminate. reflexivity.
Qed.

Lemma sort_safe l : Forall safe l -> Forall safe (sort_by_column l).
Proof.
  rewrite !Forall_forall. intros H x Hx. apply H, sort_In, Hx.
Qed.

Lemma getWidth_walk fields :
  Forall normal fields -> Forall safe fields ->
  getWidth_loop (S (List.length fields)) fields 1 0
  = Ok (walk (sort_by_column fields) 1 0).
Proof.
  intros Hn Hsafe. apply (getWidth_loop_walk fields _ []).
  - reflexivity.
  - constructor.
  - now apply sort_normal.
  - now apply sort_safe.
  - rewrite sort_length. lia.
Qed.

(** [getWidth] returns only when every sum it formed was exact. *)
Lemma getWidth_safe fields width :
  Forall normal fields -> getWidth fields = Ok width -> Forall safe fields.
Proof.
  intros Hn. unfold getWidth.
  destruct (getWidth_loop _ fields 1 0) as [[column count]| |] eqn:Hl; cbn [bind];
    try discriminate.
  destruct (count <=? 0); [discriminate|].
  destruct (Z.ltb_spec count (Z.of_nat (List.length fields))) as [|Hc]; [discriminate|].
  intros _.
  assert (Hlen : (List.length (sort_by_column fields) < S (List.length fields))%nat)
    by (rewrite sort_length; lia).
  destruct (getWidth_loop_safe fields (sort_by_column fields) [] 1 0 _ _ _
              eq_refl (Forall_nil _) (sort_normal _ Hn) Hlen Hl) as [Hle Hall].
  rewrite sort_length in *.
  rewrite Forall_forall. intros x Hx.
  assert (Hs : Forall safe (sort_by_column fields)) by (apply Hall; lia).
  rewrite Forall_forall in Hs. apply Hs, sort_In, Hx.
Qed.

Lemma sort_nonempty f l : sort_by_column (f :: l) <> [].
Proof.
  intros H. apply (f_equal (@List.length _)) in H.
  rewrite sort_length in H. discriminate.
Qed.

Lemma getWidth_normal fields :
  Forall normal fields -> Forall safe fields ->
  getWidth fields =
    match fields with
    | [] => Throw (Error [Lit "At least one field is required"])
    | _ :: _ =>
        if non_overlapping fields then Ok (last_end fields)
        else Throw (Error [Lit "Some fields are overlapping"])
    end.
Proof.
  intros Hn Hsafe. unfold getWidth. rewrite (getWidth_walk fields Hn Hsafe).
  destruct fields as [|f l]; [reflexivity|].
  unfold non_overlapping, last_end.
  pose proof (sort_normal _ Hn) as Hs.
  pose proof (sort_length (f :: l)) as Hl.
  pose proof (sort_nonempty f l) as Hne.
  set (s := sort_by_column (f :: l)) in *.
  destruct (separate_from 1 s) eqn:Hsep.
  - rewrite (walk_separate _ _ _ Hsep). cbn [bind].
    rewrite Hl.
    destruct (Z.leb_spec (0 + Z.of_nat (List.length (f :: l))) 0); [simpl in *; lia|].
    destruct (Z.ltb_spec (0 + Z.of_nat (List.length (f :: l))) (Z.of_nat (List.length (f :: l)))); [lia|].
    now rewrite cover_end_last.
  - pose proof (walk_overlap _ 1 0 Hsep) as Hlt.
    destruct (walk s 1 0) as [column count] eqn:Hw. cbn [bind]. simpl in Hlt.
    assert (0 < count).
    { destruct s as [|g s]; [congruence|].
      inversion Hs as [|? ? [_ Hc] _]; subst.
      cbn [walk] in Hw. unfold reaches in Hw.
      destruct (Z.leb_spec 1 (Field.column g)); [|lia].
      pose proof (walk_count_le s (Field.column g + Field.width g) (0 + 1)).
      rewrite Hw in *. simpl in *. lia. }
    destruct (Z.leb_spec count 0); [lia|].
    rewrite Hl in Hlt.
    destruct (Z.ltb_spec count (Z.of_nat (List.length (f :: l)))); [reflexivity|lia].
Qed.

End LayoutFacts.

(** C3 (as amended).  For every field list that [parseFields] accepts and
    whose fields end within 2^53, where the sums of the code are exact,
    [getWidth] throws "At least one field is required" when the list is
    empty, throws "Some fields are overlapping" when some column-sorted field
    starts before the previous one ends, and otherwise — gaps between fields
    included — returns the last column-sorted field's [column + width - 1]. *)
Theorem getWidth_rejects_overlap_only items pad trim fields :
  Layout.parseFields items pad trim = Ok fields ->
  Forall safe fields ->
  Layout.getWidth fields =
    match fields with
    | [] => Throw (Error [Lit "At least one field is required"])
    | _ :: _ =>
        if Spec.non_overlapping fields then Ok (Spec.last_end fields)
        else Throw (Error [Lit "Some fields are overlapping"])
    end.
Proof.
  intros H Hsafe. apply LayoutFacts.getWidth_normal; [|assumption].
  eapply LayoutFacts.parseFields_normal, H.
Qed.

Lemma getWidth_rejects_overlap_only_witness :
  Layout.parseFields overlap_items (str " ") TrimTrue = Ok overlap_fields
  /\ Layout.getWidth overlap_fields = Throw (Error [Lit "Some fields are overlapping"]).
Proof.
  split.
  - reflexivity.
  - apply (getWidth_rejects_overlap_only overlap_items (str " ") TrimTrue
             overlap_fields eq_refl).
    repeat constructor; vm_compute; discriminate.
Defined.

(** C3, as stated, fails: widths 2 and 2 with the second column set to 5
    is not a contiguous cover, and it is accepted with total width 6. *)
Lemma gap_is_accepted :
  Layout.parseFields gap_items (str " ") TrimTrue = Ok gap_fields
  /\ Spec.contiguous_cover gap_fields = false
  /\ Layout.getWidth gap_fields = Ok 6
  /\ (exists o, Bundle.parseOptions gap_items = Ok o /\ Options.width o = 6)
  /\ (exists o, OptionsMjs.parseOptions gap_items = Ok o /\ Options.width o = 6).
Proof.
  repeat split; try reflexivity; eexists; split; reflexivity.
Qed.

(** ** The two [parseOptions] *)

(** C10 (as amended).  The two [parseOptions] behave identically on every
    input whose ending line [to] is not smaller than its starting line
    [from]; on the other inputs [src/options.mjs] throws — the range error,
    unless an earlier check throws, in which case the bundle throws the same
    error — while the bundle has no such check and goes on to the fields. *)
Theorem parseOptions_agree_up_to_range options :
  (range_reversed options = false ->
   OptionsMjs.parseOptions options = Bundle.parseOptions options)
  /\ (range_reversed options = true ->
      exists e, OptionsMjs.parseOptions options = Throw e
                /\ (e = range_error \/ Bundle.parseOptions options = Throw e)).
Proof.
  unfold range_reversed, OptionsMjs.parseOptions, Bundle.parseOptions, range_error.
  cbv zeta.
  repeat match goal with
         | |- context [if ?c then Throw ?e else _] =>
             lazymatch c with
             | Layout.bound_ltb _ _ => fail
             | _ => destruct c
             end
         end;
    try (split; [reflexivity | intros _; eexists; split; [reflexivity | now right]]).
  split; intros ->; [reflexivity|].
  eexists; split; [reflexivity | now left].
Qed.

Lemma parseOptions_agree_up_to_range_witness :
  OptionsMjs.parseOptions gap_items = Bundle.parseOptions gap_items
  /\ exists e, OptionsMjs.parseOptions reversed_range = Throw e
               /\ (e = range_error \/ Bundle.parseOptions reversed_range = Throw e).
Proof.
  split.
  - exact (proj1 (parseOptions_agree_up_to_range gap_items) eq_refl).
  - exact (proj2 (parseOptions_agree_up_to_range reversed_range) eq_refl).
Defined.

(** C10, as stated, fails: on [{ from: 10, to: 2, fields: [{ width: 1 }] }]
    [src/options.mjs] throws and the bundle returns. *)
Lemma parseOptions_differ_on_reversed_range :
  OptionsMjs.parseOptions reversed_range = Throw range_error
  /\ exists o, Bundle.parseOptions reversed_range = Ok o
               /\ Options.from o = 10 /\ Options.to o = Finite 2.
Proof.
  split; [reflexivity|]. eexists; repeat split; reflexivity.
Qed.

(** ** Decoding a line *)

Module OptionsFacts.
Import Layout.

(** What a successful [parseOptions] returns, for either copy. *)
Lemma bundle_parseOptions_inv options o :
  Bundle.parseOptions options = Ok o ->
  exists encoding eol from to pad properties,
    Layout.parseFields (prop (as_options options) "fields") (str_of pad)
      (global_trim (as_options options)) = Ok (Options.fields o)
    /\ Layout.getWidth (Options.fields o) = Ok (Options.width o)
    /\ len (str_of pad) = 1
    /\ properties = count_properties (Options.fields o)
    /\ (properties >? 0) && (properties <? Z.of_nat (List.length (Options.fields o))) = false
    /\ o = build (as_options options) encoding eol from to pad (Options.fields o)
             properties (global_trim (as_options options)) (Options.width o).
Proof.
  unfold Bundle.parseOptions. cbv zeta.
  repeat match goal with
         | |- (if ?c then Throw _ else _) = _ -> _ => destruct c eqn:?; [discriminate|]
         end.
  destruct (Layout.parseFields _ _ _) as [fields| |] eqn:Hf; cbn [bind]; try discriminate.
  destruct (getWidth fields) as [width| |] eqn:Hw; cbn [bind]; try discriminate.
  match goal with
  | |- (if ?c then _ else _) = _ -> _ => destruct c eqn:Hp; [discriminate|]
  end.
  intros H; injection H as <-. cbn [Options.fields Options.width build].
  do 6 eexists. repeat split; try eassumption; try reflexivity.
  rewrite negb_false_iff in *. now apply Z.eqb_eq.
Qed.

Lemma mjs_parseOptions_bundle options o :
  OptionsMjs.parseOptions options = Ok o -> Bundle.parseOptions options = Ok o.
Proof.
  unfold OptionsMjs.parseOptions, Bundle.parseOptions. cbv zeta.
  repeat match goal with
         | |- (if ?c then Throw _ else _) = _ -> _ => destruct c eqn:?; [discriminate|]
         end.
  trivial.
Qed.

Lemma parseField_finishes field index column pad trim :
  parseField field index column pad trim <> Unfinished.
Proof.
  unfold parseField.
  repeat match goal with
         | |- (if ?c then _ else _) <> _ => destruct c; [discriminate|]
         end.
  unfold parseTrimOption.
  repeat match goal with
         | |- context [if ?c then _ else _] => destruct c
         end; discriminate.
Qed.

(** The rounds [getWidth] is given are enough: on fields whose sums are
    exact it returns or throws. *)
Lemma getWidth_finishes fields :
  Forall normal fields -> Forall safe fields -> getWidth fields <> Unfinished.
Proof.
  intros Hn Hsafe. rewrite (LayoutFacts.getWidth_normal fields Hn Hsafe).
  destruct fields; [discriminate|].
  destruct (Spec.non_overlapping _); discriminate.
Qed.

(** The 'defaults' and 'validation' tests of [src/options.mjs]. *)
Lemma test_defaults_passes :
  OptionsMjs.parseOptions test_defaults
  = Ok (Options.with_eol (layout_of [default_field 1 2 0; default_field 3 2 1] 4)
          [Bundle.LF]).
Proof. reflexivity. Qed.

Lemma test_validation_passes :
  forallb (fun options => throws (OptionsMjs.parseOptions options)) test_validation
  = true.
Proof. reflexivity. Qed.

End OptionsFacts.

(** C4.  A line longer than [width] is refused when [allowLongerLines] is
    false, a shorter one when [allowShorterLines] is false, both with a
    FixedWidthError of code UNEXPECTED_LINE_LENGTH that carries the line
    number and the line; options naming no length flag get
    [allowLongerLines = true] and [allowShorterLines = false] from either
    [parseOptions]; and "ab" against two fields of width 2 is refused by
    default and decoded to "ab" and the empty string under [allowShorterLines]. *)
Theorem decode_checks_line_length call text o line :
  (Options.width o < len text -> Options.allowLongerLines o = false ->
   Bundle.parseFields call text o line =
   Throw (FixedWidthError "UNEXPECTED_LINE_LENGTH"
            [Lit "Line "; Val (num line); Lit " is longer than expected (see allowLongerLines options)"]
            [("line", num line); ("value", JString text)]))
  /\ (len text < Options.width o -> Options.allowShorterLines o = false ->
      Bundle.parseFields call text o line =
      Throw (FixedWidthError "UNEXPECTED_LINE_LENGTH"
            [Lit "Line "; Val (num line); Lit " is shorted than expected (see allowShorterLines options)"]
            [("line", num line); ("value", JString text)]))
  /\ (forall options o',
        no_length_flag options ->
        Bundle.parseOptions options = Ok o' \/ OptionsMjs.parseOptions options = Ok o' ->
        Options.allowLongerLines o' = true /\ Options.allowShorterLines o' = false)
  /\ (exists o4,
        Bundle.parseOptions two_by_two = Ok o4 /\ Options.width o4 = 4
        /\ Bundle.parseFields call (str "ab") o4 line =
           Throw (FixedWidthError "UNEXPECTED_LINE_LENGTH"
            [Lit "Line "; Val (num line); Lit " is shorted than expected (see allowShorterLines options)"]
            [("line", num line); ("value", JString (str "ab"))]))
  /\ (exists o4,
        Bundle.parseOptions two_by_two_short = Ok o4 /\ Options.width o4 = 4
        /\ Bundle.parseFields call (str "ab") o4 line =
           Ok (JArray [JString (str "ab"); JString []])).
Proof.
  repeat apply conj.
  - intros Hlen Hflag. unfold Bundle.parseFields. rewrite Hflag.
    destruct (Z.gtb_spec (len text) (Options.width o)); [reflexivity | lia].
  - intros Hlen Hflag. unfold Bundle.parseFields. rewrite Hflag.
    destruct (Z.gtb_spec (len text) (Options.width o)); [lia|].
    destruct (Z.ltb_spec (len text) (Options.width o)); [reflexivity | lia].
  - intros options o' (Hr & Hl & Hs) H.
    assert (Hb : Bundle.parseOptions options = Ok o')
      by (destruct H; auto using OptionsFacts.mjs_parseOptions_bundle).
    apply OptionsFacts.bundle_parseOptions_inv in Hb.
    destruct Hb as (encoding & eol & from & to & pad & properties & _ & _ & _ & _ & _ & ->).
    cbn [Layout.build Options.allowLongerLines Options.allowShorterLines].
    rewrite Hr, Hl, Hs. split; reflexivity.
  - eexists. repeat split; reflexivity.
  - eexists. repeat split; reflexivity.
Qed.

Lemma decode_checks_line_length_witness :
  Bundle.parseFields no_call (str "abcde") (Options.make false false [] true [] [] 1 Infinity OutArray (str " ") true TrimTrue 4) 1
  = Throw (FixedWidthError "UNEXPECTED_LINE_LENGTH"
            [Lit "Line "; Val (num 1); Lit " is longer than expected (see allowLongerLines options)"]
            [("line", num 1); ("value", JString (str "abcde"))])
  /\ Bundle.parseFields no_call (str "ab") (Options.make false false [] true [] [] 1 Infinity OutArray (str " ") true TrimTrue 4) 1
     = Throw (FixedWidthError "UNEXPECTED_LINE_LENGTH"
            [Lit "Line "; Val (num 1); Lit " is shorted than expected (see allowShorterLines options)"]
            [("line", num 1); ("value", JString (str "ab"))])
  /\ (forall o', Bundle.parseOptions two_by_two = Ok o' ->
      Options.allowLongerLines o' = true /\ Options.allowShorterLines o' = false).
Proof.
  pose proof (decode_checks_line_length no_call (str "abcde")
                (Options.make false false [] true [] [] 1 Infinity OutArray (str " ") true TrimTrue 4) 1)
    as (Hlong & _).
  pose proof (decode_checks_line_length no_call (str "ab")
                (Options.make false false [] true [] [] 1 Infinity OutArray (str " ") true TrimTrue 4) 1)
    as (_ & Hshort & Hdef & _).
  split; [|split].
  - apply Hlong; [vm_compute; reflexivity | reflexivity].
  - apply Hshort; [vm_compute; reflexivity | reflexivity].
  - intros o' H. apply (Hdef two_by_two o'); [repeat split | left; exact H].
Defined.

(** ** Encoding a field *)

(** C5.  When the coerced string is longer than the field's width,
    [stringifyField] throws FIELD_VALUE_OVERFLOW with the line, column, width
    and value; when it is not, the field encodes to the whole string with
    its padding before (right-aligned) or after it (left-aligned). *)
Theorem encode_overflow_is_an_error call buf obj field o line v s :
  field_value call obj field = Ok v ->
  Bundle.stringifyValue call buf v (Options.encoding o) = Ok (JString s) ->
  (Field.width field < len s ->
   Bundle.stringifyField call buf obj field o line =
   Throw (FixedWidthError "FIELD_VALUE_OVERFLOW"
            [Lit "Value on position "; Val (num line); Lit ":";
             Val (num (Field.column field)); Lit " overflow its width"]
            [("line", num line); ("column", num (Field.column field));
             ("width", num (Field.width field)); ("value", JString s)]))
  /\ (len s <= Field.width field ->
      Bundle.stringifyField call buf obj field o line =
      Ok (match Field.align field with
          | AlignRight =>
              filler (Z.to_nat (Field.width field - len s)) (Field.pad field)
                (Field.pad field) ++ s
          | AlignLeft =>
              s ++ filler (Z.to_nat (Field.width field - len s)) (Field.pad field)
                     (Field.pad field)
          end)).
Proof.
  unfold field_value, Bundle.stringifyField. intros -> Hs.
  cbn [bind]. rewrite Hs. cbn [bind typeof_is typeof negb str_of].
  split; intros Hlen.
  - destruct (Z.gtb_spec (len s) (Field.width field)); [reflexivity | lia].
  - destruct (Z.gtb_spec (len s) (Field.width field)); [lia|].
    destruct (Field.align field); reflexivity.
Qed.

Lemma encode_overflow_is_an_error_witness :
  Bundle.stringifyField no_call latin1 (JArray [num 123]) (default_field 1 2 0)
    (layout_of [default_field 1 2 0] 2) 1
  = Throw (FixedWidthError "FIELD_VALUE_OVERFLOW"
             [Lit "Value on position "; Val (num 1); Lit ":"; Val (num 1);
              Lit " overflow its width"]
             [("line", num 1); ("column", num 1); ("width", num 2);
              ("value", JString (str "123"))])
  /\ Bundle.stringifyField no_call latin1 (JArray [num 123]) (default_field 1 3 0)
       (layout_of [default_field 1 3 0] 3) 1
     = Ok (str "123").
Proof.
  split.
  - apply (proj1 (encode_overflow_is_an_error no_call latin1 (JArray [num 123])
                    (default_field 1 2 0) (layout_of [default_field 1 2 0] 2) 1
                    (num 123) (str "123") eq_refl eq_refl)).
    vm_compute; reflexivity.
  - apply (proj2 (encode_overflow_is_an_error no_call latin1 (JArray [num 123])
                    (default_field 1 3 0) (layout_of [default_field 1 3 0] 3) 1
                    (num 123) (str "123") eq_refl eq_refl)).
    vm_compute; discriminate.
Defined.

(** ** Coercion to a display string *)

Module NumeralFacts.

Lemma natural_acc d : forall acc,
  natural (Z.pos acc) (str (NilEmpty.string_of_uint d))
  = Some (Z.pos (Pos.of_uint_acc d acc)).
Proof.
  induction d; intros acc; cbn [NilEmpty.string_of_uint str list_ascii_of_string natural];
    try reflexivity;
    change (digit "0") with (Some 0); change (digit "1") with (Some 1);
    change (digit "2") with (Some 2); change (digit "3") with (Some 3);
    change (digit "4") with (Some 4); change (digit "5") with (Some 5);
    change (digit "6") with (Some 6); change (digit "7") with (Some 7);
    change (digit "8") with (Some 8); change (digit "9") with (Some 9);
    cbv iota; cbn [Pos.of_uint_acc]; rewrite <- IHd; f_equal; lia.
Qed.

(** The digits of a positive number start with a digit that is not 0. *)
Lemma to_uint_head p :
  match Pos.to_uint p with
  | Decimal.Nil | Decimal.D0 _ => False
  | _ => True
  end.
Proof.
  pose proof (DecimalPos.Unsigned.to_of (Pos.to_uint p)) as H.
  rewrite DecimalPos.Unsigned.of_to in H. cbn [N.to_uint] in H.
  pose proof (DecimalPos.Unsigned.to_uint_nonzero p) as Hz.
  destruct (Pos.to_uint p) as [|u| | | | | | | | |]; try exact I.
  - discriminate H.
  - rewrite DecimalFacts.unorm_D0 in H.
    destruct u as [|u'| | | | | | | | |] eqn:E; try discriminate H.
    + now elim Hz.
    + pose proof (DecimalFacts.nb_digits_unorm (Decimal.D0 u') ltac:(discriminate)) as Hn.
      rewrite <- H in Hn. cbn [Decimal.nb_digits] in Hn. lia.
Qed.

Lemma numeral_pos p : numeral (Z_toString (Z.pos p)) = Some (Z.pos p).
Proof.
  unfold Z_toString. cbn [Z.to_int NilEmpty.string_of_int].
  pose proof (to_uint_head p) as Hh.
  pose proof (DecimalPos.Unsigned.of_to p) as Hv.
  destruct (Pos.to_uint p) as [|u|u|u|u|u|u|u|u|u|u]; try contradiction;
    cbn [Pos.of_uint] in Hv; injection Hv as <-;
    cbn [NilEmpty.string_of_uint str list_ascii_of_string];
    unfold numeral; cbv [Ascii.eqb Bool.eqb]; cbn [natural];
    match goal with
    | |- context [digit ?c] =>
        let v := eval vm_compute in (digit c) in change (digit c) with v
    end;
    cbv iota; apply (natural_acc u).
Qed.

Lemma numeral_neg p : numeral (Z_toString (Z.neg p)) = Some (Z.neg p).
Proof.
  unfold Z_toString. cbn [Z.to_int NilEmpty.string_of_int].
  pose proof (to_uint_head p) as Hh.
  pose proof (DecimalPos.Unsigned.of_to p) as Hv.
  destruct (Pos.to_uint p) as [|u|u|u|u|u|u|u|u|u|u]; try contradiction;
    cbn [Pos.of_uint] in Hv; injection Hv as <-;
    cbn [NilEmpty.string_of_uint str list_ascii_of_string];
    unfold numeral; cbv [Ascii.eqb Bool.eqb]; cbn [natural];
    match goal with
    | |- context [digit ?c] =>
        let v := eval vm_compute in (digit c) in change (digit c) with v
    end;
    cbv iota;
    match goal with
    | |- option_map _ (natural ?a _) = _ =>
        let a' := eval vm_compute in a in change a with a'
    end;
    rewrite (natural_acc u); reflexivity.
Qed.

Lemma len_cons c (s : jsstr) : len (c :: s) = 1 + len s.
Proof. unfold len. cbn [List.length]. lia. Qed.

Lemma digits_acc d : forall acc,
  Z.pos acc * 10 ^ len (str (NilEmpty.string_of_uint d))
  <= Z.pos (Pos.of_uint_acc d acc)
  < (Z.pos acc + 1) * 10 ^ len (str (NilEmpty.string_of_uint d)).
Proof.
  unfold str.
  induction d; intros acc;
    cbn [NilEmpty.string_of_uint list_ascii_of_string Pos.of_uint_acc];
    try (change (len []) with 0; lia);
    rewrite len_cons;
    match goal with
    | |- context [Pos.of_uint_acc d ?a] => specialize (IHd a)
    end;
    assert (Hn : 0 <= len (list_ascii_of_string (NilEmpty.string_of_uint d)))
      by (unfold len; lia);
    rewrite Z.pow_add_r by lia; change (10 ^ 1) with 10;
    assert (Hp : 0 < 10 ^ len (list_ascii_of_string (NilEmpty.string_of_uint d)))
      by (apply Z.pow_pos_nonneg; lia);
    nia.
Qed.

(** A positive number lies between the powers of ten its length gives. *)
Lemma digits_bounds p :
  10 ^ (len (Z_toString (Z.pos p)) - 1) <= Z.pos p < 10 ^ len (Z_toString (Z.pos p)).
Proof.
  unfold Z_toString. cbn [Z.to_int NilEmpty.string_of_int].
  pose proof (to_uint_head p) as Hh.
  pose proof (DecimalPos.Unsigned.of_to p) as Hv.
  pose proof digits_acc as Hacc. unfold str in *.
  destruct (Pos.to_uint p) as [|u|u|u|u|u|u|u|u|u|u]; try contradiction;
    cbn [Pos.of_uint] in Hv; injection Hv as <-;
    cbn [NilEmpty.string_of_uint list_ascii_of_string];
    rewrite len_cons;
    match goal with
    | |- context [Pos.of_uint_acc u ?a] => pose proof (Hacc u a) as Hb
    end;
    assert (Hn : 0 <= len (list_ascii_of_string (NilEmpty.string_of_uint u)))
      by (unfold len; lia);
    replace (1 + len (list_ascii_of_string (NilEmpty.string_of_uint u)) - 1)
      with (len (list_ascii_of_string (NilEmpty.string_of_uint u))) by lia;
    rewrite Z.pow_add_r by lia; change (10 ^ 1) with 10;
    assert (Hp : 0 < 10 ^ len (list_ascii_of_string (NilEmpty.string_of_uint u)))
      by (apply Z.pow_pos_nonneg; lia);
    nia.
Qed.

(** [Z_toString] gives the numeral of the integer. *)
Lemma numeral_toString z : numeral (Z_toString z) = Some z.
Proof.
  destruct z; [reflexivity | apply numeral_pos | apply numeral_neg].
Qed.

End NumeralFacts.

Module DoubleFacts.
Import Bundle.

Lemma round_at S q r :
  1 <= S -> 2 ^ 52 <= q < 2 ^ 53 -> 0 <= r < 2 ^ S ->
  round_double (q * 2 ^ S + r)
  = (if (2 ^ S / 2 <? r) || ((r =? 2 ^ S / 2) && Z.odd q) then q + 1 else q) * 2 ^ S.
Proof.
  intros HS Hq Hr. unfold round_double.
  assert (Hu : 0 < 2 ^ S) by (apply Z.pow_pos_nonneg; lia).
  assert (Hlog : Z.log2 (q * 2 ^ S + r) = S + 52).
  { apply Z.log2_unique; [lia|].
    replace (2 ^ (S + 52)) with (2 ^ 52 * 2 ^ S)
      by (rewrite <- Z.pow_add_r by lia; f_equal; lia).
    replace (2 ^ Z.succ (S + 52)) with (2 ^ 53 * 2 ^ S)
      by (rewrite <- Z.pow_add_r by lia; f_equal; lia).
    nia. }
  rewrite Hlog.
  destruct (Z.ltb_spec (S + 52) 53); [lia|].
  replace (S + 52 - 52) with S by lia. cbv zeta.
  assert (Hd : (q * 2 ^ S + r) / 2 ^ S = q).
  { symmetry. apply (Z.div_unique _ _ q r); lia. }
  assert (Hm : (q * 2 ^ S + r) mod 2 ^ S = r).
  { symmetry. apply (Z.mod_unique _ _ q r); lia. }
  rewrite Hd, Hm. reflexivity.
Qed.

Lemma double_shape x :
  2 ^ 53 <= x -> round_double x = x ->
  exists Q S, 1 <= S /\ 2 ^ 52 <= Q < 2 ^ 53 /\ x = Q * 2 ^ S.
Proof.
  intros Hx Hr.
  assert (Hpos : 0 < x) by lia.
  pose proof (Z.log2_spec x Hpos) as [Hlo Hhi].
  assert (He : 53 <= Z.log2 x).
  { apply Z.log2_le_pow2; lia. }
  set (e := Z.log2 x) in *. set (S := e - 52).
  assert (Hu : 0 < 2 ^ S) by (apply Z.pow_pos_nonneg; lia).
  assert (E52 : 2 ^ e = 2 ^ 52 * 2 ^ S)
    by (rewrite <- Z.pow_add_r by lia; f_equal; lia).
  assert (E53 : 2 ^ Z.succ e = 2 ^ 53 * 2 ^ S)
    by (rewrite <- Z.pow_add_r by lia; f_equal; lia).
  pose proof (Z.div_mod x (2 ^ S) ltac:(lia)) as Hdm.
  pose proof (Z.mod_pos_bound x (2 ^ S) Hu) as Hm.
  set (q := x / 2 ^ S) in *. set (r := x mod 2 ^ S) in *.
  assert (Hq : 2 ^ 52 <= q < 2 ^ 53) by nia.
  rewrite Hdm in Hr at 1.
  rewrite (Z.mul_comm (2 ^ S) q) in Hr.
  rewrite (round_at S q r) in Hr by (assumption || lia).
  exists q, S. repeat split; try lia.
  destruct ((2 ^ S / 2 <? r) || ((r =? 2 ^ S / 2) && Z.odd q)) eqn:C.
  - apply orb_true_iff in C.
    assert (0 < r).
    { destruct C as [C|C].
      - apply Z.ltb_lt in C. pose proof (Z.div_pos (2 ^ S) 2). lia.
      - apply andb_true_iff in C. destruct C as [C _]. apply Z.eqb_eq in C.
        assert (2 <= 2 ^ S).
        { change 2 with (2 ^ 1) at 1. apply Z.pow_le_mono_r; lia. }
        pose proof (Z.div_le_lower_bound (2 ^ S) 2 1). lia. }
    nia.
  - nia.
Qed.

(** An integer within [x / (2 * 10^16)] of the double [x] reads as [x]:
    that is less than half the distance from [x] to its neighbours. *)
Lemma round_near Q S y :
  2 <= S -> 2 ^ 52 <= Q < 2 ^ 53 ->
  2 * 10 ^ 16 * Z.abs (y - Q * 2 ^ S) <= Q * 2 ^ S ->
  round_double y = Q * 2 ^ S.
Proof.
  intros HS HQ Hy.
  assert (Hw : 0 < 2 ^ (S - 2)) by (apply Z.pow_pos_nonneg; lia).
  assert (Eu : 2 ^ S = 4 * 2 ^ (S - 2)).
  { change 4 with (2 ^ 2). rewrite <- Z.pow_add_r by lia. f_equal. lia. }
  assert (Eh : 2 ^ (S - 1) = 2 * 2 ^ (S - 2)).
  { change 2 with (2 ^ 1) at 2. rewrite <- Z.pow_add_r by lia. f_equal. lia. }
  set (w := 2 ^ (S - 2)) in *.
  assert (Hhalf : 2 ^ S / 2 = 2 * w).
  { rewrite Eu. replace (4 * w) with (2 * w * 2) by lia. apply Z.div_mul. lia. }
  assert (Hquarter : 2 ^ (S - 1) / 2 = w).
  { rewrite Eh. rewrite Z.mul_comm. apply Z.div_mul. lia. }
  change (10 ^ 16) with 10000000000000000 in Hy.
  change (2 ^ 52) with 4503599627370496 in HQ.
  change (2 ^ 53) with 9007199254740992 in HQ.
  destruct (Z.le_gt_cases (Q * 2 ^ S) y) as [Hge|Hlt].
  - (* at or above x *)
    replace y with (Q * 2 ^ S + (y - Q * 2 ^ S)) by lia.
    rewrite round_at; [| lia | exact HQ | nia].
    rewrite Hhalf.
    destruct (Z.ltb_spec (2 * w) (y - Q * 2 ^ S)); [nia|].
    destruct (Z.eqb_spec (y - Q * 2 ^ S) (2 * w)); [nia|].
    reflexivity.
  - destruct (Z.eq_dec Q 4503599627370496) as [->|HQne].
    + (* below a power of two: the doubles are twice as close *)
      replace y with ((9007199254740992 - 1) * 2 ^ (S - 1)
                      + (2 ^ (S - 1) - (4503599627370496 * 2 ^ S - y))) by lia.
      rewrite round_at; [| lia | lia | nia].
      rewrite Hquarter.
      destruct (Z.ltb_spec w (2 ^ (S - 1) - (4503599627370496 * 2 ^ S - y)));
        [cbn [orb]; lia | nia].
    + replace y with ((Q - 1) * 2 ^ S + (2 ^ S - (Q * 2 ^ S - y))) by lia.
      rewrite round_at; [| lia | lia | nia].
      rewrite Hhalf.
      destruct (Z.ltb_spec (2 * w) (2 ^ S - (Q * 2 ^ S - y)));
        [cbn [orb]; f_equal; lia | nia].
Qed.

Lemma round_small y : y < 2 ^ 53 -> round_double y = y.
Proof.
  intros Hy. unfold round_double.
  destruct (Z.ltb_spec (Z.log2 y) 53) as [|Hlog]; [reflexivity|].
  exfalso. destruct (Z.le_gt_cases y 0) as [Hle|Hpos].
  - rewrite (Z.log2_nonpos y Hle) in Hlog. lia.
  - apply (Z.log2_lt_pow2 y 53 Hpos) in Hy. lia.
Qed.

Lemma decompose y :
  2 ^ 53 <= y ->
  exists S q r, 1 <= S /\ 2 ^ 52 <= q < 2 ^ 53 /\ 0 <= r < 2 ^ S
                /\ y = q * 2 ^ S + r.
Proof.
  intros Hy.
  assert (Hpos : 0 < y) by lia.
  pose proof (Z.log2_spec y Hpos) as [Hlo Hhi].
  assert (He : 53 <= Z.log2 y) by (apply Z.log2_le_pow2; lia).
  set (e := Z.log2 y) in *. set (S := e - 52).
  assert (Hu : 0 < 2 ^ S) by (apply Z.pow_pos_nonneg; lia).
  assert (E52 : 2 ^ e = 2 ^ 52 * 2 ^ S)
    by (rewrite <- Z.pow_add_r by lia; f_equal; lia).
  assert (E53 : 2 ^ Z.succ e = 2 ^ 53 * 2 ^ S)
    by (rewrite <- Z.pow_add_r by lia; f_equal; lia).
  pose proof (Z.div_mod y (2 ^ S) ltac:(lia)) as Hdm.
  pose proof (Z.mod_pos_bound y (2 ^ S) Hu) as Hm.
  exists S, (y / 2 ^ S), (y mod 2 ^ S). repeat split; try lia; nia.
Qed.

(** Rounding keeps the order. *)
Lemma round_mono a b : 2 ^ 53 <= a <= b -> round_double a <= round_double b.
Proof.
  intros [Ha Hab].
  destruct (decompose a Ha) as (Sa & qa & ra & HSa & Hqa & Hra & ->).
  destruct (decompose b ltac:(lia)) as (Sb & qb & rb & HSb & Hqb & Hrb & ->).
  rewrite !round_at by assumption.
  assert (HA : 0 < 2 ^ Sa) by (apply Z.pow_pos_nonneg; lia).
  assert (HB : 0 < 2 ^ Sb) by (apply Z.pow_pos_nonneg; lia).
  change (2 ^ 52) with 4503599627370496 in *.
  change (2 ^ 53) with 9007199254740992 in *.
  destruct (Z.lt_trichotomy Sa Sb) as [Hlt | [-> | Hgt]].
  - assert (E : 2 ^ Sb = 2 ^ (Sb - Sa) * 2 ^ Sa)
      by (rewrite <- Z.pow_add_r by lia; f_equal; lia).
    assert (2 <= 2 ^ (Sb - Sa)).
    { change 2 with (2 ^ 1) at 1. apply Z.pow_le_mono_r; lia. }
    set (A := 2 ^ Sa) in *. set (B := 2 ^ Sb) in *.
    assert (2 * A <= B) by nia.
    destruct (_ || _), (_ || _); nia.
  - set (A := 2 ^ Sb) in *.
    destruct (Z.eq_dec qa qb) as [->|Hne].
    + assert (ra <= rb) by lia.
      destruct ((A / 2 <? ra) || ((ra =? A / 2) && Z.odd qb)) eqn:Ca;
        destruct ((A / 2 <? rb) || ((rb =? A / 2) && Z.odd qb)) eqn:Cb;
        try lia.
      exfalso. apply orb_false_iff in Cb. destruct Cb as [Cb1 Cb2].
      apply Z.ltb_ge in Cb1. apply orb_true_iff in Ca. destruct Ca as [Ca|Ca].
      * apply Z.ltb_lt in Ca. lia.
      * apply andb_true_iff in Ca. destruct Ca as [Ca Hodd]. apply Z.eqb_eq in Ca.
        rewrite Hodd in Cb2. rewrite andb_true_r in Cb2. apply Z.eqb_neq in Cb2. lia.
    + assert (qa < qb) by nia.
      destruct (_ || _), (_ || _); nia.
  - exfalso.
    assert (E : 2 ^ Sa = 2 ^ (Sa - Sb) * 2 ^ Sb)
      by (rewrite <- Z.pow_add_r by lia; f_equal; lia).
    assert (2 <= 2 ^ (Sa - Sb)).
    { change 2 with (2 ^ 1) at 1. apply Z.pow_le_mono_r; lia. }
    set (A := 2 ^ Sa) in *. set (B := 2 ^ Sb) in *.
    assert (2 * B <= A) by nia. nia.
Qed.

(** Between a number that reads as the double [x] and [x], every number
    reads as [x]. *)
Lemma reads_between x v w :
  2 ^ 53 < x -> round_double x = x -> round_double v = x ->
  v <= w <= x \/ x <= w <= v ->
  round_double w = x.
Proof.
  intros Hx Hdouble Hv Hw.
  assert (Hbig : 2 ^ 53 <= v).
  { destruct (Z.le_gt_cases (2 ^ 53) v) as [|Hsmall]; [assumption|].
    rewrite (round_small v Hsmall) in Hv. lia. }
  destruct Hw as [Hw|Hw].
  - pose proof (round_mono v w ltac:(lia)). pose proof (round_mono w x ltac:(lia)). lia.
  - pose proof (round_mono x w ltac:(lia)). pose proof (round_mono w v ltac:(lia)). lia.
Qed.

(** *** The digits [Number_digits] prints *)

Section Digits.
Variables x d : Z.
Hypothesis Hd : 10 ^ (d - 1) <= x < 10 ^ d.
Hypothesis Hd1 : 1 <= d.

Lemma neighbours k :
  1 <= k <= d ->
  0 < 10 ^ (d - k)
  /\ 10 ^ (k - 1) <= x / 10 ^ (d - k) < 10 ^ k
  /\ x / 10 ^ (d - k) * 10 ^ (d - k) <= x
     < (x / 10 ^ (d - k) + 1) * 10 ^ (d - k).
Proof.
  intros Hk.
  assert (Hp : 0 < 10 ^ (d - k)) by (apply Z.pow_pos_nonneg; lia).
  assert (E1 : 10 ^ (d - 1) = 10 ^ (k - 1) * 10 ^ (d - k))
    by (rewrite <- Z.pow_add_r by lia; f_equal; lia).
  assert (E2 : 10 ^ d = 10 ^ k * 10 ^ (d - k))
    by (rewrite <- Z.pow_add_r by lia; f_equal; lia).
  pose proof (Z.div_mod x (10 ^ (d - k)) ltac:(lia)) as Hdm.
  pose proof (Z.mod_pos_bound x (10 ^ (d - k)) Hp) as Hm.
  assert (0 < 10 ^ (k - 1)) by (apply Z.pow_pos_nonneg; lia).
  assert (0 < 10 ^ k) by (apply Z.pow_pos_nonneg; lia).
  repeat split; try nia; lia.
Qed.

Lemma digits_of_length_sound k r :
  1 <= k <= 17 -> k <= d ->
  digits_of_length x d k = Some r -> denotes x r.
Proof.
  intros Hk Hkd. destruct (neighbours k ltac:(lia)) as (Hp & Hlo & Hx).
  assert (E2 : 10 ^ d = 10 ^ k * 10 ^ (d - k))
    by (rewrite <- Z.pow_add_r by lia; f_equal; lia).
  unfold digits_of_length. cbv zeta.
  set (p := 10 ^ (d - k)) in *. set (lo := x / p) in *.
  destruct ((round_double ((lo + 1) * p) =? x) && _) eqn:C.
  - apply andb_true_iff in C. destruct C as [C _]. apply Z.eqb_eq in C.
    destruct (Z.eqb_spec (lo + 1) (10 ^ k)) as [E|E];
      intros Hr; injection Hr as <-; unfold denotes.
    + repeat split; try lia.
      replace (d + 1 - 1) with d by lia. rewrite Z.mul_1_l.
      rewrite <- C, E, E2. reflexivity.
    + repeat split; try lia. exact C.
  - destruct (Z.eqb_spec (round_double (lo * p)) x) as [E|E]; [|discriminate].
    intros Hr; injection Hr as <-. unfold denotes. repeat split; try lia. exact E.
Qed.

Lemma shortest_sound rounds : forall k r,
  1 <= k -> k + Z.of_nat rounds <= 18 ->
  shortest_digits rounds x d k = Some r -> denotes x r.
Proof.
  induction rounds as [|rounds IH]; intros k r Hk Hr; cbn [shortest_digits];
    [discriminate|].
  destruct (Z.ltb_spec d k); [discriminate|].
  destruct (digits_of_length x d k) as [r'|] eqn:E.
  - intros Hr'; injection Hr' as <-. apply (digits_of_length_sound k); try lia. exact E.
  - apply IH; lia.
Qed.

Lemma shortest_found rounds : forall k k0,
  1 <= k <= k0 -> k0 <= d -> k0 - k < Z.of_nat rounds ->
  digits_of_length x d k0 <> None ->
  shortest_digits rounds x d k <> None.
Proof.
  induction rounds as [|rounds IH]; intros k k0 Hk Hk0 Hr Hfound;
    cbn [shortest_digits]; [lia|].
  destruct (Z.ltb_spec d k); [lia|].
  destruct (digits_of_length x d k) as [r'|] eqn:E; [discriminate|].
  destruct (Z.eq_dec k k0) as [->|Hne]; [congruence|].
  apply (IH (k + 1) k0); try lia. assumption.
Qed.

Lemma found_when_near k :
  1 <= k <= d ->
  round_double (x / 10 ^ (d - k) * 10 ^ (d - k)) = x
  \/ round_double ((x / 10 ^ (d - k) + 1) * 10 ^ (d - k)) = x ->
  digits_of_length x d k <> None.
Proof.
  intros Hk Hnear. unfold digits_of_length. cbv zeta.
  destruct ((round_double ((x / 10 ^ (d - k) + 1) * 10 ^ (d - k)) =? x) && _) eqn:C;
    [destruct (_ =? 10 ^ k); discriminate|].
  destruct (Z.eqb_spec (round_double (x / 10 ^ (d - k) * 10 ^ (d - k))) x) as [E|E];
    [discriminate|].
  destruct Hnear as [Hn|Hn]; [contradiction|].
  rewrite Hn, Z.eqb_refl in C. cbn [andb negb orb] in C. discriminate.
Qed.

Hypothesis Hx : 2 ^ 53 < x.
Hypothesis Hdouble : round_double x = x.

(** Seventeen digits, or all of them, read as [x]. *)
Lemma found_at_last : digits_of_length x d (Z.min d 17) <> None.
Proof.
  destruct (Z.le_gt_cases d 17) as [Hle|Hgt].
  - rewrite Z.min_l by lia. apply found_when_near; [lia|]. left.
    rewrite Z.sub_diag. change (10 ^ 0) with 1.
    now rewrite Z.div_1_r, Z.mul_1_r.
  - rewrite Z.min_r by lia. apply found_when_near; [lia|].
    destruct (neighbours 17 ltac:(lia)) as (Hp & Hlo & Hbetween).
    assert (E1 : 10 ^ (d - 1) = 10 ^ 16 * 10 ^ (d - 17))
      by (rewrite <- Z.pow_add_r by lia; f_equal; lia).
    assert (Ep : 10 ^ (d - 17) = 2 * (5 * 10 ^ (d - 18))).
    { replace (d - 17) with (1 + (d - 18)) by lia.
      rewrite Z.pow_add_r by lia. change (10 ^ 1) with 10. lia. }
    assert (Hq : 0 < 10 ^ (d - 18)) by (apply Z.pow_pos_nonneg; lia).
    assert (Hnear : forall y,
               2 * 10 ^ 16 * Z.abs (y - x) <= x -> round_double y = x).
    { destruct (double_shape x ltac:(lia) Hdouble) as (Q & S & HS & HQ & Ex).
      intros y Hy. rewrite Ex in Hy |- *. apply round_near; try assumption.
      destruct (Z.le_gt_cases 2 S) as [|HS1]; [assumption|].
      replace S with 1 in * by lia. change (2 ^ 1) with 2 in *.
      change (10 ^ 16) with 10000000000000000 in *.
      change (2 ^ 53) with 9007199254740992 in *. nia. }
    set (p := 10 ^ (d - 17)) in *. set (h := 5 * 10 ^ (d - 18)) in *.
    set (lo := x / p) in *.
    change (10 ^ 16) with 10000000000000000 in *.
    destruct (Z.le_gt_cases (x - lo * p) h).
    + left. apply Hnear. lia.
    + right. apply Hnear. lia.
Qed.

(** A length at which some decimal reads as [x] is a length at which
    [digits_of_length] finds one. *)
Lemma digits_of_length_complete k s n :
  1 <= k <= d -> 10 ^ (k - 1) <= s < 10 ^ k -> k <= n ->
  round_double (s * 10 ^ (n - k)) = x ->
  digits_of_length x d k <> None.
Proof.
  intros Hk Hs Hn Hreads. apply found_when_near; [assumption|].
  destruct (neighbours k Hk) as (Hp & Hlo & Hbetween).
  assert (E1 : 10 ^ (d - 1) = 10 ^ (k - 1) * 10 ^ (d - k))
    by (rewrite <- Z.pow_add_r by lia; f_equal; lia).
  assert (E2 : 10 ^ d = 10 ^ k * 10 ^ (d - k))
    by (rewrite <- Z.pow_add_r by lia; f_equal; lia).
  assert (N1 : 10 ^ (n - 1) = 10 ^ (k - 1) * 10 ^ (n - k))
    by (rewrite <- Z.pow_add_r by lia; f_equal; lia).
  assert (N2 : 10 ^ n = 10 ^ k * 10 ^ (n - k))
    by (rewrite <- Z.pow_add_r by lia; f_equal; lia).
  assert (Hq : 0 < 10 ^ (n - k)) by (apply Z.pow_pos_nonneg; lia).
  assert (Hk1 : 0 < 10 ^ (k - 1)) by (apply Z.pow_pos_nonneg; lia).
  assert (Hv : n < d -> s * 10 ^ (n - k) < 10 ^ (d - 1)).
  { intros Hlt. assert (10 ^ n <= 10 ^ (d - 1)) by (apply Z.pow_le_mono_r; lia).
    nia. }
  assert (Hv' : d < n -> 10 ^ d <= s * 10 ^ (n - k)).
  { intros Hlt. assert (10 ^ d <= 10 ^ (n - 1)) by (apply Z.pow_le_mono_r; lia).
    nia. }
  set (v := s * 10 ^ (n - k)) in *.
  set (p := 10 ^ (d - k)) in *. set (lo := x / p) in *.
  destruct (Z.le_gt_cases v x) as [Hle|Hgt].
  - left. apply (reads_between x v); try assumption. left. split; [|lia].
    destruct (Z.lt_trichotomy n d) as [Hlt | [-> | Hlt]].
    + specialize (Hv Hlt). nia.
    + subst v. fold p in Hle |- *.
      assert (s <= lo) by (apply Z.lt_succ_r, (Z.mul_lt_mono_pos_r p); lia).
      nia.
    + specialize (Hv' Hlt). lia.
  - right. apply (reads_between x v); try assumption. right. split; [lia|].
    destruct (Z.lt_trichotomy n d) as [Hlt | [-> | Hlt]].
    + specialize (Hv Hlt). lia.
    + subst v. fold p in Hgt |- *.
      assert (lo < s) by (apply (Z.mul_lt_mono_pos_r p); lia).
      nia.
    + specialize (Hv' Hlt). nia.
Qed.

(** What the search returns, no shorter decimal reads as [x]. *)
Lemma shortest_minimal rounds : forall k0 s k n,
  1 <= k0 ->
  shortest_digits rounds x d k0 = Some (s, k, n) ->
  forall s' k' n',
    k0 <= k' < k -> 10 ^ (k' - 1) <= s' < 10 ^ k' -> k' <= n' ->
    round_double (s' * 10 ^ (n' - k')) <> x.
Proof.
  induction rounds as [|rounds IH]; intros k0 s k n Hk0; cbn [shortest_digits];
    [discriminate|].
  destruct (Z.ltb_spec d k0); [discriminate|].
  destruct (digits_of_length x d k0) as [r|] eqn:E.
  - intros Hr; injection Hr as ->. intros s' k' n' Hk'. exfalso.
    unfold digits_of_length in E. cbv zeta in E.
    destruct (_ && _) in E.
    + destruct (_ =? 10 ^ k0) in E; injection E as <- <- <-; lia.
    + destruct (_ =? x) in E; [|discriminate]. injection E as <- <- <-. lia.
  - intros Hr s' k' n' Hk' Hs' Hn' Hreads.
    destruct (Z.eq_dec k' k0) as [->|Hne].
    + apply (digits_of_length_complete k0 s' n') in Hreads;
        [congruence | lia | assumption | assumption].
    + apply (IH (k0 + 1) s k n ltac:(lia) Hr s' k' n'); try assumption. lia.
Qed.

Lemma digits_found :
  exists s k n,
    shortest_digits 17 x d 1 = Some (s, k, n) /\ denotes x (s, k, n)
    /\ forall s' k' n',
         1 <= k' < k -> 10 ^ (k' - 1) <= s' < 10 ^ k' -> k' <= n' ->
         round_double (s' * 10 ^ (n' - k')) <> x.
Proof.
  destruct (shortest_digits 17 x d 1) as [[[s k] n]|] eqn:E.
  - exists s, k, n. split; [reflexivity|]. split.
    + apply (shortest_sound 17 1); [lia | cbn; lia | exact E].
    + apply (shortest_minimal 17 1 s k n); [lia | exact E].
  - exfalso. revert E.
    apply (shortest_found 17 1 (Z.min d 17)); try lia. apply found_at_last.
Qed.

End Digits.

End DoubleFacts.

Module CoercionFacts.
Import Bundle.

Lemma Z_toString_neg p : Z_toString (Z.neg p) = "-"%char :: Z_toString (Z.pos p).
Proof. reflexivity. Qed.

Lemma Z_toString_nonempty z : Z_toString z <> [].
Proof.
intros E. pose proof (NumeralFacts.numeral_toString z) as H. rewrite E in H.
discriminate.
Qed.

(** Up to 2^53 a number prints as the integer it is. *)
Lemma Number_toString_small z :
Z.abs z <= 2 ^ 53 -> Number_toString (NInt z) = Z_toString z.
Proof.
intros Hz. unfold Number_toString, Number_digits.
destruct z as [|p|p]; cbn [Z.ltb Z.compare Z.opp].
- reflexivity.
- destruct (Z.leb_spec (Z.pos p) (2 ^ 53)); [reflexivity | lia].
- destruct (Z.leb_spec (Z.pos p) (2 ^ 53)); [reflexivity | lia].
Qed.

(** Above 2^53 a double prints as digits that read back as it: followed by
  zeros up to 21 places, with an exponent beyond. *)
Lemma Number_toString_large z :
2 ^ 53 < z -> round_double z = z ->
exists s k n,
  denotes z (s, k, n)
  /\ (forall s' k' n',
        1 <= k' < k -> 10 ^ (k' - 1) <= s' < 10 ^ k' -> k' <= n' ->
        round_double (s' * 10 ^ (n' - k')) <> z)
  /\ Number_toString (NInt z) =
     if n <=? 21 then Z_toString s ++ repeat "0"%char (Z.to_nat (n - k))
     else mantissa (Z_toString s) ++ str "e+" ++ Z_toString (n - 1).
Proof.
intros Hz Hdouble. destruct z as [|p|p]; try lia.
pose proof (NumeralFacts.digits_bounds p) as Hb.
assert (Hd : 1 <= len (Z_toString (Z.pos p))).
{ pose proof (Z_toString_nonempty (Z.pos p)) as Hne.
  destruct (Z_toString (Z.pos p)); [contradiction|].
  rewrite NumeralFacts.len_cons. unfold len. lia. }
destruct (DoubleFacts.digits_found _ _ Hb Hd Hz Hdouble)
  as (s & k & n & Hs & Hden & Hmin).
exists s, k, n. split; [assumption|]. split; [assumption|].
unfold Number_toString, Number_digits.
change (Z.pos p <? 0) with false. cbv iota.
destruct (Z.leb_spec (Z.pos p) (2 ^ 53)); [lia|].
rewrite Hs. destruct (n <=? 21); [reflexivity|].
pose proof (Z_toString_nonempty s) as Hne.
destruct (Z_toString s) as [|c [|c' rest]]; [contradiction | reflexivity | reflexivity].
Qed.

Lemma Number_toString_opp z :
0 < z -> Number_toString (NInt (- z)) = "-"%char :: Number_toString (NInt z).
Proof.
intros Hz. unfold Number_toString.
destruct (Z.ltb_spec (- z) 0); [|lia]. destruct (Z.ltb_spec z 0); [lia|].
now rewrite Z.opp_involutive.
Qed.

End CoercionFacts.

(** C6.  [stringifyValue] decodes a buffer under the encoding; turns [null]
    and [undefined] into the empty string and booleans into "1" or "0";
    prints a number or a bigint in base 10: an integer up to 2^53 and a
    bigint as the numeral that denotes it, a larger double as the digits
    (the fewest that do, 17 at most) of a decimal that rounds to it,
    followed by zeros up to 21 places and written with an exponent beyond
    (10^21 is "1e+21"), a negative number as a
    minus sign before the text of its opposite, a fraction as its decimal
    text; and puts an object that is not a buffer through its [valueOf()]
    before these rules apply: a wrapper gives what it wraps, a [valueOf]
    method of the object is run (and what it throws is thrown), an object
    without one and an array stay what they are.  When the coerced value
    is not a string, [stringifyField] throws EXPECTED_STRING_VALUE with
    the line, the column, the width and the coerced value. *)
Theorem coercion_to_display_string call buf enc :
  (forall bytes text, buf bytes enc = Ok text ->
     Bundle.stringifyValue call buf (JBuffer bytes) enc = Ok (JString text))
  /\ (forall bytes e, buf bytes enc = Throw e ->
     Bundle.stringifyValue call buf (JBuffer bytes) enc = Throw e)
  /\ Bundle.stringifyValue call buf JNull enc = Ok (JString [])
  /\ Bundle.stringifyValue call buf JUndefined enc = Ok (JString [])
  /\ Bundle.stringifyValue call buf (JBoolean true) enc = Ok (JString (str "1"))
  /\ Bundle.stringifyValue call buf (JBoolean false) enc = Ok (JString (str "0"))
  /\ (forall z, Z.abs z <= 2 ^ 53 ->
      exists text, Bundle.stringifyValue call buf (num z) enc = Ok (JString text)
                   /\ numeral text = Some z)
  /\ (forall z, 2 ^ 53 < z < 2 ^ 1024 -> Bundle.round_double z = z ->
      exists s k n,
        1 <= k <= 17 /\ 10 ^ (k - 1) <= s < 10 ^ k /\ k <= n
        /\ Bundle.round_double (s * 10 ^ (n - k)) = z
        /\ (forall s' k' n',
              1 <= k' < k -> 10 ^ (k' - 1) <= s' < 10 ^ k' -> k' <= n' ->
              Bundle.round_double (s' * 10 ^ (n' - k')) <> z)
        /\ numeral (Z_toString s) = Some s
        /\ Bundle.stringifyValue call buf (num z) enc =
           Ok (JString (if n <=? 21
                        then Z_toString s ++ repeat "0"%char (Z.to_nat (n - k))
                        else mantissa (Z_toString s) ++ str "e+" ++ Z_toString (n - 1))))
  /\ Bundle.stringifyValue call buf (num (10 ^ 21)) enc = Ok (JString (str "1e+21"))
  /\ Bundle.stringifyValue call buf (num (2 ^ 64)) enc
     = Ok (JString (str "18446744073709552000"))
  /\ (forall z text, 0 < z ->
      Bundle.stringifyValue call buf (num z) enc = Ok (JString text) ->
      Bundle.stringifyValue call buf (num (- z)) enc = Ok (JString ("-"%char :: text)))
  /\ (forall text,
      Bundle.stringifyValue call buf (JNumber (NFrac text)) enc = Ok (JString text))
  /\ Bundle.stringifyValue call buf (JNumber NNaN) enc = Ok (JString (str "NaN"))
  /\ Bundle.stringifyValue call buf (JNumber NPosInf) enc = Ok (JString (str "Infinity"))
  /\ Bundle.stringifyValue call buf (JNumber NNegInf) enc = Ok (JString (str "-Infinity"))
  /\ (forall z,
      exists text, Bundle.stringifyValue call buf (JBigInt z) enc = Ok (JString text)
                   /\ numeral text = Some z)
  /\ (forall prim, typeof prim <> t_object ->
      Bundle.stringifyValue call buf (JBoxed prim) enc
      = Bundle.stringifyValue call buf prim enc)
  /\ (forall props f v,
      own (KStr (str "valueOf")) props = Some (JFunction f) ->
      call f [] = Ok v -> typeof v <> t_object \/ v = JNull ->
      Bundle.stringifyValue call buf (JObject props) enc
      = Bundle.stringifyValue call buf v enc)
  /\ (forall props f v,
      own (KStr (str "valueOf")) props = Some (JFunction f) ->
      call f [] = Ok v -> typeof v = t_object -> v <> JNull ->
      Bundle.stringifyValue call buf (JObject props) enc = Ok v)
  /\ (forall props f e,
      own (KStr (str "valueOf")) props = Some (JFunction f) ->
      call f [] = Throw e ->
      Bundle.stringifyValue call buf (JObject props) enc = Throw e)
  /\ (forall props v,
      own (KStr (str "valueOf")) props = Some v -> typeof v <> t_function ->
      Bundle.stringifyValue call buf (JObject props) enc
      = Throw (TypeError [Lit "value.valueOf is not a function"]))
  /\ (forall props,
      own (KStr (str "valueOf")) props = None ->
      Bundle.stringifyValue call buf (JObject props) enc = Ok (JObject props))
  /\ (forall items,
      Bundle.stringifyValue call buf (JArray items) enc = Ok (JArray items))
  /\ (forall obj field o line v w,
        field_value call obj field = Ok v ->
        Bundle.stringifyValue call buf v (Options.encoding o) = Ok w ->
        typeof w <> t_string ->
        Bundle.stringifyField call buf obj field o line =
        Throw (FixedWidthError "EXPECTED_STRING_VALUE"
                 [Lit "Cannot cast to string value on position "; Val (num line);
                  Lit ":"; Val (num (Field.column field))]
                 [("line", num line); ("column", num (Field.column field));
                  ("width", num (Field.width field)); ("value", w)])).
Proof.
  repeat apply conj; try reflexivity.
  - intros bytes text H. cbn [Bundle.stringifyValue]. now rewrite H.
  - intros bytes e H. cbn [Bundle.stringifyValue]. now rewrite H.
  - intros z Hz. exists (Z_toString z). split.
    + unfold Bundle.stringifyValue, num.
      cbn [typeof_is typeof andb bind Bundle.stringifyPrimitiveValue].
      now rewrite (CoercionFacts.Number_toString_small z Hz).
    + apply NumeralFacts.numeral_toString.
  - intros z [Hz _] Hdouble.
    destruct (CoercionFacts.Number_toString_large z Hz Hdouble)
      as (s & k & n & (Hk & Hs & Hn & Hround) & Hmin & Htext).
    exists s, k, n. repeat apply conj; try lia; try assumption.
    + apply NumeralFacts.numeral_toString.
    + unfold Bundle.stringifyValue, num.
      cbn [typeof_is typeof andb bind Bundle.stringifyPrimitiveValue].
      now rewrite Htext.
  - intros z text Hz. unfold Bundle.stringifyValue, num.
    cbn [typeof_is typeof andb bind Bundle.stringifyPrimitiveValue].
    intros H. injection H as <-.
    now rewrite (CoercionFacts.Number_toString_opp z Hz).
  - intros z. exists (Z_toString z). split; [reflexivity|].
    apply NumeralFacts.numeral_toString.
  - intros prim Hprim. destruct prim; try reflexivity; cbn [typeof] in Hprim; congruence.
  - intros props f v Hown Hcall Hv.
    unfold Bundle.stringifyValue at 1. cbn [typeof_is typeof andb is_null negb].
    unfold Bundle.valueOf. rewrite Hown, Hcall. cbn [bind].
    destruct Hv as [Hv| ->]; [|reflexivity].
    destruct v; try reflexivity; cbn [typeof] in Hv; congruence.
  - intros props f v Hown Hcall Hv Hnull.
    unfold Bundle.stringifyValue. cbn [typeof_is typeof andb is_null negb].
    unfold Bundle.valueOf. rewrite Hown, Hcall. cbn [bind].
    destruct v; try discriminate; try reflexivity. congruence.
  - intros props f e Hown Hcall.
    unfold Bundle.stringifyValue. cbn [typeof_is typeof andb is_null negb].
    unfold Bundle.valueOf. now rewrite Hown, Hcall.
  - intros props v Hown Hv.
    unfold Bundle.stringifyValue. cbn [typeof_is typeof andb is_null negb].
    unfold Bundle.valueOf. rewrite Hown.
    destruct v; try reflexivity. cbn [typeof] in Hv. congruence.
  - intros props Hown.
    unfold Bundle.stringifyValue. cbn [typeof_is typeof andb is_null negb].
    unfold Bundle.valueOf. now rewrite Hown.
  - intros obj field o line v w Hv Hw Ht.
    unfold field_value in Hv. unfold Bundle.stringifyField. rewrite Hv. cbn [bind].
    rewrite Hw. cbn [bind]. unfold typeof_is.
    destruct (typeof w); try reflexivity. congruence.
Qed.

Lemma coercion_to_display_string_witness :
  Bundle.stringifyValue call_zero latin1 (JBoxed (num 42)) (str "utf8")
  = Bundle.stringifyValue call_zero latin1 (num 42) (str "utf8")
  /\ (exists text,
        Bundle.stringifyValue call_zero latin1 (num 42) (str "utf8") = Ok (JString text)
        /\ numeral text = Some 42)
  /\ Bundle.stringifyValue call_zero latin1 with_valueOf (str "utf8")
     = Bundle.stringifyValue call_zero latin1 (num 0) (str "utf8")
  /\ Bundle.stringifyValue call_zero latin1 with_broken_valueOf (str "utf8")
     = Throw (TypeError [Lit "value.valueOf is not a function"])
  /\ Bundle.stringifyValue call_zero latin1 (num (- 10 ^ 21)) (str "utf8")
     = Ok (JString (str "-1e+21"))
  /\ Bundle.stringifyField call_zero latin1 (JArray [JArray []]) (default_field 1 2 0)
       (layout_of [default_field 1 2 0] 2) 7
     = Throw (FixedWidthError "EXPECTED_STRING_VALUE"
                [Lit "Cannot cast to string value on position "; Val (num 7);
                 Lit ":"; Val (num 1)]
                [("line", num 7); ("column", num 1); ("width", num 2);
                 ("value", JArray [])]).
Proof.
  pose proof (coercion_to_display_string call_zero latin1 (str "utf8"))
    as (_ & _ & _ & _ & _ & _ & Hsmall & _ & Hexp & _ & Hneg & _ & _ & _ & _ & _
        & Hboxed & Hfun & _ & _ & Hbroken & _ & _ & Herr).
  repeat apply conj.
  - apply (Hboxed (num 42)). discriminate.
  - apply (Hsmall 42). vm_compute. discriminate.
  - apply (Hfun _ 0%nat (num 0)); [reflexivity | reflexivity | left; discriminate].
  - apply (Hbroken _ (num 1)); [reflexivity | discriminate].
  - apply (Hneg (10 ^ 21) (str "1e+21")); [reflexivity | exact Hexp].
  - apply (Herr (JArray [JArray []]) (default_field 1 2 0)
             (layout_of [default_field 1 2 0] 2) 7 (JArray []) (JArray []) eq_refl eq_refl).
    discriminate.
Defined.

(** ** Strings and trimming *)

Module StringFacts.
Import Bundle.

Lemma len_nonneg s : 0 <= len s.
Proof. unfold len. lia. Qed.

Lemma len_app a b : len (a ++ b) = len a + len b.
Proof. unfold len. rewrite length_app. lia. Qed.

(** Between ordered non-negative bounds, [substring] is [skipn] then
    [firstn]; an end past the string is cut there. *)
Lemma substring_firstn_skipn s a b :
  0 <= a <= b ->
  substring s a b = firstn (Z.to_nat (b - a)) (skipn (Z.to_nat a) s).
Proof.
  intros Hab. unfold substring, clamp.
  pose proof (len_nonneg s) as Hl.
  set (a' := Z.min (Z.max a 0) (len s)). set (b' := Z.min (Z.max b 0) (len s)).
  destruct (Z_le_gt_dec b (len s)) as [Hb|Hb].
  - replace (Z.max a' b' - Z.min a' b') with (b - a) by lia.
    replace (Z.min a' b') with a by lia. reflexivity.
  - destruct (Z_le_gt_dec a (len s)) as [Ha|Ha].
    + replace (Z.max a' b' - Z.min a' b') with (len s - a) by lia.
      replace (Z.min a' b') with a by lia.
      rewrite !firstn_all2; try reflexivity; rewrite length_skipn; unfold len in *; lia.
    + replace (Z.max a' b' - Z.min a' b') with 0 by lia.
      rewrite (skipn_all2 (n := Z.to_nat a)) by (unfold len in *; lia).
      now rewrite firstn_nil.
Qed.

Lemma substring_from_skipn s k :
  0 <= k -> substring_from s k = skipn (Z.to_nat k) s.
Proof.
  intros Hk. unfold substring_from.
  pose proof (len_nonneg s) as Hl.
  destruct (Z_le_gt_dec k (len s)) as [Hle|Hgt].
  - rewrite substring_firstn_skipn by lia.
    apply firstn_all2. rewrite length_skipn. unfold len in *. lia.
  - unfold substring, clamp.
    replace (Z.max (Z.min (Z.max k 0) (len s)) (Z.min (Z.max (len s) 0) (len s))
             - Z.min (Z.min (Z.max k 0) (len s)) (Z.min (Z.max (len s) 0) (len s)))
      with 0 by lia.
    now rewrite (skipn_all2 (n := Z.to_nat k)) by (unfold len in *; lia).
Qed.

Lemma count_pad_le p s : (count_pad p s <= List.length s)%nat.
Proof.
  induction s as [|c s IH]; simpl; [lia|]. destruct (Ascii.eqb c p); simpl; lia.
Qed.

Lemma scan_pad_count p step s : forall index,
  scan_pad s [p] index step = index + step * Z.of_nat (count_pad p s).
Proof.
  induction s as [|c s IH]; intros index; simpl; [lia|].
  rewrite andb_true_r. destruct (Ascii.eqb c p); [rewrite IH|]; lia.
Qed.

Lemma trimStart_skipn p value :
  trimStart value [p] = skipn (count_pad p value) value.
Proof.
  unfold trimStart. rewrite scan_pad_count, substring_from_skipn by lia.
  f_equal. lia.
Qed.

Lemma trimEnd_rev p value :
  trimEnd value [p] = rev (skipn (count_pad p (rev value)) (rev value)).
Proof.
  unfold trimEnd. rewrite scan_pad_count.
  pose proof (count_pad_le p (rev value)) as Hle. rewrite length_rev in Hle.
  rewrite substring_firstn_skipn by (unfold len; lia).
  rewrite skipn_rev, rev_involutive. change (Z.to_nat 0) with O. cbn [skipn].
  f_equal. unfold len. lia.
Qed.

Lemma skip_pad_leading p value :
  strips_leading p value (skipn (count_pad p value) value).
Proof.
  induction value as [|c s (n & Hn & Hh)]; simpl.
  - exists O. split; [reflexivity | discriminate].
  - destruct (Ascii.eqb_spec c p) as [->|Hne].
    + exists (S n). simpl. split; [congruence | assumption].
    + exists O. simpl. split; [reflexivity | congruence].
Qed.

Lemma strips_leading_unique p value out1 out2 :
  strips_leading p value out1 -> strips_leading p value out2 -> out1 = out2.
Proof.
  intros (n & -> & H1) (m & Hm & H2). revert m Hm.
  induction n as [|n IH]; intros [|m] Hm; simpl in Hm.
  - assumption.
  - subst out1. now elim H1.
  - subst out2. now elim H2.
  - injection Hm as Hm. eauto.
Qed.

Lemma strips_trailing_rev p value out :
  strips_trailing p value out <-> strips_leading p (rev value) (rev out).
Proof.
  split; intros (n & Hn & Hh); exists n.
  - subst value. rewrite rev_app_distr, rev_repeat. auto.
  - split; [|assumption].
    apply (f_equal (@rev _)) in Hn.
    rewrite rev_involutive, rev_app_distr, rev_involutive, rev_repeat in Hn. exact Hn.
Qed.

Lemma strips_trailing_unique p value out1 out2 :
  strips_trailing p value out1 -> strips_trailing p value out2 -> out1 = out2.
Proof.
  rewrite !strips_trailing_rev. intros H1 H2.
  pose proof (strips_leading_unique _ _ _ _ H1 H2) as H.
  apply (f_equal (@rev _)) in H. now rewrite !rev_involutive in H.
Qed.

Lemma trimStart_leading p value : strips_leading p value (trimStart value [p]).
Proof. rewrite trimStart_skipn. apply skip_pad_leading. Qed.

Lemma trimEnd_trailing p value : strips_trailing p value (trimEnd value [p]).
Proof.
  rewrite strips_trailing_rev, trimEnd_rev, rev_involutive. apply skip_pad_leading.
Qed.

End StringFacts.

(** C7.  On a slice [value] and the pad character [p], mode ['left'] strips
    the leading [p] only, ['right'] the trailing [p] only, [true] both,
    [false] nothing, and ['auto'] the leading ones of a right-aligned field
    and the trailing ones of a left-aligned field; [true] is what an absent
    trim option becomes. *)
Theorem trimString_follows_mode value p align :
  strips_leading p value (Bundle.trimString value [p] TrimLeft align)
  /\ strips_trailing p value (Bundle.trimString value [p] TrimRight align)
  /\ strips_both p value (Bundle.trimString value [p] TrimTrue align)
  /\ Bundle.trimString value [p] TrimFalse align = value
  /\ strips_leading p value (Bundle.trimString value [p] TrimAuto AlignRight)
  /\ strips_trailing p value (Bundle.trimString value [p] TrimAuto AlignLeft)
  /\ Layout.global_trim (JObject []) = TrimTrue
  /\ Layout.parseTrimOption JUndefined TrimTrue = Ok TrimTrue.
Proof.
  repeat apply conj; try reflexivity; cbn [Bundle.trimString];
    try apply StringFacts.trimStart_leading; try apply StringFacts.trimEnd_trailing.
  exists (Bundle.trimStart value [p]). split.
  - apply StringFacts.trimStart_leading.
  - apply StringFacts.trimEnd_trailing.
Qed.

(** ** The parser *)

(** C8.  The claim holds of every line but one kind: an out-of-range line
    and a yielded line add one to the line counter, an in-range empty line
    is dropped without being counted.  After the single line "\n" the
    counter is still 1; in "a\n\nb\n" the line "b" is counted as line 2
    when the range starts at line 2 (the empty line is in range and not
    counted) and as line 3 when it starts at line 3 (the empty line is out
    of range and counted); and with [to: 2] the line after an empty line
    is still line 2 and is yielded. *)
Theorem empty_line_is_not_counted :
  (exists o p,
     Bundle.parseOptions two_by_two = Ok o
     /\ Bundle.write no_call (Bundle.new_Parser o) [Bundle.LF] = ([], Ok p)
     /\ Bundle.Parser.line p = 1)
  /\ (exists o p,
        Bundle.parseOptions (from_line 2) = Ok o
        /\ Bundle.write no_call (Bundle.new_Parser o) a_empty_b
           = ([JArray [JString (str "b")]], Ok p)
        /\ Bundle.Parser.line p = 3)
  /\ (exists o p,
        Bundle.parseOptions (from_line 3) = Ok o
        /\ Bundle.write no_call (Bundle.new_Parser o) a_empty_b
           = ([JArray [JString (str "b")]], Ok p)
        /\ Bundle.Parser.line p = 4)
  /\ (exists o,
        Bundle.parseOptions two_lines_only = Ok o
        /\ fst (Bundle.parseIterable no_call (Bundle.new_Parser o)
                  [str "ab12" ++ [Bundle.LF; Bundle.LF] ++ str "cd34" ++ [Bundle.LF]])
           = [JArray [JString (str "ab"); JString (str "12")];
              JArray [JString (str "cd"); JString (str "34")]])
  /\ (forall call o totalLines line chunk,
        Bundle.outOfRange o line totalLines = true ->
        Bundle.write_chunk call o totalLines chunk line = ([], Ok (line + 1)))
  /\ (forall call o totalLines line chunk record,
        Bundle.outOfRange o line totalLines = false -> 0 < len chunk ->
        Bundle.parseFields call chunk o line = Ok record ->
        Bundle.write_chunk call o totalLines chunk line = ([record], Ok (line + 1)))
  /\ (forall call o totalLines line,
        Bundle.outOfRange o line totalLines = false ->
        Options.skipEmptyLines o = true ->
        Bundle.write_chunk call o totalLines [] line = ([], Ok line)).
Proof.
  repeat apply conj.
  - do 2 eexists. repeat split; reflexivity.
  - do 2 eexists. repeat split; reflexivity.
  - do 2 eexists. repeat split; reflexivity.
  - eexists. split; reflexivity.
  - intros call o totalLines line chunk Hr. unfold Bundle.write_chunk. now rewrite Hr.
  - intros call o totalLines line chunk record Hr Hlen Hparse. unfold Bundle.write_chunk.
    rewrite Hr, Hparse. destruct (Z.gtb_spec (len chunk) 0); [reflexivity | lia].
  - intros call o totalLines line Hr Hskip. unfold Bundle.write_chunk.
    now rewrite Hr, Hskip.
Qed.

Module EolFacts.
Import Bundle.

Lemma has_crlf_app a b : has_crlf (a ++ CRLF ++ b) = true.
Proof.
  induction a as [|c a IH]; [reflexivity|].
  cbn [app has_crlf]. rewrite IH. apply orb_true_r.
Qed.

Lemma has_crlf_inv text :
  has_crlf text = true -> exists a b, text = a ++ CRLF ++ b.
Proof.
  induction text as [|c text IH]; [discriminate|].
  cbn [has_crlf]. rewrite orb_true_iff. intros [H|H].
  - exists []. cbn [CRLF starts_with] in H.
    destruct text as [|d text]; rewrite ?andb_true_iff, ?Ascii.eqb_eq in H;
      [destruct H; discriminate|].
    destruct H as (<- & <- & _). now exists text.
  - destruct (IH H) as (a & b & ->). now exists (c :: a), b.
Qed.

Lemma no_crlf_false text : no_crlf text -> has_crlf text = false.
Proof.
  intros H. destruct (has_crlf text) eqn:E; [|reflexivity].
  destruct (has_crlf_inv _ E) as (a & b & ->). now elim (H a b).
Qed.

Lemma match_break_first pre c rest : forall index,
  no_break pre -> is_break c = true ->
  match_break (pre ++ c :: rest) index = Some (index + len pre).
Proof.
  induction pre as [|d pre IH]; intros index Hpre Hc; cbn [app match_break].
  - rewrite Hc. f_equal. unfold len; simpl; lia.
  - inversion Hpre as [|? ? Hd Hpre']; subst. rewrite Hd, IH by assumption.
    f_equal. unfold len; cbn [List.length]. lia.
Qed.

Lemma match_break_none s : forall index, no_break s -> match_break s index = None.
Proof.
  induction s as [|c s IH]; intros index Hs; [reflexivity|].
  inversion Hs as [|? ? Hc Hs']; subst. cbn [match_break]. rewrite Hc. now apply IH.
Qed.

Lemma char_at_app pre c rest :
  char_at (pre ++ c :: rest) (len pre) = Some c.
Proof.
  unfold char_at, len.
  destruct (Z.ltb_spec (Z.of_nat (List.length pre)) 0); [lia|].
  rewrite Nat2Z.id, nth_error_app2, Nat.sub_diag by lia. reflexivity.
Qed.

Lemma write_keeps_options call p input p' :
  Options.eol (Parser.options p) <> [] ->
  snd (write call p input) = Ok p' ->
  Parser.options p' = Parser.options p.
Proof.
  unfold write. destruct (Options.eol (Parser.options p)) as [|c eol] eqn:E; [congruence|].
  intros _. rewrite E. unfold then_gen.
  destruct (snd (write_chunks _ _ _ _ _)); cbn [snd]; intros H; try discriminate.
  injection H as <-. reflexivity.
Qed.

End EolFacts.

(** C9 (as amended).  With no configured convention, [write] looks at the
    accumulated buffer: "\r\n" anywhere in it gives "\r\n"; otherwise the
    first line-break character decides — "\n" gives "\n", "\r" followed by
    more content gives "\r", and "\r" at the very end, or no line break,
    gives nothing yet.  A convention, once set, is kept by every later
    [write]. *)
Theorem eol_detection call text pre rest c p input p' :
  ((exists a b, text = a ++ Bundle.CRLF ++ b) ->
   Bundle.guessEndOfLine text = Some Bundle.CRLF)
  /\ (no_crlf text -> no_break pre -> text = pre ++ Bundle.LF :: rest ->
      Bundle.guessEndOfLine text = Some [Bundle.LF])
  /\ (no_crlf text -> no_break pre -> text = pre ++ Bundle.CR :: c :: rest ->
      Bundle.guessEndOfLine text = Some [Bundle.CR])
  /\ (no_break pre -> text = pre ++ [Bundle.CR] \/ text = pre ->
      Bundle.guessEndOfLine text = None)
  /\ (Options.eol (Bundle.Parser.options p) = [] ->
      snd (Bundle.write call p input) = Ok p' ->
      Options.eol (Bundle.Parser.options p') =
      match Bundle.guessEndOfLine (Bundle.Parser.text p ++ input) with
      | Some eol => eol
      | None => []
      end)
  /\ (Options.eol (Bundle.Parser.options p) <> [] ->
      snd (Bundle.write call p input) = Ok p' ->
      Bundle.Parser.options p' = Bundle.Parser.options p).
Proof.
  repeat apply conj.
  - intros (a & b & ->). unfold Bundle.guessEndOfLine.
    now rewrite EolFacts.has_crlf_app.
  - intros Hn Hpre ->. unfold Bundle.guessEndOfLine.
    rewrite (EolFacts.no_crlf_false _ Hn), EolFacts.match_break_first by auto.
    unfold char_at_is. cbn [Z.add]. now rewrite EolFacts.char_at_app.
  - intros Hn Hpre ->. unfold Bundle.guessEndOfLine.
    rewrite (EolFacts.no_crlf_false _ Hn), EolFacts.match_break_first by auto.
    unfold char_at_is. cbn [Z.add]. rewrite EolFacts.char_at_app.
    cbn [str_eqb]. change (Ascii.eqb Bundle.CR Bundle.LF) with false. cbn [andb].
    rewrite StringFacts.len_app.
    destruct (Z.gtb_spec (len pre + len (Bundle.CR :: c :: rest)) (len pre + 1));
      [reflexivity|].
    unfold len in *. cbn [List.length] in *. lia.
  - intros Hpre [-> | ->]; unfold Bundle.guessEndOfLine.
    + assert (Hn : no_crlf (pre ++ [Bundle.CR])).
      { intros a b H. apply (f_equal (@rev _)) in H.
        rewrite !rev_app_distr in H. cbn [rev app Bundle.CRLF] in H.
        rewrite <- !app_assoc in H. cbn [app] in H.
        destruct (rev b) as [|x rb] eqn:Eb; cbn [app] in H.
        - injection H as H _. discriminate.
        - injection H as _ H.
          assert (Hin : In Bundle.LF (rev pre)).
          { rewrite H. apply in_or_app. right. cbn. auto. }
          apply in_rev in Hin. unfold no_break in Hpre.
          rewrite Forall_forall in Hpre. specialize (Hpre _ Hin). discriminate. }
      rewrite (EolFacts.no_crlf_false _ Hn), EolFacts.match_break_first by auto.
      unfold char_at_is. cbn [Z.add]. rewrite EolFacts.char_at_app.
      cbn [str_eqb]. change (Ascii.eqb Bundle.CR Bundle.LF) with false. cbn [andb].
      rewrite StringFacts.len_app.
      destruct (Z.gtb_spec (len pre + len [Bundle.CR]) (len pre + 1)); [|reflexivity].
      unfold len in *. cbn [List.length] in *. lia.
    + assert (Hn : Bundle.has_crlf pre = false).
      { destruct (Bundle.has_crlf pre) eqn:E; [|reflexivity].
        destruct (EolFacts.has_crlf_inv _ E) as (a & b & ->).
        unfold no_break in Hpre. rewrite Forall_forall in Hpre.
        specialize (Hpre Bundle.CR). rewrite in_app_iff in Hpre. cbn in Hpre.
        discriminate Hpre. auto. }
      now rewrite Hn, EolFacts.match_break_none.
  - intros Heol. unfold Bundle.write. rewrite Heol.
    destruct (Bundle.guessEndOfLine _) as [eol|].
    + destruct (Options.eol (Options.with_eol _ eol)) eqn:E; cbn [snd].
      * intros H; injection H as <-. reflexivity.
      * unfold Bundle.then_gen.
        destruct (snd (Bundle.write_chunks _ _ _ _ _)); cbn [snd]; intros H; try discriminate.
        injection H as <-. reflexivity.
    + rewrite Heol. cbn [snd]. intros H; injection H as <-. exact Heol.
  - apply EolFacts.write_keeps_options.
Qed.

Lemma eol_detection_witness :
  Bundle.guessEndOfLine (str "ab" ++ Bundle.CRLF ++ str "cd") = Some Bundle.CRLF
  /\ Bundle.guessEndOfLine (str "ab" ++ Bundle.LF :: str "cd") = Some [Bundle.LF]
  /\ Bundle.guessEndOfLine (str "ab" ++ Bundle.CR :: "c"%char :: str "d") = Some [Bundle.CR]
  /\ Bundle.guessEndOfLine (str "ab" ++ [Bundle.CR]) = None
  /\ Options.eol
       (Bundle.Parser.options
          (Bundle.Parser.make
             (Options.with_eol (layout_of [default_field 1 2 0] 2) [Bundle.LF]) 2 (str "a") 2))
     = [Bundle.LF]
  /\ Bundle.Parser.options
       (Bundle.Parser.make
          (Options.with_eol (layout_of [default_field 1 2 0] 2) [Bundle.LF]) 2 (str "a") 2)
     = Options.with_eol (layout_of [default_field 1 2 0] 2) [Bundle.LF].
Proof.
  assert (Hpre : no_break (str "ab")) by (repeat constructor).
  assert (Hno : forall s, Bundle.has_crlf s = false -> no_crlf s).
  { intros s Hs a b ->. now rewrite EolFacts.has_crlf_app in Hs. }
  repeat apply conj.
  - apply (proj1 (eol_detection no_call (str "ab" ++ Bundle.CRLF ++ str "cd")
                    [] [] "c"%char (Bundle.new_Parser (layout_of [] 0)) []
                    (Bundle.new_Parser (layout_of [] 0)))).
    now exists (str "ab"), (str "cd").
  - apply (proj1 (proj2 (eol_detection no_call (str "ab" ++ Bundle.LF :: str "cd")
                           (str "ab") (str "cd") "c"%char
                           (Bundle.new_Parser (layout_of [] 0)) []
                           (Bundle.new_Parser (layout_of [] 0)))));
      [apply Hno; reflexivity | exact Hpre | reflexivity].
  - apply (proj1 (proj2 (proj2 (eol_detection no_call
                                  (str "ab" ++ Bundle.CR :: "c"%char :: str "d")
                                  (str "ab") (str "d") "c"%char
                                  (Bundle.new_Parser (layout_of [] 0)) []
                                  (Bundle.new_Parser (layout_of [] 0))))));
      [apply Hno; reflexivity | exact Hpre | reflexivity].
  - apply (proj1 (proj2 (proj2 (proj2 (eol_detection no_call (str "ab" ++ [Bundle.CR])
                                         (str "ab") [] "c"%char
                                         (Bundle.new_Parser (layout_of [] 0)) []
                                         (Bundle.new_Parser (layout_of [] 0)))))));
      [exact Hpre | left; reflexivity].
  - apply (proj1 (proj2 (proj2 (proj2 (proj2
             (eol_detection no_call [] [] [] "c"%char
                (Bundle.new_Parser (layout_of [default_field 1 2 0] 2))
                (str "ab" ++ [Bundle.LF] ++ str "a")
                (Bundle.Parser.make
                   (Options.with_eol (layout_of [default_field 1 2 0] 2) [Bundle.LF])
                   2 (str "a") 2)))))));
      [reflexivity|].
    vm_compute. reflexivity.
  - apply (proj2 (proj2 (proj2 (proj2 (proj2
             (eol_detection no_call [] [] [] "c"%char
                (Bundle.new_Parser
                   (Options.with_eol (layout_of [default_field 1 2 0] 2) [Bundle.LF]))
                (str "ab" ++ Bundle.CRLF ++ str "a")
                (Bundle.Parser.make
                   (Options.with_eol (layout_of [default_field 1 2 0] 2) [Bundle.LF])
                   2 (str "a") 2)))))));
      [discriminate|].
    vm_compute. reflexivity.
Defined.

(** C9, as stated, fails: in "a\rb\nc" there is no "\r\n" and there is a
    "\n", and the detected convention is "\r". *)
Lemma first_break_wins_over_priority :
  guess_by_priority mixed_breaks = Some [Bundle.LF]
  /\ Bundle.guessEndOfLine mixed_breaks = Some [Bundle.CR].
Proof.
  split; reflexivity.
Qed.

(** ** Splitting lines across chunks *)

Module SplitFacts.
Import Bundle.

Lemma split_skip_skipn sep s : forall k,
  split_skip sep k s = split_skip sep 0 (skipn k s).
Proof.
  induction s as [|c s IH]; intros [|k]; try reflexivity.
  cbn [split_skip skipn]. apply IH.
Qed.

Lemma split_cons sep c s :
  sep <> [] ->
  split (c :: s) sep =
  if starts_with sep (c :: s)
  then [] :: split (skipn (List.length sep) (c :: s)) sep
  else add_head c (split s sep).
Proof.
  intros Hsep. unfold split. cbn [split_skip].
  destruct (starts_with sep (c :: s)); [|reflexivity].
  rewrite split_skip_skipn. destruct sep; [congruence | reflexivity].
Qed.

Lemma split_nonempty sep s : split s sep <> [].
Proof.
  unfold split. generalize 0%nat. induction s as [|c s IH]; intros k; cbn [split_skip].
  - discriminate.
  - destruct k; [|apply IH].
    destruct (starts_with sep (c :: s)); [discriminate|].
    specialize (IH 0%nat). destruct (split_skip sep 0 s); [congruence | discriminate].
Qed.





Lemma split_single sep : sep <> [] -> forall s x, split s sep = [x] -> x = s.
Proof.
  intros Hsep. induction s as [|c s IH]; intros x.
  - unfold split; simpl. congruence.
  - rewrite split_cons by assumption.
    destruct (starts_with sep (c :: s)).
    + intros H. injection H as _ H. now apply split_nonempty in H.
    + destruct (split s sep) as [|y [|z l]] eqn:E; cbn [add_head]; try discriminate.
      * now apply split_nonempty in E.
      * intros H; injection H as <-. f_equal. now apply IH.
Qed.

Lemma last_cons_nonempty (A : Type) (x : A) l d : l <> [] -> last (x :: l) d = last l d.
Proof. destruct l; [congruence | reflexivity]. Qed.

Lemma removelast_cons_nonempty (A : Type) (x : A) l :
  l <> [] -> removelast (x :: l) = x :: removelast l.
Proof. destruct l; [congruence | reflexivity]. Qed.



End SplitFacts.

Module ParserFacts.
Import Bundle.

Section WithCall.
Variable call : nat -> list JsValue -> result JsValue.

Lemma then_gen_assoc (A B C : Type) (g : gen A) (k1 : A -> gen B) (k2 : B -> gen C) :
  then_gen (then_gen g k1) k2 = then_gen g (fun a => then_gen (k1 a) k2).
Proof.
  unfold then_gen. destruct g as [ys [a| |]]; cbn [fst snd]; try reflexivity.
  destruct (k1 a) as [zs [b| |]]; cbn [fst snd]; try reflexivity.
  now rewrite app_assoc.
Qed.

Lemma then_gen_ext (A B : Type) (g : gen A) (k1 k2 : A -> gen B) :
  (forall a, snd g = Ok a -> k1 a = k2 a) -> then_gen g k1 = then_gen g k2.
Proof.
  unfold then_gen. destruct g as [ys [a| |]]; cbn [fst snd]; intros H; try reflexivity.
  now rewrite (H a eq_refl).
Qed.

Lemma then_gen_pure (A B : Type) (a : A) (k : A -> gen B) :
  then_gen ([], Ok a) k = k a.
Proof.
  unfold then_gen. cbn [fst snd app]. now destruct (k a).
Qed.



Lemma write_chunks_app o t a : forall b line,
  write_chunks call o t (a ++ b) line =
  then_gen (write_chunks call o t a line) (write_chunks call o t b).
Proof.
  induction a as [|chunk a IH]; intros b line; cbn [app write_chunks].
  - now rewrite then_gen_pure.
  - rewrite then_gen_assoc. apply then_gen_ext. intros l _. apply IH.
Qed.






(** *** Detection on text without "\r" *)










End WithCall.

End ParserFacts.




(** ** Round trip *)

Module GeometryFacts.
Import Layout Spec LayoutFacts.

Lemma disjoint_sym f g : disjoint f g -> disjoint g f.
Proof. unfold disjoint. tauto. Qed.

Lemma insert_perm f l : Permutation (insert_by_column f l) (f :: l).
Proof.
  induction l as [|g l IH]; simpl; [reflexivity|].
  destruct (_ <=? _); [reflexivity|].
  rewrite IH. apply perm_swap.
Qed.

Lemma sort_perm l : Permutation (sort_by_column l) l.
Proof.
  induction l as [|f l IH]; simpl; [reflexivity|].
  rewrite insert_perm. now constructor.
Qed.

Lemma all_disjoint_perm l l' :
  Permutation l l' -> all_disjoint l -> all_disjoint l'.
Proof.
  induction 1 as [|x l l' Hp IH|x y l|l l' l'' _ IH1 _ IH2]; cbn [all_disjoint].
  - trivial.
  - intros [Hx Hl]. split; [|auto]. eapply Permutation_Forall; eassumption.
  - intros [Hy [Hx Hl]]. inversion Hy as [|? ? Hyx Hyl]; subst.
    repeat split; try assumption.
    constructor; [now apply disjoint_sym | assumption].
  - auto.
Qed.

Lemma separate_bounds l : forall column,
  Forall normal l -> separate_from column l = true ->
  column <= cover_end column l
  /\ Forall (fun f => column <= Field.column f
                      /\ Field.column f + Field.width f <= cover_end column l) l.
Proof.
  induction l as [|f l IH]; intros column Hn Hs; cbn [cover_end].
  - split; [lia | constructor].
  - inversion Hn as [|? ? [Hw Hc] Hn']; subst.
    cbn [separate_from] in Hs. rewrite andb_true_iff, Z.leb_le in Hs.
    destruct Hs as [Hle Hs]. destruct (IH _ Hn' Hs) as [Hend Hall].
    split; [lia|]. constructor; [lia|].
    eapply Forall_impl; [|exact Hall]. cbv beta. intros g Hg. lia.
Qed.

Lemma separate_disjoint l : forall column,
  Forall normal l -> separate_from column l = true -> all_disjoint l.
Proof.
  induction l as [|f l IH]; intros column Hn Hs; cbn [all_disjoint]; [trivial|].
  inversion Hn as [|? ? [Hw Hc] Hn']; subst.
  cbn [separate_from] in Hs. rewrite andb_true_iff in Hs. destruct Hs as [_ Hs].
  split; [|eauto].
  destruct (separate_bounds _ _ Hn' Hs) as [_ Hall].
  eapply Forall_impl; [|exact Hall]. cbv beta. intros g Hg. left. lia.
Qed.

(** An accepted layout: the fields are pairwise apart and inside the
    line. *)
Lemma getWidth_geometry fields width :
  Forall normal fields -> getWidth fields = Ok width ->
  all_disjoint fields /\ Forall (in_line width) fields /\ 0 <= width.
Proof.
  intros Hn Hw. pose proof (getWidth_safe _ _ Hn Hw) as Hsafe. revert Hw.
  rewrite (getWidth_normal _ Hn Hsafe).
  destruct fields as [|f l]; [discriminate|].
  unfold non_overlapping, last_end.
  destruct (separate_from 1 _) eqn:Hs; [|discriminate].
  intros H; injection H as <-.
  pose proof (sort_normal _ Hn) as Hsn.
  rewrite <- (cover_end_last _ 1) by apply sort_nonempty.
  destruct (separate_bounds _ _ Hsn Hs) as [Hend Hall].
  change (insert_by_column f (sort_by_column l)) with (sort_by_column (f :: l)).
  split; [|split].
  - apply (all_disjoint_perm _ _ (sort_perm _)). eapply separate_disjoint; eassumption.
  - apply (Permutation_Forall (sort_perm _)).
    eapply Forall_impl; [|exact Hall]. cbv beta. unfold in_line. intros g Hg. lia.
  - lia.
Qed.

End GeometryFacts.

Module WindowFacts.
Import Bundle StringFacts.

Lemma filler_repeat p n : filler n [p] [p] = repeat p n.
Proof.
  assert (H : forall k, filler k [p] [] = repeat p k).
  { induction k as [|k IH]; [reflexivity|]. cbn [filler repeat]. now rewrite IH. }
  destruct n as [|n]; [reflexivity|]. cbn [filler repeat]. now rewrite H.
Qed.

Lemma len_repeat p n : len (repeat p n) = Z.of_nat n.
Proof. unfold len. now rewrite repeat_length. Qed.

Lemma window_exact (a v b : jsstr) :
  window (List.length a) (List.length v) (a ++ v ++ b) = v.
Proof.
  unfold window. rewrite skipn_app, Nat.sub_diag, skipn_all. cbn [app skipn].
  rewrite firstn_app, Nat.sub_diag, firstn_all. cbn [firstn]. apply app_nil_r.
Qed.

Lemma window_before a n (s x : jsstr) :
  (a + n <= List.length s)%nat -> window a n (s ++ x) = window a n s.
Proof.
  intros H. unfold window. rewrite skipn_app, firstn_app, length_skipn.
  replace (n - (List.length s - a))%nat with 0%nat by lia.
  cbn [firstn]. apply app_nil_r.
Qed.

Lemma window_after a n (s x : jsstr) :
  (List.length s <= a)%nat -> window a n (s ++ x) = window (a - List.length s) n x.
Proof.
  intros H. unfold window. rewrite skipn_app, skipn_all2 by lia. reflexivity.
Qed.

Lemma substring_window s a n :
  0 <= a -> 0 <= n ->
  substring s a (a + n) = window (Z.to_nat a) (Z.to_nat n) s.
Proof.
  intros Ha Hn. rewrite substring_firstn_skipn by lia. unfold window.
  do 2 f_equal. lia.
Qed.

Lemma replaceWith_parts text value index :
  0 <= index ->
  replaceWith text value index =
  firstn (Z.to_nat index) text ++ value
    ++ skipn (Z.to_nat index + List.length value) text.
Proof.
  intros Hi. unfold replaceWith.
  rewrite substring_firstn_skipn by lia.
  rewrite substring_from_skipn by (pose proof (len_nonneg value); lia).
  change (Z.to_nat 0) with 0%nat. cbn [skipn]. rewrite Z.sub_0_r.
  do 3 f_equal. unfold len. lia.
Qed.

Lemma replaceWith_len text value index :
  0 <= index -> index + len value <= len text ->
  len (replaceWith text value index) = len text.
Proof.
  intros Hi Hl. rewrite replaceWith_parts by assumption. unfold len in *.
  rewrite !length_app, length_firstn, length_skipn. lia.
Qed.

Lemma replaceWith_same text value index :
  0 <= index -> index + len value <= len text ->
  window (Z.to_nat index) (List.length value) (replaceWith text value index) = value.
Proof.
  intros Hi Hl. rewrite replaceWith_parts by assumption.
  set (a := firstn (Z.to_nat index) text).
  replace (Z.to_nat index) with (List.length a) at 1.
  - apply window_exact.
  - unfold a. rewrite length_firstn. unfold len in *. lia.
Qed.

Lemma replaceWith_other text value index a n :
  0 <= index -> index + len value <= len text ->
  (a + n <= Z.to_nat index)%nat \/ (Z.to_nat index + List.length value <= a)%nat ->
  window a n (replaceWith text value index) = window a n text.
Proof.
  intros Hi Hl Hd. rewrite replaceWith_parts by assumption.
  set (i := Z.to_nat index). set (m := List.length value).
  assert (Hlen : (i + m <= List.length text)%nat) by (unfold i, m, len in *; lia).
  destruct Hd as [Hb|Ha].
  - assert (Ht : window a n text = window a n (firstn i text)).
    { rewrite <- (firstn_skipn i text) at 1.
      apply window_before. rewrite length_firstn. lia. }
    rewrite Ht. apply window_before. rewrite length_firstn. lia.
  - assert (Ht : window a n text = window (a - (i + m)) n (skipn (i + m) text)).
    { rewrite <- (firstn_skipn (i + m) text) at 1.
      rewrite window_after by (rewrite length_firstn; lia).
      rewrite length_firstn. f_equal. lia. }
    rewrite Ht, app_assoc, window_after by (rewrite length_app, length_firstn; lia).
    rewrite length_app, length_firstn. fold m. f_equal. lia.
Qed.

End WindowFacts.

Module RoundTripFacts.
Import Bundle StringFacts WindowFacts.

Lemma padded_left f v p :
  Field.pad f = [p] -> Field.align f = AlignLeft ->
  padded f v = v ++ repeat p (Z.to_nat (Field.width f - len v)).
Proof.
  intros Hp Ha. unfold padded, padEnd. now rewrite Ha, Hp, filler_repeat.
Qed.

Lemma padded_right f v p :
  Field.pad f = [p] -> Field.align f = AlignRight ->
  padded f v = repeat p (Z.to_nat (Field.width f - len v)) ++ v.
Proof.
  intros Hp Ha. unfold padded, padStart. now rewrite Ha, Hp, filler_repeat.
Qed.

Lemma padded_len f v p :
  Field.pad f = [p] -> len v <= Field.width f -> len (padded f v) = Field.width f.
Proof.
  intros Hp Hl. pose proof (len_nonneg v).
  destruct (Field.align f) eqn:Ha;
    [rewrite (padded_left f v p) | rewrite (padded_right f v p)]; try assumption;
    rewrite len_app, len_repeat; lia.
Qed.

Lemma trimStart_is p value out :
  strips_leading p value out -> trimStart value [p] = out.
Proof.
  intros H. eapply strips_leading_unique; [apply trimStart_leading | exact H].
Qed.

Lemma trimEnd_is p value out :
  strips_trailing p value out -> trimEnd value [p] = out.
Proof.
  intros H. eapply strips_trailing_unique; [apply trimEnd_trailing | exact H].
Qed.

Lemma trimStart_keeps p v : hd_error v <> Some p -> trimStart v [p] = v.
Proof. intros H. apply trimStart_is. now exists 0%nat. Qed.

Lemma trimEnd_keeps p v : hd_error (rev v) <> Some p -> trimEnd v [p] = v.
Proof.
  intros H. apply trimEnd_is. exists 0%nat. now rewrite app_nil_r.
Qed.

Lemma trimStart_pads p n v :
  hd_error v <> Some p -> trimStart (repeat p n ++ v) [p] = v.
Proof. intros H. apply trimStart_is. now exists n. Qed.

Lemma trimEnd_pads p n v :
  hd_error (rev v) <> Some p -> trimEnd (v ++ repeat p n) [p] = v.
Proof. intros H. apply trimEnd_is. now exists n. Qed.

Lemma hd_error_app (v w : jsstr) : v <> [] -> hd_error (v ++ w) = hd_error v.
Proof. destruct v; [congruence | reflexivity]. Qed.

(** Trimming gives back a value that [fits]. *)
Lemma trim_padded f v p :
  Field.pad f = [p] -> fits f v ->
  trimString (padded f v) [p] (Field.trim f) (Field.align f) = v.
Proof.
  intros Hp (Hlen & Hlead & Htrail & Hside).
  assert (Hc : pad_char f = p) by (unfold pad_char; now rewrite Hp).
  rewrite Hc in Hlead, Htrail.
  pose proof (len_nonneg v) as Hv.
  destruct (Z_lt_le_dec (len v) (Field.width f)) as [Hshort|Hfull].
  - specialize (Hside Hshort).
    unfold pads_are_trimmed, trims_leading, trims_trailing in *.
    destruct (Field.align f) eqn:Ha;
      [rewrite (padded_left f v p) by assumption
      | rewrite (padded_right f v p) by assumption];
      destruct (Field.trim f); try discriminate; cbn [trimString]; unfold trim.
    + destruct v as [|c v].
      * cbn [app]. rewrite <- (app_nil_r (repeat p _)).
        rewrite trimStart_pads by discriminate. now apply trimEnd_keeps.
      * rewrite trimStart_keeps by (rewrite hd_error_app by discriminate; auto).
        auto using trimEnd_pads.
    + auto using trimEnd_pads.
    + auto using trimEnd_pads.
    + rewrite trimStart_pads by auto. auto using trimEnd_keeps.
    + auto using trimStart_pads.
    + auto using trimStart_pads.
  - assert (Hn : Z.to_nat (Field.width f - len v) = 0%nat) by lia.
    assert (Hpad : padded f v = v).
    { destruct (Field.align f) eqn:Ha;
        [rewrite (padded_left f v p) by assumption
        | rewrite (padded_right f v p) by assumption];
        rewrite Hn; cbn [repeat app]; rewrite ?app_nil_r; reflexivity. }
    rewrite Hpad. unfold trims_leading, trims_trailing in *.
    destruct (Field.trim f), (Field.align f); cbn [trimString]; unfold trim;
      rewrite ?trimStart_keeps by auto; auto using trimStart_keeps, trimEnd_keeps.
Qed.

Section WithCall.
Variable call : nat -> list JsValue -> result JsValue.
Variable buf : list Z -> jsstr -> result jsstr.

Lemma stringifyField_fits obj f o line v p :
  no_hooks f -> Field.pad f = [p] ->
  get_property obj (Field.property f) = JString v ->
  len v <= Field.width f ->
  stringifyField call buf obj f o line = Ok (padded f v).
Proof.
  intros [_ Hs] Hp Hg Hl. unfold stringifyField, padded.
  rewrite Hs, Hg. cbn [bind stringifyValue typeof_is typeof negb andb is_null
                         stringifyPrimitiveValue str_of].
  destruct (Z.gtb_spec (len v) (Field.width f)); [lia|].
  destruct (Field.align f); reflexivity.
Qed.

Lemma stringify_loop_splice obj o line fields values :
  Forall2 (fun f v => stringifyField call buf obj f o line = Ok (padded f v))
    fields values ->
  forall text,
    stringify_loop call buf obj fields o line text
    = Ok (splice (combine fields values) text).
Proof.
  induction 1 as [|f v fields values Hf _ IH]; intros text; [reflexivity|].
  cbn [stringify_loop combine splice]. rewrite Hf. cbn [bind]. apply IH.
Qed.

Lemma parse_array_strings text o line fields values :
  Forall2 (fun f v =>
             Field.cast f = None
             /\ trimString
                  (substring text (Field.column f - 1)
                     (Field.column f - 1 + Field.width f))
                  (Field.pad f) (Field.trim f) (Field.align f) = v)
    fields values ->
  parse_array call text fields o line = Ok (map JString values).
Proof.
  induction 1 as [|f v fields values [Hc Hv] _ IH]; [reflexivity|].
  cbn [parse_array map]. unfold parseField. rewrite Hc, Hv. cbn [bind].
  now rewrite IH.
Qed.

End WithCall.

Lemma splice_len width fields values :
  Forall2 (placed width) fields values ->
  forall text, len text = width -> len (splice (combine fields values) text) = width.
Proof.
  induction 1 as [|f v fields values ([Hw Hc] & [Hlo Hhi] & Hp) _ IH];
    intros text Ht; [assumption|].
  cbn [combine splice]. apply IH.
  rewrite replaceWith_len; [assumption | lia | lia].
Qed.

Lemma splice_keeps width g fields values :
  normal g ->
  Forall2 (placed width) fields values ->
  Forall (disjoint g) fields ->
  forall text, len text = width ->
    window (Z.to_nat (Field.column g - 1)) (Z.to_nat (Field.width g))
      (splice (combine fields values) text)
    = window (Z.to_nat (Field.column g - 1)) (Z.to_nat (Field.width g)) text.
Proof.
  intros [Hgw Hgc].
  induction 1 as [|f v fields values ([Hw Hc] & [Hlo Hhi] & Hp) _ IH];
    intros Hd text Ht; [reflexivity|].
  inversion Hd as [|? ? Hgf Hd']; subst.
  cbn [combine splice]. rewrite IH.
  - apply replaceWith_other; [lia | lia |].
    assert (Hm : Z.of_nat (List.length (padded f v)) = Field.width f) by exact Hp.
    destruct Hgf as [H|H]; [left | right]; lia.
  - assumption.
  - rewrite replaceWith_len; [reflexivity | lia | lia].
Qed.

Lemma splice_reads width fields values :
  Forall2 (placed width) fields values ->
  all_disjoint fields ->
  forall text, len text = width ->
    Forall2 (fun f v =>
               substring (splice (combine fields values) text)
                 (Field.column f - 1) (Field.column f - 1 + Field.width f)
               = padded f v)
      fields values.
Proof.
  induction 1 as [|f v fields values Hf Hrest IH]; intros Hd text Ht;
    [constructor|].
  destruct Hd as [Hdf Hd]. pose proof Hf as ([Hw Hc] & [Hlo Hhi] & Hp).
  assert (Hm : Z.of_nat (List.length (padded f v)) = Field.width f) by exact Hp.
  assert (Ht' : len (Bundle.replaceWith text (padded f v) (Field.column f - 1)) = len text)
    by (apply replaceWith_len; lia).
  constructor.
  - cbn [combine splice]. rewrite substring_window by lia.
    rewrite (splice_keeps width f);
      [| split; assumption | assumption | assumption | congruence].
    replace (Z.to_nat (Field.width f)) with (List.length (padded f v)) by lia.
    apply replaceWith_same; lia.
  - cbn [combine splice]. apply IH; [assumption | congruence].
Qed.

End RoundTripFacts.

Module ShapeFacts.
Import Layout.

Lemma parseField_shape field index column pad trim f :
  parseField field index column pad trim = Ok f ->
  len (Field.pad f) = 1
  /\ (Field.property f = PIndex index \/ exists k, Field.property f = PKey k).
Proof.
  unfold parseField.
  repeat match goal with
         | |- (if ?c then _ else _) = _ -> _ => destruct c eqn:?; [discriminate|]
         end.
  destruct (parseTrimOption _ _); cbn [bind]; try discriminate.
  intros H; injection H as <-. cbn [Field.pad Field.property]. split.
  - rewrite negb_false_iff in *. now apply Z.eqb_eq.
  - destruct (isPropertyKey _); eauto.
Qed.

Lemma parseFields_from_shape items : forall i column pad trim fields,
  parseFields_from items i column pad trim = Ok fields ->
  Forall (fun f => len (Field.pad f) = 1) fields /\ keyed_or_indexed i fields.
Proof.
  induction items as [|item rest IH]; cbn [parseFields_from];
    intros i column pad trim fields H.
  - injection H as <-. split; [constructor | exact I].
  - destruct (parseField item i column pad trim) as [f| |] eqn:Hf; cbn [bind] in H;
      try discriminate.
    destruct (Number_add column (Field.width f)) as [next| |]; cbn [bind] in H;
      try discriminate.
    destruct (parseFields_from rest _ _ _ _) as [fs| |] eqn:Hfs; cbn [bind] in H;
      try discriminate.
    injection H as <-. destruct (parseField_shape _ _ _ _ _ _ Hf) as [Hp Hk].
    destruct (IH _ _ _ _ _ Hfs) as [Hps Hks].
    split; [constructor; assumption | split; assumption].
Qed.

Lemma count_from_ge l : forall acc,
  acc <= fold_left
           (fun acc field =>
              acc + match Field.property field with PIndex _ => 0 | PKey _ => 1 end)
           l acc.
Proof.
  induction l as [|f l IH]; intros acc; cbn [fold_left]; [lia|].
  specialize (IH (acc + match Field.property f with PIndex _ => 0 | PKey _ => 1 end)).
  destruct (Field.property f); lia.
Qed.

Lemma no_property_indexed l : forall i acc,
  keyed_or_indexed i l ->
  fold_left
    (fun acc field =>
       acc + match Field.property field with PIndex _ => 0 | PKey _ => 1 end)
    l acc <= acc ->
  indexed i l.
Proof.
  induction l as [|f l IH]; intros i acc Hk Hc; [exact I|].
  destruct Hk as [Hf Hk]. cbn [fold_left] in Hc.
  pose proof (count_from_ge l
                (acc + match Field.property f with PIndex _ => 0 | PKey _ => 1 end)) as Hge.
  split.
  - destruct Hf as [Hf|[k Hf]]; [exact Hf|]. rewrite Hf in *. lia.
  - apply (IH _ (acc + match Field.property f with PIndex _ => 0 | PKey _ => 1 end));
      [assumption|]. destruct (Field.property f); lia.
Qed.

(** What a positional layout out of [parseOptions] is made of. *)
Lemma positional_layout options o :
  Bundle.parseOptions options = Ok o -> Options.output o = OutArray ->
  Forall normal (Options.fields o)
  /\ Forall (fun f => len (Field.pad f) = 1) (Options.fields o)
  /\ indexed 0 (Options.fields o)
  /\ getWidth (Options.fields o) = Ok (Options.width o)
  /\ len (Options.pad o) = 1.
Proof.
  intros H Hout. apply OptionsFacts.bundle_parseOptions_inv in H.
  destruct H as (encoding & eol & from & to & pad & properties
                 & Hf & Hw & Hpad & Hprop & _ & Ho).
  pose proof (f_equal Options.output Ho) as Ho1.
  pose proof (f_equal Options.pad Ho) as Ho2.
  cbn [build Options.output Options.pad] in Ho1, Ho2.
  rewrite Hout in Ho1.
  destruct (Z.gtb_spec properties 0) as [|Hle]; [discriminate|].
  destruct (prop (as_options options) "fields") as [| | | | | | | | |items| |];
    try discriminate.
  cbn [parseFields] in Hf.
  destruct (parseFields_from_shape _ _ _ _ _ _ Hf) as [Hpads Hk].
  repeat split.
  - eapply LayoutFacts.parseFields_from_normal, Hf.
  - assumption.
  - apply (no_property_indexed _ 0%nat 0); [assumption|].
    unfold count_properties in Hprop. lia.
  - assumption.
  - now rewrite Ho2.
Qed.

End ShapeFacts.

Module RecordFacts.
Import Bundle.

Lemma len_one (s : jsstr) : len s = 1 -> exists c, s = [c].
Proof.
  destruct s as [|c [|d s]]; unfold len; cbn [List.length]; try lia.
  intros _. now exists c.
Qed.

Lemma Forall2_with (A B : Type) (P : A -> Prop) (R : A -> B -> Prop) l l' :
  Forall P l -> Forall2 R l l' -> Forall2 (fun a b => P a /\ R a b) l l'.
Proof.
  intros HP HR. revert HP.
  induction HR as [|a b l l' Hab _ IH]; intros HP; [constructor|].
  inversion HP; subst. constructor; auto.
Qed.

Lemma Forall2_both (A B : Type) (R S : A -> B -> Prop) l l' :
  Forall2 R l l' -> Forall2 S l l' -> Forall2 (fun a b => R a b /\ S a b) l l'.
Proof.
  intros HR. induction HR as [|a b l l' Hab _ IH]; intros HS; [constructor|].
  inversion HS; subst. constructor; auto.
Qed.

(** A positional record read at the fields' properties. *)
Lemma get_indexed (R : Field.t -> jsstr -> Prop) fields values :
  Forall2 R fields values ->
  forall before record,
    record = before ++ values ->
    indexed (List.length before) fields ->
    Forall2 (fun f v =>
               get_property (JArray (map JString record)) (Field.property f)
               = JString v)
      fields values.
Proof.
  induction 1 as [|f v fields values _ _ IH]; intros before record Hr Hi;
    [constructor|].
  destruct Hi as [Hf Hi]. constructor.
  - rewrite Hf, Hr. cbn [get_property get_index].
    rewrite map_app, app_nth2, length_map, Nat.sub_diag by (rewrite length_map; lia).
    reflexivity.
  - apply (IH (before ++ [v])).
    + now rewrite <- app_assoc.
    + rewrite length_app. cbn [List.length]. now rewrite Nat.add_1_r.
Qed.

End RecordFacts.

(** C1 (as amended).  For options accepted by [parseOptions] with
    positional output and fields that run no function of the caller's, and a
    record of strings
    that fit their fields — within the width, no pad character on a side
    that trimming strips, and padded only on a side that trimming strips,
    as under the default trim mode — [stringifyFields] returns a line, and
    [parseFields] on that line returns the record. *)
Theorem decode_encode_roundtrip call buf options o values line line' :
  Bundle.parseOptions options = Ok o ->
  Options.output o = OutArray ->
  Forall no_hooks (Options.fields o) ->
  Forall2 fits (Options.fields o) values ->
  exists text,
    Bundle.stringifyFields call buf (JArray (map JString values)) o line = Ok text
    /\ Bundle.parseFields call text o line' = Ok (JArray (map JString values)).
Proof.
  intros Hopt Hout Hhooks Hfits.
  destruct (ShapeFacts.positional_layout _ _ Hopt Hout)
    as (Hnormal & Hpads & Hindexed & Hwidth & Hpad).
  destruct (GeometryFacts.getWidth_geometry _ _ Hnormal Hwidth)
    as (Hapart & Hinside & Hpos).
  destruct (RecordFacts.len_one _ Hpad) as [q Hq].
  pose proof (RecordFacts.get_indexed _ _ _ Hfits [] values eq_refl Hindexed) as Hget.
  set (record := JArray (map JString values)) in *.
  set (fields := Options.fields o) in *.
  set (width := Options.width o) in *.
  (* every entry, with all that is known of its field *)
  assert (Hall : Forall2
                   (fun f v =>
                      (normal f /\ len (Field.pad f) = 1 /\ in_line width f /\ no_hooks f)
                      /\ fits f v
                      /\ Bundle.get_property record (Field.property f) = JString v)
                   fields values).
  { apply RecordFacts.Forall2_with; [|now apply RecordFacts.Forall2_both].
    clear -Hnormal Hpads Hinside Hhooks.
    induction fields as [|f l IH]; [constructor|].
    inversion Hnormal; inversion Hpads; inversion Hinside; inversion Hhooks; subst.
    constructor; auto. }
  assert (Hencode : Forall2
                      (fun f v =>
                         Bundle.stringifyField call buf record f o line
                         = Ok (padded f v))
                      fields values).
  { eapply Forall2_impl; [|exact Hall]. cbv beta.
    intros f v ((_ & Hp & _ & Hh) & Hf & Hg).
    destruct (RecordFacts.len_one _ Hp) as [p Hp'].
    eapply RoundTripFacts.stringifyField_fits; eauto. apply Hf. }
  assert (Hplaced : Forall2 (placed width) fields values).
  { eapply Forall2_impl; [|exact Hall]. cbv beta.
    intros f v ((Hn & Hp & Hi & _) & Hf & _).
    destruct (RecordFacts.len_one _ Hp) as [p Hp'].
    repeat split; try apply Hn; try apply Hi.
    eapply RoundTripFacts.padded_len; [exact Hp' | apply Hf]. }
  set (blank := padEnd [] width (Options.pad o)).
  assert (Hblank : len blank = width).
  { unfold blank, padEnd. rewrite Hq, WindowFacts.filler_repeat. cbn [app].
    rewrite WindowFacts.len_repeat. unfold len. cbn [List.length]. lia. }
  exists (splice (combine fields values) blank). split.
  - unfold Bundle.stringifyFields. fold fields width blank.
    now apply RoundTripFacts.stringify_loop_splice.
  - pose proof (RoundTripFacts.splice_len _ _ _ Hplaced _ Hblank) as Hlen.
    pose proof (RoundTripFacts.splice_reads _ _ _ Hplaced Hapart _ Hblank) as Hread.
    unfold Bundle.parseFields. fold fields width. rewrite Hlen, Hout.
    rewrite Z.gtb_ltb, Z.ltb_irrefl. cbn [andb].
    rewrite (RoundTripFacts.parse_array_strings call _ o line' fields values);
      [reflexivity|].
    eapply Forall2_impl; [|exact (RecordFacts.Forall2_both _ _ _ _ _ _ Hall Hread)].
    cbv beta. intros f v (((_ & Hp & _ & Hh) & Hf & _) & Hs).
    destruct (RecordFacts.len_one _ Hp) as [p Hp'].
    split; [apply Hh|].
    rewrite Hs, Hp'. now apply RoundTripFacts.trim_padded.
Qed.

Lemma decode_encode_roundtrip_witness :
  exists text,
    Bundle.stringifyFields no_call latin1
      (JArray (map JString [str "ab"; str "42"])) name_and_amount_layout 1 = Ok text
    /\ Bundle.parseFields no_call text name_and_amount_layout 1
       = Ok (JArray (map JString [str "ab"; str "42"])).
Proof.
  apply (decode_encode_roundtrip no_call latin1 name_and_amount name_and_amount_layout
           [str "ab"; str "42"] 1 1).
  - reflexivity.
  - reflexivity.
  - repeat constructor.
  - repeat constructor; try (vm_compute; discriminate); try discriminate.
Defined.

(** C1, as stated, fails: under [trim: false] the entry "ab" of a field of
    width 4 fits and has no pad character, and it decodes to "ab" followed
    by two pad characters; with a [cast] function the entry "ab" decodes
    to what the function returns. *)
Lemma roundtrip_needs_trimming_and_no_cast :
  (exists o text,
     Bundle.parseOptions untrimmed = Ok o /\ Options.output o = OutArray
     /\ Bundle.stringifyFields no_call latin1 (JArray [JString (str "ab")]) o 1 = Ok text
     /\ Bundle.parseFields no_call text o 1 = Ok (JArray [JString (str "ab  ")])
     /\ Bundle.parseFields no_call text o 1 <> Ok (JArray [JString (str "ab")]))
  /\ (exists o text,
        Bundle.parseOptions with_cast = Ok o /\ Options.output o = OutArray
        /\ Bundle.stringifyFields call_zero latin1 (JArray [JString (str "ab")]) o 1
           = Ok text
        /\ Bundle.parseFields call_zero text o 1 = Ok (JArray [num 0])
        /\ Bundle.parseFields call_zero text o 1 <> Ok (JArray [JString (str "ab")])).
Proof.
  split; do 2 eexists; repeat split; try reflexivity; vm_compute; discriminate.
Qed.

(** * Further properties *)

(** ** Accepted layouts *)

Module LayoutMore.
Import Layout Spec LayoutFacts.

Lemma all_disjoint_nth l : all_disjoint l ->
  forall i j f g, i <> j -> nth_error l i = Some f -> nth_error l j = Some g ->
                  disjoint f g.
Proof.
  induction l as [|h l IH]; intros Hd i j f g Hij Hi Hj.
  - destruct i; discriminate.
  - destruct Hd as [Hh Hd]. rewrite Forall_forall in Hh.
    destruct i as [|i], j as [|j]; cbn [nth_error] in Hi, Hj.
    + congruence.
    + injection Hi as <-. apply Hh. eapply nth_error_In, Hj.
    + injection Hj as <-. apply GeometryFacts.disjoint_sym, Hh.
      eapply nth_error_In, Hi.
    + eapply (IH Hd i j); eauto.
Qed.

Lemma last_map_In (g : Field.t -> Z) l d :
  l <> [] -> exists f, In f l /\ last (map g l) d = g f.
Proof.
  induction l as [|a l IH]; intros Hne; [congruence|].
  destruct l as [|b l].
  - exists a. split; [now left | reflexivity].
  - destruct IH as (f & Hf & Hl); [discriminate|].
    exists f. split; [now right | exact Hl].
Qed.

Lemma indexed_nth l : forall i, indexed i l ->
  forall j f, nth_error l j = Some f -> Field.property f = PIndex (i + j).
Proof.
  induction l as [|h l IH]; intros i Hi j f Hj.
  - destruct j; discriminate.
  - destruct Hi as [Hh Hi]. destruct j as [|j]; cbn [nth_error] in Hj.
    + injection Hj as <-. now rewrite Nat.add_0_r.
    + rewrite <- Nat.add_succ_comm. eapply IH; eassumption.
Qed.

Lemma count_keys_le l : forall acc,
  fold_left
    (fun acc field =>
       acc + match Field.property field with PIndex _ => 0 | PKey _ => 1 end)
    l acc <= acc + Z.of_nat (List.length l).
Proof.
  induction l as [|f l IH]; intros acc; cbn [fold_left List.length]; [lia|].
  specialize (IH (acc + match Field.property f with PIndex _ => 0 | PKey _ => 1 end)).
  destruct (Field.property f); lia.
Qed.

Lemma all_keyed l : forall acc,
  acc + Z.of_nat (List.length l) <=
  fold_left
    (fun acc field =>
       acc + match Field.property field with PIndex _ => 0 | PKey _ => 1 end)
    l acc ->
  Forall keyed l.
Proof.
  induction l as [|f l IH]; intros acc H; [constructor|].
  cbn [fold_left List.length] in H.
  pose proof (count_keys_le l
                (acc + match Field.property f with PIndex _ => 0 | PKey _ => 1 end)) as Hle.
  constructor.
  - unfold keyed. destruct (Field.property f) as [k|i]; [now exists k | lia].
  - apply (IH (acc + match Field.property f with PIndex _ => 0 | PKey _ => 1 end)).
    destruct (Field.property f); lia.
Qed.

End LayoutMore.

(** X1.  In options that [parseOptions] returns and whose fields end
    within 2^53, where the sums of the code are exact, no two fields share a
    column, every field lies within columns 1 to [width], and some field
    ends exactly at column [width]. *)
Theorem accepted_layout_geometry options o :
  Bundle.parseOptions options = Ok o ->
  Forall safe (Options.fields o) ->
  (forall i j f g,
      i <> j ->
      nth_error (Options.fields o) i = Some f ->
      nth_error (Options.fields o) j = Some g ->
      last_column f < Field.column g \/ last_column g < Field.column f)
  /\ Forall (fun f => 1 <= Field.column f /\ last_column f <= Options.width o)
       (Options.fields o)
  /\ exists f, In f (Options.fields o) /\ last_column f = Options.width o.
Proof.
  intros H Hsafe. apply OptionsFacts.bundle_parseOptions_inv in H.
  destruct H as (_ & _ & _ & _ & pad & _ & Hf & Hw & _).
  pose proof (LayoutFacts.parseFields_normal _ _ _ _ Hf) as Hn.
  destruct (GeometryFacts.getWidth_geometry _ _ Hn Hw) as (Hd & Hin & _).
  repeat apply conj.
  - intros i j f g Hij Hi Hj.
    destruct (LayoutMore.all_disjoint_nth _ Hd i j f g Hij Hi Hj) as [Hlt|Hlt];
      unfold last_column; [left | right]; lia.
  - exact Hin.
  - rewrite (LayoutFacts.getWidth_normal _ Hn Hsafe) in Hw.
    destruct (Options.fields o) as [|f l] eqn:E; [discriminate|].
    destruct (Spec.non_overlapping (f :: l)); [|discriminate].
    injection Hw as Hw. unfold Spec.last_end in Hw.
    destruct (LayoutMore.last_map_In
                (fun f => Field.column f + Field.width f - 1)
                (Spec.sort_by_column (f :: l)) 0 (LayoutFacts.sort_nonempty f l))
      as (g & Hg & Hl).
    exists g. split; [now apply LayoutFacts.sort_In | unfold last_column; congruence].
Qed.

Lemma accepted_layout_geometry_witness :
  exists f, In f (Options.fields name_and_amount_layout)
            /\ last_column f = Options.width name_and_amount_layout.
Proof.
  refine (proj2 (proj2 (accepted_layout_geometry name_and_amount name_and_amount_layout
                          eq_refl _))).
  repeat constructor; vm_compute; discriminate.
Defined.

(** X2.  Options that [parseOptions] returns are positional, every field
    carrying its index as property, or keyed, every field carrying a key of
    its own: a field list that mixes the two is never accepted. *)
Theorem accepted_layout_shape options o :
  Bundle.parseOptions options = Ok o ->
  (Options.output o = OutArray
   /\ forall i f, nth_error (Options.fields o) i = Some f -> Field.property f = PIndex i)
  \/ (Options.output o = OutObject /\ Forall keyed (Options.fields o)).
Proof.
  intros H. destruct (Options.output o) eqn:Hout.
  - left. split; [reflexivity|].
    destruct (ShapeFacts.positional_layout _ _ H Hout) as (_ & _ & Hi & _).
    intros i f Hf. exact (LayoutMore.indexed_nth _ 0%nat Hi i f Hf).
  - right. split; [reflexivity|].
    apply OptionsFacts.bundle_parseOptions_inv in H.
    destruct H as (encoding & eol & from & to & pad & properties
                   & _ & _ & _ & Hprop & Hmixed & Ho).
    pose proof (f_equal Options.output Ho) as Ho1.
    cbn [Layout.build Options.output] in Ho1. rewrite Hout in Ho1.
    destruct (Z.gtb_spec properties 0) as [Hpos|]; [|discriminate].
    cbn [andb] in Hmixed. apply Z.ltb_ge in Hmixed.
    apply (LayoutMore.all_keyed _ 0). unfold Layout.count_properties in Hprop. lia.
Qed.

Lemma accepted_layout_shape_witness :
  (Options.output name_and_amount_layout = OutArray
   /\ forall i f, nth_error (Options.fields name_and_amount_layout) i = Some f ->
                  Field.property f = PIndex i)
  \/ (Options.output name_and_amount_layout = OutObject
      /\ Forall keyed (Options.fields name_and_amount_layout)).
Proof.
  exact (accepted_layout_shape name_and_amount name_and_amount_layout eq_refl).
Defined.

Module PackingFacts.
Import Layout Spec LayoutFacts.

Lemma parseField_default_column field index column pad trim f :
  truthy (prop field "column") = false ->
  parseField field index column pad trim = Ok f -> Field.column f = column.
Proof.
  intros Hc. unfold parseField, or_else. rewrite Hc.
  repeat match goal with
         | |- (if ?c then _ else _) = _ -> _ => destruct c eqn:?; [discriminate|]
         end.
  destruct (parseTrimOption _ _); cbn [bind]; try discriminate.
  intros H; injection H as <-. reflexivity.
Qed.

Lemma parseFields_from_packed items : forall i column pad trim fields,
  Forall (fun item => truthy (prop item "column") = false) items ->
  parseFields_from items i column pad trim = Ok fields -> packed column fields.
Proof.
  induction items as [|item rest IH]; cbn [parseFields_from];
    intros i column pad trim fields Hc H.
  - injection H as <-. exact I.
  - inversion Hc as [|? ? Hitem Hrest]; subst.
    destruct (parseField item i column pad trim) as [f| |] eqn:Hf; cbn [bind] in H;
      try discriminate.
    destruct (Number_add column (Field.width f)) as [next| |] eqn:Ha; cbn [bind] in H;
      try discriminate.
    apply LayoutFacts.Number_add_inv in Ha. destruct Ha as [-> _].
    destruct (parseFields_from rest _ _ _ _) as [fs| |] eqn:Hfs; cbn [bind] in H;
      try discriminate.
    injection H as <-. split.
    + eapply parseField_default_column; eassumption.
    + eapply IH; eassumption.
Qed.

Lemma packed_sorted l : forall column,
  Forall normal l -> packed column l -> sort_by_column l = l.
Proof.
  induction l as [|f l IH]; intros column Hn Hp; [reflexivity|].
  inversion Hn as [|? ? [Hw _] Hn']; subst. destruct Hp as [Hc Hp].
  cbn [sort_by_column]. rewrite (IH _ Hn' Hp).
  destruct l as [|g l]; [reflexivity|].
  destruct Hp as [Hg _]. cbn [insert_by_column].
  destruct (Z.leb_spec (Field.column f) (Field.column g)); [reflexivity | lia].
Qed.

Lemma packed_separate l : forall column, packed column l -> separate_from column l = true.
Proof.
  induction l as [|f l IH]; intros column Hp; [reflexivity|].
  destruct Hp as [Hc Hp]. cbn [separate_from].
  rewrite Hc, Z.leb_refl. cbn [andb]. now apply IH.
Qed.

Lemma packed_cover_end l : forall column,
  packed column l -> cover_end column l = column + widths_sum l.
Proof.
  induction l as [|f l IH]; intros column Hp; unfold widths_sum in *;
    cbn [cover_end map fold_right]; [lia|].
  destruct Hp as [Hc Hp]. rewrite Hc, (IH _ Hp). lia.
Qed.

Lemma packed_nth l : forall column i f,
  packed column l -> nth_error l i = Some f ->
  Field.column f = column + widths_sum (firstn i l).
Proof.
  induction l as [|h l IH]; intros column i f Hp Hi.
  - destruct i; discriminate.
  - destruct Hp as [Hc Hp]. destruct i as [|i]; cbn [nth_error firstn] in *.
    + injection Hi as <-. unfold widths_sum. cbn. lia.
    + rewrite (IH _ _ _ Hp Hi). unfold widths_sum. cbn [map fold_right]. lia.
Qed.

(** What [getNextField] returns, by induction on the fields. *)
Lemma getNextField_spec fields column :
  match getNextField fields column with
  | None => Forall (fun f => Field.column f < column) fields
  | Some f =>
      In f fields /\ column <= Field.column f
      /\ Forall (fun g => column <= Field.column g -> Field.column f <= Field.column g)
           fields
  end.
Proof.
  induction fields as [|h l IH]; [constructor|].
  rewrite getNextField_cons. unfold reaches.
  destruct (Z.leb_spec column (Field.column h)) as [Hh|Hh].
  - destruct (getNextField l column) as [g|].
    + destruct IH as (Hin & Hg & Hall). unfold pick.
      destruct (Z.gtb_spec (Field.column h) (Field.column g)).
      * repeat split; [now right | assumption |].
        constructor; [lia | assumption].
      * repeat split; [now left | assumption |].
        constructor; [lia|].
        eapply Forall_impl; [|exact Hall]. cbv beta. intros a Ha Hca.
        specialize (Ha Hca). lia.
    + repeat split; [now left | assumption |].
      constructor; [lia|].
      eapply Forall_impl; [|exact IH]. cbv beta. intros a Ha Hca. lia.
  - destruct (getNextField l column) as [g|].
    + destruct IH as (Hin & Hg & Hall).
      repeat split; [now right | assumption |].
      constructor; [lia | assumption].
    + constructor; assumption.
Qed.

End PackingFacts.

(** X3.  When no field gives a [column] of its own, [parseFields] packs the
    fields one after the other from column 1; and when there is at least
    one field and the fields end within 2^53, where the sums of the code
    are exact, [getWidth] accepts them with the sum of their widths as total
    width. *)
Theorem default_columns_are_packed items pad trim fields :
  Forall (fun item => truthy (prop item "column") = false) items ->
  Layout.parseFields (JArray items) pad trim = Ok fields ->
  fields <> [] ->
  Forall safe fields ->
  (forall i f, nth_error fields i = Some f ->
               Field.column f = 1 + widths_sum (firstn i fields))
  /\ Layout.getWidth fields = Ok (widths_sum fields).
Proof.
  intros Hc Hf Hne Hsafe.
  pose proof (LayoutFacts.parseFields_normal _ _ _ _ Hf) as Hn.
  cbn [Layout.parseFields] in Hf.
  pose proof (PackingFacts.parseFields_from_packed _ _ _ _ _ _ Hc Hf) as Hp.
  split.
  - intros i f Hi. exact (PackingFacts.packed_nth _ _ _ _ Hp Hi).
  - rewrite (LayoutFacts.getWidth_normal _ Hn Hsafe).
    destruct fields as [|f l]; [congruence|].
    unfold Spec.non_overlapping, Spec.last_end.
    rewrite (PackingFacts.packed_sorted _ _ Hn Hp).
    rewrite (PackingFacts.packed_separate _ _ Hp).
    rewrite <- (LayoutFacts.cover_end_last _ 1) by discriminate.
    rewrite (PackingFacts.packed_cover_end _ _ Hp). f_equal. lia.
Qed.

Lemma default_columns_are_packed_witness :
  exists fields,
    Layout.parseFields three_fields (str " ") TrimTrue = Ok fields
    /\ map Field.column fields = [1; 4; 6]
    /\ Layout.getWidth fields = Ok 9.
Proof.
  eexists. split; [reflexivity|]. split; [reflexivity|].
  refine (proj2 (default_columns_are_packed
                   [obj [("width", num 3)]; obj [("width", num 2)]; obj [("width", num 4)]]
                   (str " ") TrimTrue _ _ eq_refl _ _)).
  - repeat constructor.
  - discriminate.
  - repeat constructor; vm_compute; discriminate.
Defined.

(** X4.  [getNextField] returns nothing exactly when every field starts
    before [column]; otherwise it returns one of the fields, at or after
    [column], and no field at or after [column] starts before it. *)
Theorem getNextField_is_least fields column :
  (Layout.getNextField fields column = None <->
   Forall (fun f => Field.column f < column) fields)
  /\ (forall f, Layout.getNextField fields column = Some f ->
        In f fields /\ column <= Field.column f
        /\ forall g, In g fields -> column <= Field.column g ->
                     Field.column f <= Field.column g).
Proof.
  pose proof (PackingFacts.getNextField_spec fields column) as H.
  destruct (Layout.getNextField fields column) as [f|].
  - destruct H as (Hin & Hc & Hall). split.
    + split; [discriminate|]. intros Hlt. rewrite Forall_forall in Hlt.
      specialize (Hlt _ Hin). lia.
    + intros f' Hf'. injection Hf' as <-. repeat split; try assumption.
      rewrite Forall_forall in Hall. exact Hall.
  - split; [tauto | discriminate].
Qed.

Lemma getNextField_is_least_witness :
  In (default_field 5 2 1) gap_fields /\ 3 <= Field.column (default_field 5 2 1)
  /\ forall g, In g gap_fields -> 3 <= Field.column g ->
               Field.column (default_field 5 2 1) <= Field.column g.
Proof.
  exact (proj2 (getNextField_is_least gap_fields 3) (default_field 5 2 1) eq_refl).
Defined.

Module NormalFormFacts.
Import Layout.

Lemma default_string_nonempty x d :
  d <> [] -> typeof_is (or_else x (JString d)) t_string = true ->
  str_of (or_else x (JString d)) <> [].
Proof.
  intros Hd. unfold or_else. destruct (truthy x) eqn:T.
  - destruct x; cbn; try discriminate.
    destruct s; [discriminate T | discriminate].
  - intros _. exact Hd.
Qed.

Lemma default_from_nonzero x :
  isInteger (or_else x (num 1)) = true -> int_of (or_else x (num 1)) <> 0.
Proof.
  unfold or_else. destruct (truthy x) eqn:T.
  - destruct x; cbn; try discriminate.
    destruct n; cbn; try discriminate.
    cbn in T. intros _. destruct (Z.eqb_spec z 0); [discriminate T | assumption].
  - cbn. lia.
Qed.

Lemma default_to_nonzero x :
  bound_of (or_else x (JNumber NPosInf)) <> Finite 0.
Proof.
  unfold or_else. destruct (truthy x) eqn:T.
  - destruct x; cbn; try discriminate.
    destruct n; cbn; try discriminate.
    cbn in T. intros H. injection H as ->. discriminate T.
  - discriminate.
Qed.

Lemma accepted_fields options o :
  Bundle.parseOptions options = Ok o ->
  Forall (fun f => 0 < Field.width f /\ 0 < Field.column f /\ len (Field.pad f) = 1)
    (Options.fields o).
Proof.
  intros H. apply OptionsFacts.bundle_parseOptions_inv in H.
  destruct H as (_ & _ & _ & _ & pad & _ & Hf & _).
  pose proof (LayoutFacts.parseFields_normal _ _ _ _ Hf) as Hn.
  destruct (prop _ "fields"); try discriminate. cbn [parseFields] in Hf.
  destruct (ShapeFacts.parseFields_from_shape _ _ _ _ _ _ Hf) as [Hp _].
  clear -Hn Hp. induction (Options.fields o) as [|f l IH]; [constructor|].
  inversion Hn as [|? ? [Hw Hc] Hn']; inversion Hp; subst.
  constructor; [repeat split; assumption | auto].
Qed.

End NormalFormFacts.

(** X5.  Options that either [parseOptions] returns are in normal form: the
    pad is one character, the encoding is not empty, [from] is not 0 (a 0
    given for it reads as 1), [to] is not 0 (a 0 given for it reads as
    infinity), there is at least one field, and every field has a positive
    width, a positive column and a pad of one character. *)
Theorem parseOptions_normal_form options o :
  Bundle.parseOptions options = Ok o \/ OptionsMjs.parseOptions options = Ok o ->
  len (Options.pad o) = 1
  /\ Options.encoding o <> []
  /\ Options.from o <> 0
  /\ Options.to o <> Finite 0
  /\ Options.fields o <> []
  /\ Forall (fun f => 0 < Field.width f /\ 0 < Field.column f /\ len (Field.pad f) = 1)
       (Options.fields o).
Proof.
  intros H.
  assert (Hb : Bundle.parseOptions options = Ok o)
    by (destruct H; auto using OptionsFacts.mjs_parseOptions_bundle).
  clear H. pose proof (NormalFormFacts.accepted_fields _ _ Hb) as Hfields.
  revert Hb. unfold Bundle.parseOptions. cbv zeta.
  repeat match goal with
         | |- (if ?c then Throw _ else _) = _ -> _ => destruct c eqn:?; [discriminate|]
         end.
  destruct (Layout.parseFields _ _ _) as [fields| |] eqn:Hf; cbn [bind]; try discriminate.
  destruct (Layout.getWidth fields) as [width| |] eqn:Hw; cbn [bind]; try discriminate.
  match goal with
  | |- (if ?c then _ else _) = _ -> _ => destruct c; [discriminate|]
  end.
  intros H; injection H as H; subst o.
  cbn [Layout.build Options.pad Options.encoding Options.from Options.to Options.fields]
    in *.
  rewrite negb_false_iff in *.
  repeat apply conj.
  - now apply Z.eqb_eq.
  - apply NormalFormFacts.default_string_nonempty; [discriminate | assumption].
  - now apply NormalFormFacts.default_from_nonzero.
  - apply NormalFormFacts.default_to_nonzero.
  - intros ->. discriminate.
  - exact Hfields.
Qed.

Lemma parseOptions_normal_form_witness :
  exists o, Bundle.parseOptions zero_range = Ok o
            /\ Options.from o = 1 /\ Options.to o = Infinity
            /\ Options.from o <> 0 /\ Options.to o <> Finite 0.
Proof.
  eexists. split; [reflexivity|]. split; [reflexivity|]. split; [reflexivity|].
  pose proof (parseOptions_normal_form zero_range _ (or_introl eq_refl))
    as (_ & _ & Hfrom & Hto & _).
  exact (conj Hfrom Hto).
Defined.

(** X6.  [parseOptions] of [src/options.mjs] never returns a line range
    whose end is before its start. *)
Theorem mjs_range_is_ordered options o :
  OptionsMjs.parseOptions options = Ok o ->
  match Options.to o with
  | Finite to => Options.from o <= to
  | Infinity => True
  end.
Proof.
  unfold OptionsMjs.parseOptions. cbv zeta.
  repeat match goal with
         | |- (if ?c then Throw _ else _) = _ -> _ =>
             lazymatch c with
             | Layout.bound_ltb _ _ => destruct c eqn:Hrange; [discriminate|]
             | _ => destruct c; [discriminate|]
             end
         end.
  destruct (Layout.parseFields _ _ _) as [fields| |]; cbn [bind]; try discriminate.
  destruct (Layout.getWidth fields) as [width| |]; cbn [bind]; try discriminate.
  match goal with
  | |- (if ?c then _ else _) = _ -> _ => destruct c; [discriminate|]
  end.
  intros H; injection H as <-. cbn [Layout.build Options.to Options.from].
  unfold Layout.bound_ltb in Hrange.
  destruct (Layout.bound_of _); [apply Z.ltb_ge in Hrange; lia | exact I].
Qed.

Lemma mjs_range_is_ordered_witness :
  exists o, OptionsMjs.parseOptions two_to_five = Ok o
            /\ Options.to o = Finite 5
            /\ match Options.to o with
               | Finite to => Options.from o <= to
               | Infinity => True
               end.
Proof.
  eexists. split; [reflexivity|]. split; [reflexivity|].
  exact (mjs_range_is_ordered two_to_five _ eq_refl).
Defined.

(** ** Decoded records *)

Module DecodeFacts.
Import Bundle StringFacts.

Lemma str_eqb_eq a : forall b, str_eqb a b = true <-> a = b.
Proof.
  induction a as [|x a IH]; intros [|y b]; cbn [str_eqb];
    try (split; [discriminate | congruence]).
  - tauto.
  - rewrite andb_true_iff, Ascii.eqb_eq, IH.
    split; [intros []; congruence | intros H; injection H; auto].
Qed.

Lemma key_eqb_eq a b : key_eqb a b = true <-> a = b.
Proof.
  destruct a as [x|x], b as [y|y]; cbn [key_eqb];
    try (split; [discriminate | congruence]).
  - rewrite str_eqb_eq. split; congruence.
  - rewrite Nat.eqb_eq. split; congruence.
Qed.

Lemma key_eqb_neq a b : a <> b -> key_eqb a b = false.
Proof.
  intros H. destruct (key_eqb a b) eqn:E; [|reflexivity].
  now apply key_eqb_eq in E.
Qed.

Lemma own_put_same props k v : own k (put props k v) = Some v.
Proof.
  induction props as [|[k0 v0] rest IH]; cbn [put own].
  - now rewrite (proj2 (key_eqb_eq k k) eq_refl).
  - destruct (key_eqb k k0) eqn:E; cbn [own]; rewrite E; [reflexivity | exact IH].
Qed.

Lemma own_put_other props k k' v :
  k' <> k -> own k' (put props k v) = own k' props.
Proof.
  intros Hne. induction props as [|[k0 v0] rest IH]; cbn [put own].
  - now rewrite (key_eqb_neq _ _ Hne).
  - destruct (key_eqb k k0) eqn:E; cbn [own].
    + apply key_eqb_eq in E. subst k0. now rewrite (key_eqb_neq _ _ Hne).
    + destruct (key_eqb k' k0); [reflexivity | exact IH].
Qed.

Lemma own_set_same props k v :
  k <> KStr (str "__proto__") -> own k (set_prop props k v) = Some v.
Proof.
  intros Hk. unfold set_prop. rewrite (key_eqb_neq _ _ Hk). apply own_put_same.
Qed.

Lemma own_set_other props k k' v :
  k' <> k -> own k' (set_prop props k v) = own k' props.
Proof.
  intros Hne. unfold set_prop.
  destruct (key_eqb k _); [reflexivity | now apply own_put_other].
Qed.

Section WithCall.
Variable call : nat -> list JsValue -> result JsValue.

Lemma parse_object_other text o line k fields : forall acc props,
  Forall (fun g => key_of (Field.property g) <> k) fields ->
  parse_object call text fields o line acc = Ok props ->
  own k props = own k acc.
Proof.
  induction fields as [|g rest IH]; intros acc props Hk H; cbn [parse_object] in H.
  - now injection H as <-.
  - inversion Hk as [|? ? Hg Hrest]; subst.
    destruct (parseField call text g o line) as [v| |]; cbn [bind] in H;
      try discriminate.
    rewrite (IH _ _ Hrest H). apply own_set_other. congruence.
Qed.

Lemma parse_object_last text o line f post pre : forall acc props,
  key_of (Field.property f) <> KStr (str "__proto__") ->
  Forall (fun g => key_of (Field.property g) <> key_of (Field.property f)) post ->
  parse_object call text (pre ++ f :: post) o line acc = Ok props ->
  exists v, parseField call text f o line = Ok v
            /\ own (key_of (Field.property f)) props = Some v.
Proof.
  induction pre as [|h pre IH]; intros acc props Hf Hpost H;
    cbn [app parse_object] in H.
  - destruct (parseField call text f o line) as [v| |]; cbn [bind] in H;
      try discriminate.
    exists v. split; [reflexivity|].
    rewrite (parse_object_other _ _ _ _ _ _ _ Hpost H). now apply own_set_same.
  - destruct (parseField call text h o line) as [v| |]; cbn [bind] in H;
      try discriminate.
    eapply IH; eassumption.
Qed.

Lemma substring_len s a n :
  0 <= a -> 0 <= n -> len (substring s a (a + n)) <= n.
Proof.
  intros Ha Hn. rewrite WindowFacts.substring_window by assumption.
  unfold window, len. rewrite length_firstn. lia.
Qed.

Lemma strips_leading_len p v out : strips_leading p v out -> len out <= len v.
Proof.
  intros (n & -> & _). rewrite len_app. pose proof (len_nonneg (repeat p n)). lia.
Qed.

Lemma strips_trailing_len p v out : strips_trailing p v out -> len out <= len v.
Proof.
  intros (n & -> & _). rewrite len_app. pose proof (len_nonneg (repeat p n)). lia.
Qed.

Lemma trimString_len p v mode align : len (trimString v [p] mode align) <= len v.
Proof.
  pose proof (strips_leading_len p v _ (trimStart_leading p v)) as Hs.
  pose proof (strips_trailing_len p v _ (trimEnd_trailing p v)) as He.
  pose proof (strips_trailing_len p _ _ (trimEnd_trailing p (trimStart v [p]))) as Hb.
  destruct mode, align; cbn [trimString]; unfold trim; lia.
Qed.

Lemma parse_array_shape text o line fields : forall values,
  Forall (fun f => 0 < Field.width f /\ 0 < Field.column f /\ len (Field.pad f) = 1)
    fields ->
  parse_array call text fields o line = Ok values ->
  Forall2 (fun f v =>
             Field.cast f = None ->
             exists s, v = JString s /\ len s <= Field.width f)
    fields values.
Proof.
  induction fields as [|f rest IH]; intros values Hn H; cbn [parse_array] in H.
  - injection H as <-. constructor.
  - inversion Hn as [|? ? (Hw & Hc & Hp) Hrest]; subst.
    destruct (parseField call text f o line) as [v| |] eqn:Hv; cbn [bind] in H;
      try discriminate.
    destruct (parse_array call text rest o line) as [vs| |]; cbn [bind] in H;
      try discriminate.
    injection H as <-. constructor; [|now apply IH].
    intros Hcast. unfold parseField in Hv. rewrite Hcast in Hv.
    injection Hv as <-. eexists. split; [reflexivity|].
    destruct (RecordFacts.len_one _ Hp) as [p ->].
    etransitivity; [apply trimString_len|].
    apply substring_len; lia.
Qed.

End WithCall.

End DecodeFacts.

(** X7.  A keyed record that [parseFields] returns, when no field is
    keyed [__proto__], is an object whose own property under the key of a
    field that no later field declares again is the value decoded for that
    field — the value of an earlier field with the same key is overwritten
    — and which has no property of its own under a key that no field
    declares. *)
Theorem keyed_record_holds_last_field call text o line record :
  Options.output o = OutObject ->
  Forall (fun g => Bundle.key_of (Field.property g) <> KStr (str "__proto__"))
    (Options.fields o) ->
  Bundle.parseFields call text o line = Ok record ->
  exists props,
    record = JObject props
    /\ (forall pre f post,
          Options.fields o = pre ++ f :: post ->
          Forall (fun g => Bundle.key_of (Field.property g)
                           <> Bundle.key_of (Field.property f))
            post ->
          exists v, Bundle.parseField call text f o line = Ok v
                    /\ own (Bundle.key_of (Field.property f)) props = Some v)
    /\ (forall k,
          Forall (fun g => Bundle.key_of (Field.property g) <> k) (Options.fields o) ->
          own k props = None).
Proof.
  intros Hout Hproto. unfold Bundle.parseFields. rewrite Hout.
  repeat match goal with
         | |- (if ?c then Throw _ else _) = _ -> _ => destruct c; [discriminate|]
         end.
  destruct (Bundle.parse_object _ _ _ _ _ _) as [props| |] eqn:Hp; cbn [bind];
    try discriminate.
  intros H; injection H as <-. exists props. split; [reflexivity|]. split.
  - intros pre f post Hfields Hpost. rewrite Hfields in Hp, Hproto.
    apply Forall_app in Hproto. destruct Hproto as [_ Hproto].
    inversion Hproto as [|? ? Hf _]; subst.
    eapply DecodeFacts.parse_object_last; eassumption.
  - intros k Hk. now rewrite (DecodeFacts.parse_object_other _ _ _ _ _ _ _ _ Hk Hp).
Qed.

Lemma keyed_record_holds_last_field_witness :
  exists props,
    JObject [(KStr (str "id"), JString (str "02")); (KStr (str "name"), JString (str "ab"))]
    = JObject props
    /\ (forall pre f post,
          Options.fields duplicate_keys = pre ++ f :: post ->
          Forall (fun g => Bundle.key_of (Field.property g)
                           <> Bundle.key_of (Field.property f))
            post ->
          exists v, Bundle.parseField no_call (str "01ab02") f duplicate_keys 1 = Ok v
                    /\ own (Bundle.key_of (Field.property f)) props = Some v)
    /\ (forall k,
          Forall (fun g => Bundle.key_of (Field.property g) <> k)
            (Options.fields duplicate_keys) ->
          own k props = None).
Proof.
  apply (keyed_record_holds_last_field no_call (str "01ab02") duplicate_keys 1).
  - reflexivity.
  - repeat constructor; discriminate.
  - reflexivity.
Defined.

(** X8.  In a positional record that [parseFields] returns under options
    accepted by [parseOptions], there is one entry per field, and the entry
    of a field without a [cast] function is a string of at most the
    field's width. *)
Theorem positional_record_shape call options o text line record :
  Bundle.parseOptions options = Ok o ->
  Options.output o = OutArray ->
  Bundle.parseFields call text o line = Ok record ->
  exists values,
    record = JArray values
    /\ Forall2 (fun f v =>
                  Field.cast f = None ->
                  exists s, v = JString s /\ len s <= Field.width f)
         (Options.fields o) values.
Proof.
  intros Hopt Hout.
  pose proof (NormalFormFacts.accepted_fields options o Hopt) as Hn.
  unfold Bundle.parseFields. rewrite Hout.
  repeat match goal with
         | |- (if ?c then Throw _ else _) = _ -> _ => destruct c; [discriminate|]
         end.
  destruct (Bundle.parse_array _ _ _ _ _) as [values| |] eqn:Hp; cbn [bind];
    try discriminate.
  intros H; injection H as <-. exists values. split; [reflexivity|].
  eapply DecodeFacts.parse_array_shape; eassumption.
Qed.

Lemma positional_record_shape_witness :
  exists values,
    JArray [JString (str "ab"); JString (str "42")] = JArray values
    /\ Forall2 (fun f v =>
                  Field.cast f = None ->
                  exists s, v = JString s /\ len s <= Field.width f)
         (Options.fields name_and_amount_layout) values.
Proof.
  exact (positional_record_shape no_call name_and_amount name_and_amount_layout
           (str "ab  042") 1 _ eq_refl eq_refl eq_refl).
Defined.

Module TrimMore.
Import Bundle StringFacts RoundTripFacts.

Lemma trimStart_twice p v : trimStart (trimStart v [p]) [p] = trimStart v [p].
Proof.
  destruct (trimStart_leading p v) as (n & _ & Hh). now apply trimStart_keeps.
Qed.

Lemma trimEnd_twice p v : trimEnd (trimEnd v [p]) [p] = trimEnd v [p].
Proof.
  destruct (trimEnd_trailing p v) as (n & _ & Hh). now apply trimEnd_keeps.
Qed.

Lemma trim_twice p v : trim (trim v [p]) [p] = trim v [p].
Proof.
  unfold trim.
  destruct (trimStart_leading p v) as (n & _ & Hhead).
  destruct (trimEnd_trailing p (trimStart v [p])) as (m & Hm & Hlast).
  set (out := trimEnd (trimStart v [p]) [p]) in *.
  assert (Hout : hd_error out <> Some p).
  { destruct out as [|c out']; [discriminate|].
    rewrite Hm in Hhead. exact Hhead. }
  rewrite (trimStart_keeps _ _ Hout). now apply trimEnd_keeps.
Qed.

End TrimMore.

(** X9.  Trimming is idempotent: trimming a trimmed value again, in the
    same mode, changes nothing. *)
Theorem trimString_is_idempotent value p mode align :
  Bundle.trimString (Bundle.trimString value [p] mode align) [p] mode align
  = Bundle.trimString value [p] mode align.
Proof.
  destruct mode, align; cbn [Bundle.trimString];
    auto using TrimMore.trim_twice, TrimMore.trimStart_twice, TrimMore.trimEnd_twice.
Qed.

(** ** Encoded lines *)

Module EncodeFacts.
Import Bundle StringFacts WindowFacts.

Lemma accepted_geometry options o :
  Bundle.parseOptions options = Ok o ->
  Forall (slot_in (Options.width o)) (Options.fields o)
  /\ all_disjoint (Options.fields o)
  /\ len (Options.pad o) = 1
  /\ 0 <= Options.width o.
Proof.
  intros H. pose proof (NormalFormFacts.accepted_fields _ _ H) as Hfields.
  apply OptionsFacts.bundle_parseOptions_inv in H.
  destruct H as (encoding & eol & from & to & pad & properties
                 & Hf & Hw & Hpad & _ & _ & Ho).
  pose proof (LayoutFacts.parseFields_normal _ _ _ _ Hf) as Hn.
  destruct (GeometryFacts.getWidth_geometry _ _ Hn Hw) as (Hd & Hin & Hpos).
  pose proof (f_equal Options.pad Ho) as Ho2. cbn [Layout.build Options.pad] in Ho2.
  repeat apply conj; try assumption; [|now rewrite Ho2].
  clear -Hfields Hin. induction (Options.fields o) as [|f l IH]; [constructor|].
  inversion Hfields as [|? ? (Hw & Hc & Hp) Hfs]; inversion Hin as [|? ? [_ Hl] His]; subst.
  constructor; [|auto]. unfold slot_in, last_column. auto.
Qed.

Lemma disjoint_outside f g :
  0 < Field.width f -> 0 < Field.column f -> 0 < Field.width g -> 0 < Field.column g ->
  disjoint f g ->
  outside (Z.to_nat (Field.column f - 1)) (Z.to_nat (Field.width f)) g.
Proof. unfold disjoint, outside. lia. Qed.

Section WithCall.
Variable call : nat -> list JsValue -> result JsValue.
Variable buf : list Z -> jsstr -> result jsstr.

Lemma stringifyField_len obj f o line s :
  len (Field.pad f) = 1 ->
  stringifyField call buf obj f o line = Ok s -> len s = Field.width f.
Proof.
  intros Hp. destruct (RecordFacts.len_one _ Hp) as [p Hp'].
  unfold stringifyField.
  destruct (match Field.stringify f with
            | Some h => call h [get_property obj (Field.property f)]
            | None => Ok (get_property obj (Field.property f))
            end) as [v| |]; cbn [bind]; try discriminate.
  destruct (stringifyValue call buf v (Options.encoding o)) as [w| |]; cbn [bind];
    try discriminate.
  destruct (negb _); [discriminate|].
  destruct (Z.gtb_spec (len (str_of w)) (Field.width f)) as [|Hle]; [discriminate|].
  pose proof (len_nonneg (str_of w)) as Hv.
  destruct (Field.align f); intros Hs; injection Hs as <-;
    unfold padStart, padEnd; rewrite Hp', filler_repeat, len_app, len_repeat; lia.
Qed.

Lemma loop_len obj o line width fields : forall text out,
  Forall (slot_in width) fields -> len text = width ->
  stringify_loop call buf obj fields o line text = Ok out -> len out = width.
Proof.
  induction fields as [|f rest IH]; intros text out Hs Ht H; cbn [stringify_loop] in H.
  - now injection H as <-.
  - inversion Hs as [|? ? (Hw & Hc & Hp & Hl) Hrest]; subst.
    destruct (stringifyField call buf obj f o line) as [s| |] eqn:Hf; cbn [bind] in H;
      try discriminate.
    pose proof (stringifyField_len _ _ _ _ _ Hp Hf) as Hlen.
    apply (IH _ _ Hrest) in H; [assumption|].
    unfold last_column in Hl. rewrite replaceWith_len; lia.
Qed.

Lemma loop_keeps obj o line width a n fields : forall text out,
  Forall (slot_in width) fields -> len text = width ->
  Forall (outside a n) fields ->
  stringify_loop call buf obj fields o line text = Ok out ->
  window a n out = window a n text.
Proof.
  induction fields as [|f rest IH]; intros text out Hs Ht Ho H;
    cbn [stringify_loop] in H.
  - now injection H as <-.
  - inversion Hs as [|? ? (Hw & Hc & Hp & Hl) Hrest]; subst.
    inversion Ho as [|? ? Hof Horest]; subst.
    destruct (stringifyField call buf obj f o line) as [s| |] eqn:Hf; cbn [bind] in H;
      try discriminate.
    pose proof (stringifyField_len _ _ _ _ _ Hp Hf) as Hlen.
    unfold last_column in Hl.
    rewrite (IH _ _ Hrest) with (2 := Horest) (3 := H)
      by (rewrite replaceWith_len; lia).
    apply replaceWith_other; [lia | lia |].
    unfold outside in Hof. unfold len in Hlen. destruct Hof; [left | right]; lia.
Qed.

Lemma loop_slots obj o line width fields : forall text out,
  Forall (slot_in width) fields -> all_disjoint fields -> len text = width ->
  stringify_loop call buf obj fields o line text = Ok out ->
  Forall (fun f =>
            stringifyField call buf obj f o line
            = Ok (substring out (Field.column f - 1)
                    (Field.column f - 1 + Field.width f)))
    fields.
Proof.
  induction fields as [|f rest IH]; intros text out Hs Hd Ht H; [constructor|].
  cbn [stringify_loop] in H.
  inversion Hs as [|? ? (Hw & Hc & Hp & Hl) Hrest]; subst.
  destruct Hd as [Hdf Hd].
  destruct (stringifyField call buf obj f o line) as [s| |] eqn:Hf; cbn [bind] in H;
    try discriminate.
  pose proof (stringifyField_len _ _ _ _ _ Hp Hf) as Hlen.
  unfold last_column in Hl.
  assert (Ht' : len (replaceWith text s (Field.column f - 1)) = len text)
    by (rewrite replaceWith_len; lia).
  constructor.
  - rewrite Hf. f_equal. symmetry. rewrite substring_window by lia.
    rewrite (loop_keeps _ _ _ (len text) _ _ rest _ out Hrest Ht') with (2 := H).
    + replace (Z.to_nat (Field.width f)) with (List.length s)
        by (unfold len in Hlen; lia).
      apply replaceWith_same; lia.
    + clear -Hdf Hrest Hw Hc. induction rest as [|g rest IH]; [constructor|].
      inversion Hdf as [|? ? Hdg Hdr]; inversion Hrest as [|? ? (Hgw & Hgc & _) Hrr]; subst.
      constructor; [now apply disjoint_outside | auto].
  - eapply IH; eassumption.
Qed.

End WithCall.

Lemma window_repeat (q : ascii) a n m :
  (a + n <= m)%nat -> window a n (repeat q m) = repeat q n.
Proof.
  intros H. unfold window.
  replace m with (a + (n + (m - a - n)))%nat by lia.
  rewrite !repeat_app, skipn_app, repeat_length, Nat.sub_diag.
  rewrite skipn_all2 by (rewrite repeat_length; lia). cbn [skipn app].
  rewrite firstn_app, repeat_length, Nat.sub_diag, firstn_all2
    by (rewrite repeat_length; lia).
  cbn [firstn]. apply app_nil_r.
Qed.

End EncodeFacts.

(** X10.  Under options accepted by [parseOptions], a line that
    [stringifyFields] returns is exactly [width] characters long, whatever
    the record and the [stringify] functions. *)
Theorem encoded_line_has_width call buf options o obj line text :
  Bundle.parseOptions options = Ok o ->
  Bundle.stringifyFields call buf obj o line = Ok text ->
  len text = Options.width o.
Proof.
  intros Hopt. destruct (EncodeFacts.accepted_geometry _ _ Hopt) as (Hs & _ & Hp & Hw).
  destruct (RecordFacts.len_one _ Hp) as [q Hq].
  unfold Bundle.stringifyFields. apply (EncodeFacts.loop_len call buf); [assumption|].
  unfold padEnd. rewrite Hq, WindowFacts.filler_repeat. cbn [app].
  rewrite WindowFacts.len_repeat. unfold len. cbn [List.length]. lia.
Qed.

Lemma encoded_line_has_width_witness :
  len (str "ab  042") = Options.width name_and_amount_layout.
Proof.
  exact (encoded_line_has_width no_call latin1 name_and_amount name_and_amount_layout
           (JArray [JString (str "ab"); num 42]) 1 (str "ab  042") eq_refl eq_refl).
Defined.

(** X11.  Under options accepted by [parseOptions], in a line that
    [stringifyFields] returns every field's columns hold what
    [stringifyField] returns for that field: no field writes over another
    one, in whatever order the fields are declared. *)
Theorem encoded_fields_keep_their_slots call buf options o obj line text :
  Bundle.parseOptions options = Ok o ->
  Bundle.stringifyFields call buf obj o line = Ok text ->
  Forall (fun f =>
            Bundle.stringifyField call buf obj f o line
            = Ok (substring text (Field.column f - 1)
                    (Field.column f - 1 + Field.width f)))
    (Options.fields o).
Proof.
  intros Hopt. destruct (EncodeFacts.accepted_geometry _ _ Hopt) as (Hs & Hd & Hp & Hw).
  destruct (RecordFacts.len_one _ Hp) as [q Hq].
  unfold Bundle.stringifyFields.
  apply (EncodeFacts.loop_slots call buf _ _ _ (Options.width o)); try assumption.
  unfold padEnd. rewrite Hq, WindowFacts.filler_repeat. cbn [app].
  rewrite WindowFacts.len_repeat. unfold len. cbn [List.length]. lia.
Qed.

Lemma encoded_fields_keep_their_slots_witness :
  Forall (fun f =>
            Bundle.stringifyField no_call latin1 (JArray [JString (str "ab"); num 42]) f
              name_and_amount_layout 1
            = Ok (substring (str "ab  042") (Field.column f - 1)
                    (Field.column f - 1 + Field.width f)))
    (Options.fields name_and_amount_layout).
Proof.
  exact (encoded_fields_keep_their_slots no_call latin1 name_and_amount
           name_and_amount_layout (JArray [JString (str "ab"); num 42]) 1
           (str "ab  042") eq_refl eq_refl).
Defined.

(** X12.  Under options accepted by [parseOptions], in a line that
    [stringifyFields] returns every column that no field covers holds the
    pad character of the options. *)
Theorem encoded_gaps_hold_the_pad call buf options o obj line text column :
  Bundle.parseOptions options = Ok o ->
  Bundle.stringifyFields call buf obj o line = Ok text ->
  1 <= column <= Options.width o ->
  Forall (fun f => column < Field.column f \/ last_column f < column) (Options.fields o) ->
  substring text (column - 1) column = Options.pad o.
Proof.
  intros Hopt Htext Hc Hfree.
  destruct (EncodeFacts.accepted_geometry _ _ Hopt) as (Hs & _ & Hp & Hw).
  destruct (RecordFacts.len_one _ Hp) as [q Hq].
  unfold Bundle.stringifyFields in Htext.
  replace column with (column - 1 + 1) at 2 by lia.
  rewrite WindowFacts.substring_window by lia.
  assert (Hblank : padEnd [] (Options.width o) (Options.pad o)
                   = repeat q (Z.to_nat (Options.width o))).
  { unfold padEnd. rewrite Hq, WindowFacts.filler_repeat. cbn [app]. do 2 f_equal.
    unfold len. cbn [List.length]. lia. }
  rewrite Hblank in Htext.
  rewrite (EncodeFacts.loop_keeps call buf _ _ _ (Options.width o) _ _ _ _ _ Hs)
    with (3 := Htext).
  - rewrite EncodeFacts.window_repeat by lia. now rewrite Hq.
  - rewrite WindowFacts.len_repeat. lia.
  - clear -Hfree Hs Hc. induction (Options.fields o) as [|f l IH]; [constructor|].
    inversion Hfree as [|? ? Hf Hfr]; inversion Hs as [|? ? (Hw & Hcol & _ & Hl) Hsr]; subst.
    constructor; [|auto]. unfold outside, last_column in *. destruct Hf; [left | right]; lia.
Qed.

Lemma encoded_gaps_hold_the_pad_witness :
  substring (str "ab  cd") (3 - 1) 3 = str " ".
Proof.
  refine (encoded_gaps_hold_the_pad no_call latin1 gap_items
            (layout_of gap_fields 6) (JArray [JString (str "ab"); JString (str "cd")]) 1
            (str "ab  cd") 3 eq_refl eq_refl _ _).
  - split; vm_compute; discriminate.
  - repeat constructor; vm_compute; intuition discriminate.
Defined.

(** ** The parser's buffer, range and reuse *)

Module BufferFacts.
Import Bundle SplitFacts.

Lemma starts_with_self sep b : starts_with sep (sep ++ b) = true.
Proof.
  induction sep as [|c sep IH]; [reflexivity|].
  cbn [app starts_with]. now rewrite Ascii.eqb_refl, IH.
Qed.

Lemma starts_with_skipn sep : forall s,
  starts_with sep s = true -> s = sep ++ skipn (List.length sep) s.
Proof.
  induction sep as [|x sep IH]; intros s H; [reflexivity|].
  destruct s as [|y s]; [discriminate|].
  cbn [starts_with] in H. apply andb_true_iff in H. destruct H as [Hxy H].
  apply Ascii.eqb_eq in Hxy. subst y.
  cbn [List.length skipn app]. f_equal. now apply IH.
Qed.

(** The parts of a split, each followed by the separator but the last,
    make up the string. *)
Lemma split_concat sep : sep <> [] -> forall n s,
  (List.length s <= n)%nat ->
  s = List.concat (map (fun l => l ++ sep) (removelast (split s sep)))
      ++ last (split s sep) [].
Proof.
  intros Hsep. induction n as [|n IH]; intros s Hn.
  - destruct s; [reflexivity | simpl in Hn; lia].
  - destruct s as [|c s]; [reflexivity|].
    rewrite split_cons by assumption.
    destruct (starts_with sep (c :: s)) eqn:E.
    + rewrite removelast_cons_nonempty, last_cons_nonempty by apply split_nonempty.
      cbn [map List.concat app]. rewrite <- app_assoc.
      rewrite <- IH.
      * now apply starts_with_skipn.
      * rewrite length_skipn. destruct sep; [congruence|]. simpl in *. lia.
    + specialize (IH s ltac:(simpl in Hn; lia)).
      destruct (split s sep) as [|x [|y l]] eqn:Es.
      * now apply split_nonempty in Es.
      * cbn [add_head removelast last map List.concat app] in *. now f_equal.
      * cbn [add_head]. rewrite removelast_cons_nonempty, last_cons_nonempty by discriminate.
        rewrite removelast_cons_nonempty, last_cons_nonempty in IH by discriminate.
        cbn [map List.concat app] in *. rewrite <- !app_assoc in *. cbn [app].
        now f_equal.
Qed.

(** A string that splits into one part holds no separator. *)
Lemma single_part_no_separator sep : sep <> [] -> forall a s b,
  split s sep = [s] -> s <> a ++ sep ++ b.
Proof.
  intros Hsep. induction a as [|c a IH]; intros s b Hs ->.
  - cbn [app] in Hs. destruct sep as [|x sep]; [congruence|].
    cbn [app] in Hs. rewrite split_cons in Hs by discriminate.
    change (x :: sep ++ b) with ((x :: sep) ++ b) in Hs.
    rewrite starts_with_self in Hs. injection Hs as Hs _. discriminate.
  - cbn [app] in Hs. rewrite split_cons in Hs by assumption.
    destruct (starts_with sep (c :: a ++ sep ++ b)).
    + injection Hs as Hs _. discriminate.
    + destruct (split (a ++ sep ++ b) sep) as [|x [|y l]] eqn:E;
        cbn [add_head] in Hs; try discriminate.
      * now apply split_nonempty in E.
      * assert (Hx : x = a ++ sep ++ b) by congruence.
        rewrite Hx in E. exact (IH _ b E eq_refl).
Qed.

(** The last part of a split splits into itself. *)
Lemma split_last_single sep : sep <> [] -> forall n s,
  (List.length s <= n)%nat ->
  split (last (split s sep) []) sep = [last (split s sep) []].
Proof.
  intros Hsep. induction n as [|n IH]; intros s Hn.
  - destruct s; [reflexivity | simpl in Hn; lia].
  - destruct s as [|c s]; [reflexivity|].
    rewrite split_cons by assumption.
    destruct (starts_with sep (c :: s)) eqn:E.
    + rewrite last_cons_nonempty by apply split_nonempty. apply IH.
      rewrite length_skipn. destruct sep; [congruence|]. simpl in *. lia.
    + specialize (IH s ltac:(simpl in Hn; lia)).
      destruct (split s sep) as [|x [|y l]] eqn:Es.
      * now apply split_nonempty in Es.
      * cbn [add_head last] in *.
        apply (split_single _ Hsep) in Es. subst x.
        now rewrite split_cons, E, IH by assumption.
      * cbn [add_head]. rewrite last_cons_nonempty by discriminate.
        now rewrite last_cons_nonempty in IH by discriminate.
Qed.

Section WithCall.
Variable call : nat -> list JsValue -> result JsValue.

Lemma write_chunks_count o total chunks : forall line,
  (List.length (fst (write_chunks call o total chunks line)) <= List.length chunks)%nat.
Proof.
  induction chunks as [|chunk rest IH]; intros line; cbn [write_chunks]; [cbn; lia|].
  unfold then_gen, write_chunk.
  destruct (outOfRange o line total); cbn [fst snd app List.length].
  - specialize (IH (line + 1)). lia.
  - destruct (_ || _); cbn [fst snd app List.length].
    + destruct (parseFields call chunk o line); cbn [fst snd app List.length]; try lia.
      specialize (IH (line + 1)). lia.
    + specialize (IH line). lia.
Qed.

End WithCall.

End BufferFacts.

(** X13.  After a [write] that returns, with a line ending configured or
    detected before it: the buffer it worked on is a sequence of complete
    lines, each followed by the line ending, and then the text the parser
    retains; the retained text holds no line ending; and at most one record
    per complete line was yielded. *)
Theorem write_retains_the_incomplete_line call p input p' :
  Options.eol (Bundle.Parser.options p) <> [] ->
  snd (Bundle.write call p input) = Ok p' ->
  exists lines,
    Bundle.Parser.text p ++ input
    = List.concat (map (fun l => l ++ Options.eol (Bundle.Parser.options p)) lines)
      ++ Bundle.Parser.text p'
    /\ (forall a b,
          Bundle.Parser.text p' <> a ++ Options.eol (Bundle.Parser.options p) ++ b)
    /\ (List.length (fst (Bundle.write call p input)) <= List.length lines)%nat.
Proof.
  intros Heol. unfold Bundle.write.
  destruct (Options.eol (Bundle.Parser.options p)) as [|c eol] eqn:E; [congruence|].
  rewrite E. set (sep := c :: eol) in *.
  set (buffer := Bundle.Parser.text p ++ input).
  set (parts := Bundle.split buffer sep).
  unfold Bundle.then_gen.
  pose proof (BufferFacts.write_chunks_count call (Bundle.Parser.options p)
                (Z.of_nat (List.length (removelast parts))
                 + (if len (last parts []) >? 0 then 1 else 0))
                (removelast parts) (Bundle.Parser.line p)) as Hcount.
  destruct (Bundle.write_chunks _ _ _ _ _) as [ys [line| |]]; cbn [fst snd] in *;
    intros H; try discriminate.
  injection H as <-. cbn [Bundle.Parser.text].
  exists (removelast parts). repeat apply conj.
  - apply (BufferFacts.split_concat sep Heol _ buffer (le_n _)).
  - intros a b. apply BufferFacts.single_part_no_separator; [assumption|].
    apply (BufferFacts.split_last_single sep Heol _ buffer (le_n _)).
  - rewrite app_nil_r. exact Hcount.
Qed.

Lemma write_retains_the_incomplete_line_witness :
  exists lines,
    str "ab12" ++ Bundle.CRLF ++ str "cd"
    = List.concat (map (fun l => l ++ Bundle.CRLF) lines) ++ str "cd"
    /\ (forall a b, str "cd" <> a ++ Bundle.CRLF ++ b)
    /\ (1 <= List.length lines)%nat.
Proof.
  exact (write_retains_the_incomplete_line no_call (Bundle.new_Parser crlf_layout)
           (str "ab12" ++ Bundle.CRLF ++ str "cd")
           (Bundle.Parser.make crlf_layout 2 (str "cd") 2)
           ltac:(discriminate) eq_refl).
Defined.

Module RangeFacts.
Import Bundle.

Section WithCall.
Variable call : nat -> list JsValue -> result JsValue.

(** A line in range is at most [to], and at least a positive [from]. *)
Lemma in_range_bounds o line total to :
  Options.to o = Finite to -> 0 < to ->
  outOfRange o line total = false ->
  line <= to /\ (0 < Options.from o -> Options.from o <= line).
Proof.
  intros Hto Hpos. unfold outOfRange. rewrite Hto. cbn [bound_positive above].
  rewrite !orb_false_iff, !andb_false_iff.
  intros [[[H1 _] H3] _].
  rewrite !Z.gtb_ltb, !Z.ltb_ge, ?Z.ltb_nlt in *.
  split; [destruct H3; lia | destruct H1; lia].
Qed.

Lemma write_chunks_room o total to chunks : forall line,
  Options.to o = Finite to -> 0 < to -> 1 <= line ->
  match snd (write_chunks call o total chunks line) with
  | Ok line' =>
      line <= line'
      /\ Z.of_nat (List.length (fst (write_chunks call o total chunks line)))
         + room to (Options.from o) line' <= room to (Options.from o) line
  | _ =>
      Z.of_nat (List.length (fst (write_chunks call o total chunks line)))
      <= room to (Options.from o) line
  end.
Proof.
  intros line Hto Hpos. revert line.
  induction chunks as [|chunk rest IH]; intros line Hline; cbn [write_chunks].
  - cbn. lia.
  - unfold then_gen, write_chunk.
    destruct (outOfRange o line total) eqn:Hr; cbn [fst snd app].
    + specialize (IH (line + 1) ltac:(lia)).
      destruct (snd (write_chunks call o total rest (line + 1)));
        unfold room in *; lia.
    + destruct (in_range_bounds _ _ _ _ Hto Hpos Hr) as [Hle Hfrom].
      destruct (_ || _); cbn [fst snd app].
      * destruct (parseFields call chunk o line); cbn [fst snd app List.length];
          try (unfold room; lia).
        specialize (IH (line + 1) ltac:(lia)).
        destruct (snd (write_chunks call o total rest (line + 1)));
          unfold room in *; lia.
      * specialize (IH line Hline).
        destruct (snd (write_chunks call o total rest line)); unfold room in *; lia.
Qed.

Lemma write_room p input to :
  Options.to (Parser.options p) = Finite to -> 0 < to -> 1 <= Parser.line p ->
  match snd (write call p input) with
  | Ok p' =>
      Options.to (Parser.options p') = Finite to
      /\ Options.from (Parser.options p') = Options.from (Parser.options p)
      /\ 1 <= Parser.line p'
      /\ Z.of_nat (List.length (fst (write call p input)))
         + room to (Options.from (Parser.options p)) (Parser.line p')
         <= room to (Options.from (Parser.options p)) (Parser.line p)
  | _ =>
      Z.of_nat (List.length (fst (write call p input)))
      <= room to (Options.from (Parser.options p)) (Parser.line p)
  end.
Proof.
  intros Hto Hpos Hline. unfold write.
  set (o := match Options.eol (Parser.options p) with
            | [] =>
                match guessEndOfLine (Parser.text p ++ input) with
                | Some eol => Options.with_eol (Parser.options p) eol
                | None => Parser.options p
                end
            | _ :: _ => Parser.options p
            end).
  assert (Ho : Options.to o = Finite to
               /\ Options.from o = Options.from (Parser.options p)).
  { unfold o. destruct (Options.eol (Parser.options p));
      [destruct (guessEndOfLine _)|]; auto. }
  destruct Ho as [Hto' Hfrom'].
  destruct (Options.eol o).
  - cbn [fst snd List.length Parser.options Parser.line]. repeat split; try assumption.
    unfold room. lia.
  - unfold then_gen.
    match goal with
    | |- context [write_chunks call o ?t ?c ?l] =>
        pose proof (write_chunks_room o t to c l Hto' Hpos Hline) as Hroom;
        destruct (write_chunks call o t c l) as [ys [line'| |]]
    end; cbn [fst snd Parser.options Parser.line] in *; rewrite ?Hfrom' in *.
    + rewrite app_nil_r. repeat split; try assumption; lia.
    + assumption.
    + assumption.
Qed.

Lemma end_room p to :
  Options.to (Parser.options p) = Finite to -> 0 < to -> 1 <= Parser.line p ->
  Z.of_nat (List.length (fst (end_ call p)))
  <= room to (Options.from (Parser.options p)) (Parser.line p).
Proof.
  intros Hto Hpos Hline. unfold end_, then_gen.
  destruct (len (Parser.text p) >? 0); cbn [fst snd app List.length];
    [|unfold room; lia].
  destruct (outOfRange _ _ _) eqn:Hr; cbn [fst snd app List.length];
    [unfold room; lia|].
  destruct (in_range_bounds _ _ _ _ Hto Hpos Hr) as [Hle Hfrom].
  destruct (parseFields call _ _ _); cbn [fst snd app List.length]; unfold room; lia.
Qed.

Lemma parseIterable_room to chunks : forall p,
  Options.to (Parser.options p) = Finite to -> 0 < to -> 1 <= Parser.line p ->
  Z.of_nat (List.length (fst (parseIterable call p chunks)))
  <= room to (Options.from (Parser.options p)) (Parser.line p).
Proof.
  induction chunks as [|x rest IH]; intros p Hto Hpos Hline; cbn [parseIterable].
  - now apply end_room.
  - pose proof (write_room p x to Hto Hpos Hline) as Hw. unfold then_gen.
    destruct (write call p x) as [ys [p'| |]]; cbn [fst snd] in *; try assumption.
    destruct Hw as (Hto' & Hfrom' & Hline' & Hroom).
    specialize (IH p' Hto' Hpos Hline'). rewrite Hfrom' in IH.
    rewrite length_app. lia.
Qed.

Lemma with_eol_twice o e1 e2 :
  Options.with_eol (Options.with_eol o e1) e2 = Options.with_eol o e2.
Proof. reflexivity. Qed.

Lemma with_eol_same o : Options.with_eol o (Options.eol o) = o.
Proof. now destruct o. Qed.

Lemma write_options p input p' :
  snd (write call p input) = Ok p' ->
  exists e,
    Parser.options p' = Options.with_eol (Parser.options p) e
    /\ (Options.eol (Parser.options p) <> [] -> e = Options.eol (Parser.options p)).
Proof.
  unfold write.
  destruct (Options.eol (Parser.options p)) as [|c eol] eqn:E.
  - destruct (guessEndOfLine _) as [e|].
    + intros H. exists e. split; [|congruence].
      destruct (Options.eol (Options.with_eol _ e)); cbn [snd] in H.
      * now injection H as <-.
      * unfold then_gen in H.
        destruct (snd (write_chunks _ _ _ _ _)); cbn [snd] in H; try discriminate.
        now injection H as <-.
    + rewrite E. cbn [snd]. intros H; injection H as <-.
      exists []. cbn [Parser.options]. split; [|congruence].
      rewrite <- E. symmetry. apply with_eol_same.
  - rewrite E. unfold then_gen.
    destruct (snd (write_chunks _ _ _ _ _)); cbn [snd]; intros H; try discriminate.
    injection H as <-. exists (c :: eol). cbn [Parser.options]. split; [|reflexivity].
    rewrite <- E. symmetry. apply with_eol_same.
Qed.

Lemma guess_nonempty text e : guessEndOfLine text = Some e -> e <> [].
Proof.
  unfold guessEndOfLine. destruct (has_crlf text); [intros H; injection H as <-; discriminate|].
  destruct (match_break text 0) as [index|]; [|discriminate].
  destruct (char_at_is text index [LF]); [intros H; injection H as <-; discriminate|].
  destruct (len text >? index + 1); [|discriminate].
  intros H; injection H as <-. discriminate.
Qed.

(** The options and, while nothing is detected, the buffer after a
    [write] that returns. *)
Lemma write_state p input p' :
  snd (write call p input) = Ok p' ->
  match Options.eol (Parser.options p) with
  | [] =>
      match guessEndOfLine (Parser.text p ++ input) with
      | Some e => Parser.options p' = Options.with_eol (Parser.options p) e
      | None =>
          Parser.options p' = Parser.options p
          /\ Parser.text p' = Parser.text p ++ input
      end
  | _ :: _ => Parser.options p' = Parser.options p
  end.
Proof.
  unfold write.
  destruct (Options.eol (Parser.options p)) as [|c eol] eqn:E.
  - destruct (guessEndOfLine _) as [e|].
    + intros H.
      destruct (Options.eol (Options.with_eol _ e)); cbn [snd] in H.
      * now injection H as <-.
      * unfold then_gen in H.
        destruct (snd (write_chunks _ _ _ _ _)); cbn [snd] in H; try discriminate.
        now injection H as <-.
    + rewrite E. cbn [snd]. intros H; injection H as <-. split; reflexivity.
  - rewrite E. unfold then_gen.
    destruct (snd (write_chunks _ _ _ _ _)); cbn [snd]; intros H; try discriminate.
    now injection H as <-.
Qed.

Lemma end_state p p' :
  snd (end_ call p) = Ok p' -> p' = Parser.make (Parser.options p) 1 [] 0.
Proof.
  unfold end_, then_gen.
  destruct (len (Parser.text p) >? 0);
    [destruct (outOfRange _ _ _); [|destruct (parseFields call _ _ _)]|];
    cbn [fst snd]; intros H; try discriminate; now injection H as <-.
Qed.

End WithCall.

End RangeFacts.

(** X14.  With an ending line [to] above 0, a parse — any chunks through
    [write], then [end] — yields at most [to + 1 - from] records, and at
    most [to] when [from] is below 1, whether or not it ends by throwing. *)
Theorem range_end_bounds_the_records call o chunks to :
  Options.to o = Finite to ->
  0 < to ->
  Z.of_nat (List.length (fst (Bundle.parseIterable call (Bundle.new_Parser o) chunks)))
  <= Z.max 0 (to + 1 - Z.max 1 (Options.from o)).
Proof.
  intros Hto Hpos.
  apply (RangeFacts.parseIterable_room call to chunks (Bundle.new_Parser o));
    cbn [Bundle.new_Parser Bundle.Parser.options Bundle.Parser.line]; [assumption.. | lia].
Qed.

Lemma range_end_bounds_the_records_witness :
  Z.of_nat
    (List.length
       (fst (Bundle.parseIterable no_call (Bundle.new_Parser first_two)
               [str "a" ++ [Bundle.LF] ++ str "b"; [Bundle.LF] ++ str "c" ++ [Bundle.LF]])))
  <= Z.max 0 (2 + 1 - Z.max 1 (Options.from first_two)).
Proof.
  apply (range_end_bounds_the_records no_call first_two
           [str "a" ++ [Bundle.LF] ++ str "b"; [Bundle.LF] ++ str "c" ++ [Bundle.LF]] 2).
  - reflexivity.
  - lia.
Defined.

(** X15.  When a parse ends without throwing, the parser is as new — line
    1, nothing retained, no line total — with the options it started with,
    except for the line ending: a configured one is kept, and without one
    the parser keeps the line ending detected in the first buffer in which
    [guessEndOfLine] found one (none when it never did). *)
Theorem finished_parser_is_as_new call chunks p p' :
  snd (Bundle.parseIterable call p chunks) = Ok p' ->
  p' = Bundle.new_Parser
         (Options.with_eol (Bundle.Parser.options p)
            (settled_eol (Bundle.Parser.options p) (Bundle.Parser.text p) chunks)).
Proof.
  revert p. induction chunks as [|x rest IH]; intros p; cbn [Bundle.parseIterable].
  - intros H. apply RangeFacts.end_state in H. subst p'.
    unfold Bundle.new_Parser, settled_eol. cbn [first_detected].
    pose proof (RangeFacts.with_eol_same (Bundle.Parser.options p)) as E.
    destruct (Options.eol (Bundle.Parser.options p)); now rewrite E.
  - unfold Bundle.then_gen.
    destruct (Bundle.write call p x) as [ys [p1| |]] eqn:Hw; cbn [fst snd];
      intros H; try discriminate.
    pose proof (RangeFacts.write_state call p x p1) as Hs.
    rewrite Hw in Hs. specialize (Hs eq_refl).
    rewrite (IH p1 H). f_equal. unfold settled_eol. cbn [first_detected].
    destruct (Options.eol (Bundle.Parser.options p)) as [|c eol] eqn:E.
    + destruct (Bundle.guessEndOfLine (Bundle.Parser.text p ++ x)) as [e|] eqn:G.
      * rewrite Hs. cbn [Options.eol Options.with_eol].
        pose proof (RangeFacts.guess_nonempty _ _ G) as Hne.
        destruct e; [congruence | reflexivity].
      * destruct Hs as [-> ->]. now rewrite E.
    + rewrite Hs, E. reflexivity.
Qed.

Lemma finished_parser_is_as_new_witness :
  Bundle.new_Parser crlf_layout
  = Bundle.new_Parser
      (Options.with_eol (layout_of [default_field 1 2 0; default_field 3 2 1] 4)
         (settled_eol (layout_of [default_field 1 2 0; default_field 3 2 1] 4) []
            [str "ab"; str "12" ++ Bundle.CRLF ++ str "cd34"])).
Proof.
  exact (finished_parser_is_as_new no_call [str "ab"; str "12" ++ Bundle.CRLF ++ str "cd34"]
           (Bundle.new_Parser (layout_of [default_field 1 2 0; default_field 3 2 1] 4))
           (Bundle.new_Parser crlf_layout) eq_refl).
Defined.

(** ** Whole documents *)

Module DocumentFacts.
Import Bundle SplitFacts.

Section WithCall.
Variable call : nat -> list JsValue -> result JsValue.
Variable buf : list Z -> jsstr -> result jsstr.
Variable EOL : jsstr.

(** What [stringifyIterable] yields from any state on, put together. *)
Lemma stringifyIterable_closed records : forall s,
  1 <= Stringifier.line s ->
  match encode_lines call buf (Stringifier.options s) records (Stringifier.line s) with
  | Ok ls =>
      snd (Stringifier.stringifyIterable call buf records s)
      = Ok (Stringifier.make (Stringifier.options s) 1)
      /\ List.concat (fst (Stringifier.stringifyIterable call buf records s))
         = if Options.eof (Stringifier.options s)
           then terminated (Options.eol (Stringifier.options s)) ls
           else if Stringifier.line s >? 1
                then List.concat (map (fun l => Options.eol (Stringifier.options s) ++ l) ls)
                else separated (Options.eol (Stringifier.options s)) ls
  | Throw e => snd (Stringifier.stringifyIterable call buf records s) = Throw e
  | Unfinished => snd (Stringifier.stringifyIterable call buf records s) = Unfinished
  end.
Proof.
  induction records as [|r rest IH]; intros s Hl;
    cbn [encode_lines Stringifier.stringifyIterable].
  - cbn [fst snd List.concat]. split; [reflexivity|].
    destruct (Options.eof _); [reflexivity|].
    destruct (Stringifier.line s >? 1); reflexivity.
  - unfold Stringifier.write.
    destruct (stringifyFields call buf r (Stringifier.options s) (Stringifier.line s))
      as [l| |]; cbn [bind fst snd]; try reflexivity.
    specialize (IH (Stringifier.make (Stringifier.options s) (Stringifier.line s + 1))).
    cbn [Stringifier.options Stringifier.line] in IH.
    specialize (IH ltac:(lia)).
    destruct (Z.gtb_spec (Stringifier.line s + 1) 1) as [_|]; [|lia].
    destruct (Options.eof (Stringifier.options s)) eqn:Eof; cbn [negb andb];
      destruct (encode_lines call buf (Stringifier.options s) rest
                  (Stringifier.line s + 1)) as [ls| |];
      cbn [bind fst snd]; try assumption;
      destruct IH as [IH1 IH2]; (split; [assumption|]);
      cbn [List.concat]; rewrite IH2.
    + reflexivity.
    + destruct (Stringifier.line s >? 1); cbn [app map List.concat separated];
        rewrite ?app_nil_r; reflexivity.
Qed.

Lemma stringify_closed records options :
  Stringifier.stringify call buf EOL records options =
  do o <- parseOptions options;
  do ls <- encode_lines call buf (Stringifier.options (Stringifier.new EOL o)) records 1;
  Ok (document (Stringifier.options (Stringifier.new EOL o)) ls).
Proof.
  unfold Stringifier.stringify.
  destruct (parseOptions options) as [o| |]; cbn [bind]; try reflexivity.
  pose proof (stringifyIterable_closed records (Stringifier.new EOL o)) as H.
  assert (Hl : Stringifier.line (Stringifier.new EOL o) = 1)
    by (unfold Stringifier.new; now destruct (Options.eol o)).
  rewrite Hl in H. specialize (H ltac:(lia)).
  destruct (encode_lines _ _ _ _ _) as [ls| |]; cbn [bind].
  - destruct H as [-> ->]. unfold document.
    change (1 >? 1) with false. reflexivity.
  - now rewrite H.
  - now rewrite H.
Qed.


(** A line without the first character of the separator ends at the
    separator that follows it. *)
Lemma split_line c eol l rest :
  ~ In c l -> split (l ++ (c :: eol) ++ rest) (c :: eol) = l :: split rest (c :: eol).
Proof.
  induction l as [|x l IH]; intros Hc.
  - cbn [app]. rewrite split_cons by discriminate.
    change (c :: eol ++ rest) with ((c :: eol) ++ rest).
    rewrite BufferFacts.starts_with_self, skipn_app, skipn_all, Nat.sub_diag.
    reflexivity.
  - cbn [app] in *. rewrite split_cons by discriminate.
    cbn [starts_with].
    destruct (Ascii.eqb_spec c x) as [->|_]; [elim Hc; now left|].
    cbn [andb]. rewrite IH by (intros H; apply Hc; now right). reflexivity.
Qed.

Lemma split_free c eol l : ~ In c l -> split l (c :: eol) = [l].
Proof.
  induction l as [|x l IH]; intros Hc; [reflexivity|].
  rewrite split_cons by discriminate. cbn [starts_with].
  destruct (Ascii.eqb_spec c x) as [->|_]; [elim Hc; now left|].
  cbn [andb]. rewrite IH by (intros H; apply Hc; now right). reflexivity.
Qed.

Lemma split_terminated c eol ls :
  Forall (fun l => ~ In c l) ls ->
  split (terminated (c :: eol) ls) (c :: eol) = ls ++ [[]].
Proof.
  induction 1 as [|l ls Hl _ IH]; [reflexivity|].
  unfold terminated in *. cbn [map List.concat]. rewrite <- app_assoc.
  rewrite split_line by assumption. now rewrite IH.
Qed.

Lemma split_separated c eol ls : forall l,
  Forall (fun l => ~ In c l) (l :: ls) ->
  split (separated (c :: eol) (l :: ls)) (c :: eol) = l :: ls.
Proof.
  induction ls as [|l2 ls IH]; intros l H; inversion H as [|? ? Hl Hls]; subst.
  - cbn [separated map List.concat]. rewrite app_nil_r. now apply split_free.
  - cbn [separated map List.concat]. rewrite <- app_assoc.
    rewrite split_line by assumption. f_equal. now apply IH.
Qed.

Lemma whole_range o line total :
  Options.from o = 1 -> Options.to o = Infinity -> 1 <= line ->
  outOfRange o line total = false.
Proof.
  intros Hf Ht Hl. unfold outOfRange. rewrite Hf, Ht. cbn.
  destruct (Z.ltb_spec line 1); [lia | reflexivity].
Qed.

(** The complete lines of a buffer, inside the range and not empty,
    give the records [parseFields] makes of them. *)
Lemma write_chunks_decode o total ls : forall line records,
  Options.from o = 1 -> Options.to o = Infinity -> 1 <= line ->
  Forall (fun l => 0 < len l) ls ->
  decode_lines call o ls line = Ok records ->
  write_chunks call o total ls line
  = (records, Ok (line + Z.of_nat (List.length ls))).
Proof.
  induction ls as [|l ls IH]; intros line records Hf Ht Hl Hne H;
    cbn [decode_lines write_chunks] in *.
  - injection H as <-. f_equal. f_equal. cbn; lia.
  - inversion Hne as [|? ? Hpos Hne']; subst.
    unfold then_gen, write_chunk. rewrite whole_range by assumption.
    destruct (Z.gtb_spec (len l) 0) as [_|]; [|lia]. cbn [orb].
    destruct (parseFields call l o line) as [r| |]; cbn [bind] in H; try discriminate.
    destruct (decode_lines call o ls (line + 1)) as [rs| |] eqn:E; cbn [bind] in H;
      try discriminate.
    injection H as <-. cbn [fst snd].
    rewrite (IH (line + 1) rs) by (assumption || lia). cbn [fst snd app].
    f_equal. f_equal. cbn [List.length]. lia.
Qed.

Lemma decode_lines_last o ls : forall l line records,
  decode_lines call o (ls ++ [l]) line = Ok records ->
  exists rs r,
    records = rs ++ [r]
    /\ decode_lines call o ls line = Ok rs
    /\ parseFields call l o (line + Z.of_nat (List.length ls)) = Ok r.
Proof.
  induction ls as [|x ls IH]; intros l line records H; cbn [app decode_lines] in *.
  - destruct (parseFields call l o line) as [r| |] eqn:E; cbn [bind] in H;
      try discriminate.
    injection H as <-. exists [], r. repeat split.
    now replace (line + Z.of_nat (List.length (@nil jsstr))) with line by (cbn; lia).
  - destruct (parseFields call x o line) as [rx| |]; cbn [bind] in *; try discriminate.
    destruct (decode_lines call o (ls ++ [l]) (line + 1)) as [rs'| |] eqn:E;
      cbn [bind] in H; try discriminate.
    injection H as <-. destruct (IH _ _ _ E) as (rs & r & -> & -> & Hr).
    exists (rx :: rs), r. repeat split.
    replace (line + Z.of_nat (List.length (x :: ls)))
      with (line + 1 + Z.of_nat (List.length ls)) by (cbn [List.length]; lia).
    assumption.
Qed.

Lemma width_positive options o :
  parseOptions options = Ok o -> 0 < Options.width o.
Proof.
  intros H. destruct (EncodeFacts.accepted_geometry _ _ H) as (Hs & _).
  apply OptionsFacts.bundle_parseOptions_inv in H.
  destruct H as (_ & _ & _ & _ & _ & _ & _ & Hw & _).
  destruct (Options.fields o) as [|f l]; [discriminate Hw|].
  inversion Hs as [|? ? (Hwf & Hc & _ & Hl) _]; subst.
  unfold last_column in Hl. lia.
Qed.

Lemma line_width options o obj line text :
  parseOptions options = Ok o ->
  stringifyFields call buf obj o line = Ok text -> len text = Options.width o.
Proof.
  intros Hopt. destruct (EncodeFacts.accepted_geometry _ _ Hopt) as (Hs & _ & Hp & Hw).
  destruct (RecordFacts.len_one _ Hp) as [q Hq].
  unfold stringifyFields. apply (EncodeFacts.loop_len call buf); [assumption|].
  unfold padEnd. rewrite Hq, WindowFacts.filler_repeat. cbn [app].
  rewrite WindowFacts.len_repeat. unfold len. cbn [List.length]. lia.
Qed.

Lemma encode_lines_width options o records : forall line ls,
  parseOptions options = Ok o ->
  encode_lines call buf o records line = Ok ls ->
  Forall (fun l => 0 < len l) ls.
Proof.
  induction records as [|r rest IH]; intros line ls Hopt H; cbn [encode_lines] in H.
  - injection H as <-. constructor.
  - destruct (stringifyFields call buf r o line) as [l| |] eqn:E; cbn [bind] in H;
      try discriminate.
    destruct (encode_lines call buf o rest (line + 1)) as [ls'| |] eqn:E';
      cbn [bind] in H; try discriminate.
    injection H as <-. constructor; [|eauto].
    rewrite (line_width _ _ _ _ _ Hopt E). now apply (width_positive options).
Qed.

(** [parse] on the lines of a document put together. *)
Lemma parse_document options o c eol ls records :
  parseOptions options = Ok o ->
  Options.eol o = c :: eol ->
  Options.from o = 1 -> Options.to o = Infinity ->
  Forall (fun l => 0 < len l) ls ->
  Forall (fun l => ~ In c l) ls ->
  decode_lines call o ls 1 = Ok records ->
  Entry.parse call (document o ls) options = Ok records.
Proof.
  intros Hopt Heol Hf Ht Hpos Hfree Hdec.
  unfold Entry.parse. rewrite Hopt. cbn [bind].
  unfold write, new_Parser. cbn [Parser.text Parser.options Parser.line app].
  rewrite Heol. cbn [Options.eol]. rewrite Heol.
  unfold document. rewrite Heol. destruct (Options.eof o).
  - rewrite split_terminated by assumption.
    rewrite removelast_last, last_last.
    change (len [] >? 0) with false.
    rewrite (write_chunks_decode _ _ _ _ _ Hf Ht (Z.le_refl 1) Hpos Hdec).
    unfold then_gen, Entry.Array_from, end_. cbn.
    now rewrite !app_nil_r.
  - destruct ls as [|l0 ls0] using rev_ind.
    + cbn in Hdec. injection Hdec as <-. reflexivity.
    + clear IHls0. destruct (decode_lines_last _ _ _ _ _ Hdec) as (rs & r & -> & Hrs & Hr).
      apply Forall_app in Hpos. destruct Hpos as [Hpos Hl0].
      inversion Hl0 as [|? ? Hl0' _]; subst.
      assert (Hsplit : split (separated (c :: eol) (ls0 ++ [l0])) (c :: eol)
                       = ls0 ++ [l0]).
      { destruct ls0 as [|x ls0]; cbn [app] in *; now apply split_separated. }
      rewrite Hsplit, removelast_last, last_last.
      destruct (Z.gtb_spec (len l0) 0) as [_|]; [|lia].
      rewrite (write_chunks_decode _ _ _ _ _ Hf Ht (Z.le_refl 1) Hpos Hrs).
      unfold then_gen, Entry.Array_from, end_.
      cbn [fst snd bind Parser.text Parser.options Parser.line Parser.totalLines].
      destruct (Z.gtb_spec (len l0) 0) as [_|]; [|lia].
      rewrite whole_range by (assumption || lia).
      rewrite Hr. cbn. now rewrite !app_nil_r.
Qed.

End WithCall.

End DocumentFacts.

(** X16.  [stringify] on an array of records is [parseOptions], then every
    record through [stringifyFields] at its 1-based position, then the
    lines put together: with [eof] every line is followed by the line
    ending, without it the line ending stands between lines only.  The
    first record that [stringifyFields] refuses makes the whole call throw
    that error. *)
Theorem stringify_joins_the_lines call buf EOL records options :
  Stringifier.stringify call buf EOL records options =
  do o <- Bundle.parseOptions options;
  do ls <- encode_lines call buf (Stringifier.options (Stringifier.new EOL o)) records 1;
  Ok (document (Stringifier.options (Stringifier.new EOL o)) ls).
Proof. apply DocumentFacts.stringify_closed. Qed.

(** X17.  A document round trip.  Under accepted options with an encoding
    Node knows, a line ending given and the whole line range, when no
    encoded line holds the first character of the line ending and every
    encoded line decodes to its record, [stringify] returns the lines put
    together and [parse] of that text returns the records, with [eof] on or
    off. *)
Theorem document_round_trip call buf EOL options o c eol records ls :
  Bundle.parseOptions options = Ok o ->
  known_encoding (Options.encoding o) = true ->
  Options.eol o = c :: eol ->
  Options.from o = 1 -> Options.to o = Infinity ->
  encode_lines call buf o records 1 = Ok ls ->
  Forall (fun l => ~ In c l) ls ->
  decode_lines call o ls 1 = Ok records ->
  Stringifier.stringify call buf EOL records options = Ok (document o ls)
  /\ Entry.parse call (document o ls) options = Ok records.
Proof.
  intros Hopt _ Heol Hf Ht Henc Hfree Hdec. split.
  - rewrite DocumentFacts.stringify_closed, Hopt. cbn [bind].
    unfold Stringifier.new. rewrite Heol. cbn [Stringifier.options].
    now rewrite Henc.
  - apply (DocumentFacts.parse_document call options o c eol); try assumption.
    exact (DocumentFacts.encode_lines_width call buf options o records 1 ls Hopt Henc).
Qed.

Lemma document_round_trip_witness :
  Stringifier.stringify no_call latin1 Bundle.CRLF ab_cd no_eof
  = Ok (str "AB01" ++ [Bundle.LF] ++ str "CD02")
  /\ Entry.parse no_call (str "AB01" ++ [Bundle.LF] ++ str "CD02") no_eof = Ok ab_cd.
Proof.
  refine (document_round_trip no_call latin1 Bundle.CRLF no_eof _ Bundle.LF [] ab_cd
            [str "AB01"; str "CD02"] eq_refl eq_refl eq_refl eq_refl eq_refl eq_refl _
            eq_refl).
  repeat constructor; cbn; intros H; repeat destruct H as [H|H]; try discriminate H;
    exact H.
Defined.

(** ** Detection is sound; the whole-input entry point; ranges from the end *)

Module DetectFacts.
Import Bundle.

Lemma match_break_inv text : forall index found,
  match_break text index = Some found ->
  exists pre c rest,
    text = pre ++ c :: rest /\ no_break pre /\ is_break c = true
    /\ found = index + len pre.
Proof.
  induction text as [|c text IH]; intros index found; cbn [match_break];
    [discriminate|].
  destruct (is_break c) eqn:Hc.
  - intros H; injection H as <-. exists [], c, text.
    repeat split; [constructor | assumption | unfold len; cbn; lia].
  - intros H. destruct (IH _ _ H) as (pre & d & rest & -> & Hpre & Hd & ->).
    exists (c :: pre), d, rest. repeat split; [now constructor | assumption|].
    unfold len; cbn [List.length]. lia.
Qed.

Lemma is_break_inv c : is_break c = true -> c = CR \/ c = LF.
Proof.
  unfold is_break. rewrite orb_true_iff, !Ascii.eqb_eq. tauto.
Qed.

End DetectFacts.

(** X18.  A line ending that [guessEndOfLine] returns is in the text: it is
    "\r\n" and the text holds it; or "\n" and the first line-break
    character of the text is "\n"; or "\r" and the first line-break
    character is "\r", followed by a character that is not "\n". *)
Theorem detected_eol_occurs text e :
  Bundle.guessEndOfLine text = Some e ->
  (e = Bundle.CRLF /\ exists a b, text = a ++ Bundle.CRLF ++ b)
  \/ (e = [Bundle.LF] /\ exists a b, no_break a /\ text = a ++ Bundle.LF :: b)
  \/ (e = [Bundle.CR]
      /\ exists a c b, no_break a /\ c <> Bundle.LF /\ text = a ++ Bundle.CR :: c :: b).
Proof.
  unfold Bundle.guessEndOfLine.
  destruct (Bundle.has_crlf text) eqn:Hcrlf.
  - intros H; injection H as <-. left. split; [reflexivity|].
    now apply EolFacts.has_crlf_inv.
  - destruct (Bundle.match_break text 0) as [index|] eqn:Hm; [|discriminate].
    destruct (DetectFacts.match_break_inv _ _ _ Hm) as (pre & c & rest & -> & Hpre & Hc & ->).
    unfold char_at_is. cbn [Z.add]. rewrite EolFacts.char_at_app.
    destruct (DetectFacts.is_break_inv _ Hc) as [-> | ->].
    + cbn [str_eqb]. change (Ascii.eqb Bundle.CR Bundle.LF) with false. cbn [andb].
      destruct (Z.gtb_spec (len (pre ++ Bundle.CR :: rest)) (len pre + 1)) as [Hl|];
        [|discriminate].
      intros H; injection H as <-. right. right. split; [reflexivity|].
      destruct rest as [|d rest].
      * rewrite StringFacts.len_app in Hl. unfold len in Hl. cbn [List.length] in Hl. lia.
      * exists pre, d, rest. repeat split; [assumption|].
        intros ->. change (Bundle.CR :: Bundle.LF :: rest) with (Bundle.CRLF ++ rest) in Hcrlf.
        rewrite EolFacts.has_crlf_app in Hcrlf. discriminate.
    + cbn [str_eqb]. rewrite Ascii.eqb_refl. cbn [andb].
      intros H; injection H as <-. right. left. split; [reflexivity|].
      now exists pre, rest.
Qed.

Lemma detected_eol_occurs_witness :
  ([Bundle.CR] = Bundle.CRLF /\ exists a b, mixed_breaks = a ++ Bundle.CRLF ++ b)
  \/ ([Bundle.CR] = [Bundle.LF]
      /\ exists a b, no_break a /\ mixed_breaks = a ++ Bundle.LF :: b)
  \/ ([Bundle.CR] = [Bundle.CR]
      /\ exists a c b, no_break a /\ c <> Bundle.LF
                       /\ mixed_breaks = a ++ Bundle.CR :: c :: b).
Proof.
  exact (detected_eol_occurs mixed_breaks [Bundle.CR] eq_refl).
Defined.

(** X19.  [parse] on a string returns the records [parseIterable] yields
    for the iterable of that one string when it ends without throwing, and
    throws what it throws otherwise: the records yielded before an error
    are not returned. *)
Theorem parse_collects_one_chunk call input options :
  Entry.parse call input options =
  do o <- Bundle.parseOptions options;
  do r <- Entry.Array_from (Bundle.parseIterable call (Bundle.new_Parser o) [input]);
  Ok (fst r).
Proof.
  unfold Entry.parse. destruct (Bundle.parseOptions options) as [o| |]; cbn [bind];
    try reflexivity.
  cbn [Bundle.parseIterable]. unfold Entry.Array_from at 1 3, Bundle.then_gen.
  destruct (Bundle.write call (Bundle.new_Parser o) input) as [ys [p| |]];
    cbn [fst snd bind]; try reflexivity.
  unfold Entry.Array_from.
  destruct (Bundle.end_ call p) as [zs [q| |]]; reflexivity.
Qed.

Module TailFacts.
Import Bundle.

Section WithCall.
Variable call : nat -> list JsValue -> result JsValue.

(** Lines before a range that counts from the end are passed over,
    each one counted. *)
Lemma write_chunks_skipped o total ls : forall line,
  Options.from o < 0 ->
  line + Z.of_nat (List.length ls) <= total + 1 + Options.from o ->
  write_chunks call o total ls line = ([], Ok (line + Z.of_nat (List.length ls))).
Proof.
  induction ls as [|l ls IH]; intros line Hf Hl; cbn [write_chunks].
  - f_equal. f_equal. cbn; lia.
  - cbn [List.length] in Hl. unfold then_gen, write_chunk.
    assert (Ho : outOfRange o line total = true).
    { unfold outOfRange.
      destruct (Z.ltb_spec (Options.from o) 0) as [_|]; [|lia].
      destruct (Z.ltb_spec line (total + 1 + Options.from o)) as [_|]; [|lia].
      cbn [andb]. now rewrite orb_true_r. }
    rewrite Ho. clear Ho. cbn [fst snd app]. rewrite IH by lia.
    cbn [fst snd]. f_equal. f_equal. cbn [List.length]. lia.
Qed.

(** Lines inside the range, not empty, give the records [parseFields]
    makes of them. *)
Lemma write_chunks_inside o total ls : forall line records,
  (forall n, line <= n -> outOfRange o n total = false) ->
  Forall (fun l => 0 < len l) ls ->
  decode_lines call o ls line = Ok records ->
  write_chunks call o total ls line
  = (records, Ok (line + Z.of_nat (List.length ls))).
Proof.
  induction ls as [|l ls IH]; intros line records Hin Hne H;
    cbn [decode_lines write_chunks] in *.
  - injection H as <-. f_equal. f_equal. cbn; lia.
  - inversion Hne as [|? ? Hpos Hne']; subst.
    unfold then_gen, write_chunk. rewrite Hin by lia.
    destruct (Z.gtb_spec (len l) 0) as [_|]; [|lia]. cbn [orb].
    destruct (parseFields call l o line) as [r| |]; cbn [bind] in H; try discriminate.
    destruct (decode_lines call o ls (line + 1)) as [rs| |] eqn:E; cbn [bind] in H;
      try discriminate.
    injection H as <-. cbn [fst snd].
    rewrite (IH (line + 1) rs); try assumption; [|intros n Hn; apply Hin; lia].
    cbn [fst snd app]. f_equal. f_equal. cbn [List.length]. lia.
Qed.

Lemma tail_range o total n :
  Options.from o < 0 -> Options.to o = Infinity ->
  total + 1 + Options.from o <= n ->
  outOfRange o n total = false.
Proof.
  intros Hf Ht Hn. unfold outOfRange. rewrite Ht. cbn [bound_positive bound_negative above].
  destruct (Z.gtb_spec (Options.from o) 0) as [|_]; [lia|].
  destruct (Z.ltb_spec n (total + 1 + Options.from o)) as [|_]; [lia|].
  now rewrite andb_false_r.
Qed.

Lemma parse_tail options o c eol front tail records :
  parseOptions options = Ok o ->
  Options.eol o = c :: eol ->
  Options.from o = - Z.of_nat (List.length tail) ->
  Options.to o = Infinity ->
  tail <> [] ->
  Forall (fun l => ~ In c l) (front ++ tail) ->
  Forall (fun l => 0 < len l) tail ->
  decode_lines call o tail (1 + Z.of_nat (List.length front)) = Ok records ->
  Entry.parse call (terminated (c :: eol) (front ++ tail)) options = Ok records.
Proof.
  intros Hopt Heol Hf Ht Hne Hfree Hpos Hdec.
  assert (Hneg : Options.from o < 0).
  { rewrite Hf. destruct tail; [congruence | cbn [List.length]; lia]. }
  unfold Entry.parse. rewrite Hopt. cbn [bind].
  unfold write, new_Parser. cbn [Parser.text Parser.options Parser.line app].
  rewrite Heol. cbn [Options.eol]. rewrite Heol.
  rewrite DocumentFacts.split_terminated by assumption.
  rewrite removelast_last, last_last.
  change (len [] >? 0) with false. change (if false then 1 else 0) with 0.
  rewrite ParserFacts.write_chunks_app.
  rewrite write_chunks_skipped
    by (assumption || (rewrite length_app, Hf; unfold jsstr; lia)).
  unfold then_gen at 2. cbn [fst snd app].
  rewrite (write_chunks_inside _ _ _ _ records); try assumption.
  - unfold then_gen, Entry.Array_from, end_. cbn.
    now rewrite !app_nil_r.
  - intros n Hn. apply tail_range; try assumption.
    rewrite length_app, Hf. unfold jsstr in *. lia.
Qed.

End WithCall.

End TailFacts.

(** X20.  A range that counts from the end.  Under accepted options with
    an encoding Node knows, a line ending given, no [to] and [from] set to
    minus the number of lines of [tail], [parse] of a text of complete
    lines, none holding the first character of the line ending and those of
    [tail] not empty, returns the records of the lines of [tail] only,
    decoded under the line numbers they have in the whole text. *)
Theorem negative_from_keeps_the_tail call options o c eol front tail records :
  Bundle.parseOptions options = Ok o ->
  known_encoding (Options.encoding o) = true ->
  Options.eol o = c :: eol ->
  Options.from o = - Z.of_nat (List.length tail) ->
  Options.to o = Infinity ->
  tail <> [] ->
  Forall (fun l => ~ In c l) (front ++ tail) ->
  Forall (fun l => 0 < len l) tail ->
  decode_lines call o tail (1 + Z.of_nat (List.length front)) = Ok records ->
  Entry.parse call (terminated (c :: eol) (front ++ tail)) options = Ok records.
Proof. intros Hopt _. now apply TailFacts.parse_tail. Qed.

Lemma negative_from_keeps_the_tail_witness :
  Entry.parse no_call (str "a" ++ [Bundle.LF] ++ str "b" ++ [Bundle.LF]) from_last
  = Ok [JArray [JString (str "b")]].
Proof.
  refine (negative_from_keeps_the_tail no_call from_last _ Bundle.LF [] [str "a"] [str "b"]
            [JArray [JString (str "b")]] eq_refl eq_refl eq_refl eq_refl eq_refl _ _ _
            eq_refl).
  - discriminate.
  - repeat constructor; cbn; intros H; repeat destruct H as [H|H]; try discriminate H;
      exact H.
  - repeat constructor.
Defined.
